(** * Composition preview and export core: a shallow embedding

    The development follows three source files: the type declarations
    (OverlayConfig, VideoFile, BgmFile, Composition), the preview component
    [SeamlessPlayer] and the export handlers of [Main].

    JavaScript numbers are embedded as rationals [Q]. Sums, comparisons
    and the geometry of the canvas are written exactly; the quotient and
    the product behind a percentage, which [Math.round] turns into an
    integer, are rounded as the double format rounds them ([Double]). An
    optional field [f?: T] is an [option T], and the truthiness tests the
    code applies to such fields are written out ([truthy_num],
    [truthy_str]).
    Media elements, the recorder and the decoder are collaborators of the
    code: what they answer is an explicit environment argument. *)

From Stdlib Require Import QArith Qround Qminmax Lqa ZArith List String Ascii Bool Lia Arith Sorted.
Import ListNotations.

(** ** Data model (type declarations) *)

Record OverlayConfig : Type := mkOverlayConfig {
  text : string;
  x : Q;
  y : Q;
  fontSize : Q;
  color : string;
  strokeColor : option string;
  strokeWidth : option Q;
  shadowColor : option string;
  shadowBlur : option Q;
  bgColor : option string;
  bgPadding : option Q
}.

(* [id], [name] and [url] occur in several interfaces; the fields carry the
   interface as a prefix. *)
Record VideoFile : Type := mkVideoFile {
  video_id : string;
  video_name : string;
  video_url : string;
  video_type : string;
  overlay : option OverlayConfig
}.

Record BgmFile : Type := mkBgmFile {
  bgm_id : string;
  bgm_name : string;
  bgm_url : string;
  duration : Q
}.

Record Composition : Type := mkComposition {
  comp_id : string;
  comp_name : string;
  segments : list VideoFile;
  createdAt : Z;
  aiTitle : option string;
  aiDescription : option string
}.

(** Truthiness of an optional number: defined and different from zero. *)
Definition truthy_num (n : option Q) : bool :=
  match n with
  | Some q => negb (Qeq_bool q 0%Q)
  | None => false
  end.

(** Truthiness of an optional string: defined and not empty. *)
Definition truthy_str (s : option string) : bool :=
  match s with
  | Some EmptyString => false
  | Some _ => true
  | None => false
  end.

(** [a || b] on an optional number. *)
Definition num_or (n : option Q) (d : Q) : Q :=
  if truthy_num n then match n with Some q => q | None => d end else d.

(** [a || b] on an optional string. *)
Definition str_or (s : option string) (d : string) : string :=
  if truthy_str s then match s with Some v => v | None => d end else d.

(** [Math.round]: the nearest integer, halves going up. *)
Definition Math_round (q : Q) : Z := Qfloor (q + 0.5)%Q.

(** ** The preview component *)

Module SeamlessPlayer.

Inductive PlayerId : Type := P1 | P2.

(** The part of a media element the component reads and writes. *)
Record MediaEl : Type := mkMediaEl {
  src : option string;
  paused : bool;
  currentTime : Q
}.

Record State : Type := mkState {
  currentIndex : nat;
  activePlayerId : PlayerId;
  isPlaying : bool;
  videoRef1 : MediaEl;
  videoRef2 : MediaEl;
  audioRef : MediaEl
}.

Definition pause (el : MediaEl) : MediaEl :=
  {| src := src el; paused := true; currentTime := currentTime el |}.

Definition play (el : MediaEl) : MediaEl :=
  {| src := src el; paused := false; currentTime := currentTime el |}.

Definition rewind (el : MediaEl) : MediaEl :=
  {| src := src el; paused := paused el; currentTime := 0%Q |}.

(** Assigning [src] restarts the element's resource selection: it no
    longer plays and is back at position 0. *)
Definition setSrc (u : option string) (el : MediaEl) : MediaEl :=
  {| src := u; paused := true; currentTime := 0%Q |}.

(** [segments[k].url] *)
Definition urlAt (segs : list VideoFile) (k : nat) : option string :=
  option_map video_url (nth_error segs k).

Definition stopAll (st : State) : State :=
  {| currentIndex := currentIndex st;
     activePlayerId := activePlayerId st;
     isPlaying := isPlaying st;
     videoRef1 := rewind (pause (videoRef1 st));
     videoRef2 := rewind (pause (videoRef2 st));
     audioRef := rewind (pause (audioRef st)) |}.

(** The effect run when [segments] or [bgm] change (and on mount). *)
Definition mount (segs : list VideoFile) (bgm : option BgmFile) (st : State) : State :=
  let st := stopAll st in
  let v1 := if (0 <? List.length segs)%nat then setSrc (urlAt segs 0) (videoRef1 st)
            else videoRef1 st in
  let v2 := if (1 <? List.length segs)%nat then setSrc (urlAt segs 1) (videoRef2 st)
            else videoRef2 st in
  let au := match bgm with
            | Some b => rewind (setSrc (Some (bgm_url b)) (audioRef st))
            | None => audioRef st
            end in
  {| currentIndex := 0; activePlayerId := P1; isPlaying := false;
     videoRef1 := v1; videoRef2 := v2; audioRef := au |}.

(** The reset shared by [handleAudioEnded] and the track-less end of
    [handleVideoEnded]; [reload] is what each does to the first slot. *)
Definition resetWith (reload : MediaEl -> MediaEl) (st : State) : State :=
  let st := stopAll st in
  {| currentIndex := 0; activePlayerId := P1; isPlaying := false;
     videoRef1 := reload (videoRef1 st);
     videoRef2 := videoRef2 st;
     audioRef := audioRef st |}.

Definition resetToStart (segs : list VideoFile) (st : State) : State :=
  resetWith (setSrc (urlAt segs 0)) st.

Definition handleAudioEnded (segs : list VideoFile) (bgm : option BgmFile)
    (st : State) : State :=
  match bgm with
  | Some _ =>
      resetWith (fun v => if (0 <? List.length segs)%nat then setSrc (urlAt segs 0) v else v) st
  | None => st
  end.

Definition other (p : PlayerId) : PlayerId :=
  match p with P1 => P2 | P2 => P1 end.

(** The part of [handleVideoEnded] after the two end-of-list tests:
    start the other slot, make it active, preload the slot that just
    finished. *)
Definition switchTo (segs : list VideoFile) (bgm : option BgmFile)
    (nextIndex : nat) (st : State) : State :=
  let nextActiveId := other (activePlayerId st) in
  let v1 := if match nextActiveId with P1 => true | P2 => false end
            then play (videoRef1 st) else videoRef1 st in
  let v2 := if match nextActiveId with P2 => true | P1 => false end
            then play (videoRef2 st) else videoRef2 st in
  let preloadIndex :=
    let p := (nextIndex + 1)%nat in
    match bgm with
    | Some _ => if (List.length segs <=? p)%nat then 0%nat else p
    | None => p
    end in
  let doPreload := (preloadIndex <? List.length segs)%nat in
  let v1 := if doPreload && match activePlayerId st with P1 => true | P2 => false end
            then setSrc (urlAt segs preloadIndex) v1 else v1 in
  let v2 := if doPreload && match activePlayerId st with P2 => true | P1 => false end
            then setSrc (urlAt segs preloadIndex) v2 else v2 in
  {| currentIndex := nextIndex; activePlayerId := nextActiveId;
     isPlaying := isPlaying st;
     videoRef1 := v1; videoRef2 := v2; audioRef := audioRef st |}.

Definition handleVideoEnded (segs : list VideoFile) (bgm : option BgmFile)
    (st : State) : State :=
  let nextIndex := (currentIndex st + 1)%nat in
  match bgm with
  | Some _ =>
      switchTo segs bgm (if (List.length segs <=? nextIndex)%nat then 0%nat else nextIndex) st
  | None =>
      if (List.length segs <=? nextIndex)%nat then resetToStart segs st
      else switchTo segs bgm nextIndex st
  end.

(** [togglePlay]; [playOk] tells whether the promise of [play()] on the
    active slot resolves. *)
Definition togglePlay (bgm : option BgmFile) (playOk : bool) (st : State) : State :=
  let onActive (f : MediaEl -> MediaEl) (p : PlayerId) (el : MediaEl) :=
    if match activePlayerId st, p with P1, P1 | P2, P2 => true | _, _ => false end
    then f el else el in
  let onAudio (f : MediaEl -> MediaEl) (el : MediaEl) :=
    match bgm with Some _ => f el | None => el end in
  if isPlaying st then
    {| currentIndex := currentIndex st; activePlayerId := activePlayerId st;
       isPlaying := false;
       videoRef1 := onActive pause P1 (videoRef1 st);
       videoRef2 := onActive pause P2 (videoRef2 st);
       audioRef := onAudio pause (audioRef st) |}
  else
    {| currentIndex := currentIndex st; activePlayerId := activePlayerId st;
       isPlaying := playOk;
       videoRef1 := if playOk then onActive play P1 (videoRef1 st) else videoRef1 st;
       videoRef2 := if playOk then onActive play P2 (videoRef2 st) else videoRef2 st;
       audioRef := onAudio play (audioRef st) |}.

(** *** What the component renders *)

(** The inline style of the overlay element; lengths are in [cqw], one
    hundredth of the container's width. *)
Record OverlayStyle : Type := mkOverlayStyle {
  left_pct : Q;
  top_pct : Q;
  css_color : string;
  fontSize_cqw : Q;
  (* [None] is ['none']; the colour is interpolated as it is, also when
     it is undefined *)
  webkitTextStroke : option (Q * option string);
  textShadow : option (Q * string);
  backgroundColor : string;
  padding_cqw : Q
}.

Definition overlayStyle (o : OverlayConfig) : OverlayStyle :=
  {| left_pct := x o;
     top_pct := y o;
     css_color := color o;
     fontSize_cqw := ((fontSize o / 720) * 100)%Q;
     webkitTextStroke :=
       if truthy_num (strokeWidth o)
       then Some (((num_or (strokeWidth o) 0 / 720) * 100)%Q, strokeColor o)
       else None;
     textShadow :=
       if truthy_num (shadowBlur o)
       then Some (((num_or (shadowBlur o) 0 / 720) * 100)%Q, str_or (shadowColor o) "black")
       else None;
     backgroundColor := str_or (bgColor o) "transparent";
     padding_cqw :=
       if truthy_num (bgPadding o) then ((num_or (bgPadding o) 0 / 720) * 100)%Q else 0%Q |}.

Record VideoView : Type := mkVideoView {
  visible : bool;
  muted : bool
}.

Record View : Type := mkView {
  audioMounted : bool;
  view1 : VideoView;
  view2 : VideoView;
  overlayView : option (OverlayStyle * string);
  caption : option string
}.

Definition attached (bgm : option BgmFile) : bool :=
  match bgm with Some _ => true | None => false end.

(** [None] is the placeholder shown for an empty segment list. *)
Definition render (segs : list VideoFile) (bgm : option BgmFile) (st : State)
    : option View :=
  match segs with
  | [] => None
  | _ :: _ =>
      let currentSegment := nth_error segs (currentIndex st) in
      let ov := match currentSegment with
                | Some seg => overlay seg
                | None => None
                end in
      Some {| audioMounted := attached bgm;
              view1 := {| visible := match activePlayerId st with P1 => true | P2 => false end;
                          muted := attached bgm |};
              view2 := {| visible := match activePlayerId st with P2 => true | P1 => false end;
                          muted := attached bgm |};
              overlayView := option_map (fun o => (overlayStyle o, text o)) ov;
              caption := option_map video_name currentSegment |}
  end.

(** The resting state of the machine: not playing, first segment, slot A. *)
Definition Idle (st : State) : Prop :=
  isPlaying st = false /\ currentIndex st = 0%nat /\ activePlayerId st = P1.

End SeamlessPlayer.

(** ** The export surface

    The 2D context as the export code uses it. The context record holds the
    values the code assigns; every drawing call is logged together with the
    context it was issued under. *)

Module Canvas.

Local Open Scope Q_scope.

Record Context2D : Type := mkContext2D {
  font_px : Q;                (* [bold <n>px sans-serif] *)
  textBaseline : string;
  textAlign : string;
  fillStyle : string;
  strokeStyle : string;
  lineWidth : Q;
  ctx_shadowColor : string;
  ctx_shadowBlur : Q;
  shadowOffsetX : Q;
  shadowOffsetY : Q
}.

Inductive DrawOp : Type :=
| DrawImage (dx dy dw dh : Q) (c : Context2D)
| FillRect (rx ry rw rh : Q) (c : Context2D)
| StrokeText (line : string) (tx ty : Q) (c : Context2D)
| FillText (line : string) (tx ty : Q) (c : Context2D).

Record Surface : Type := mkSurface {
  width : Q;
  height : Q;
  ctx : Context2D;
  saved : list Context2D;
  ops : list DrawOp
}.

(** A context as [getContext('2d')] hands it out. *)
Definition freshContext : Context2D :=
  {| font_px := 10; textBaseline := "alphabetic"; textAlign := "start";
     fillStyle := "#000000"; strokeStyle := "#000000"; lineWidth := 1;
     ctx_shadowColor := "rgba(0, 0, 0, 0)"; ctx_shadowBlur := 0;
     shadowOffsetX := 0; shadowOffsetY := 0 |}.

Definition withCtx (f : Context2D -> Context2D) (s : Surface) : Surface :=
  {| width := width s; height := height s; ctx := f (ctx s);
     saved := saved s; ops := ops s |}.

Definition emit (op : Context2D -> DrawOp) (s : Surface) : Surface :=
  {| width := width s; height := height s; ctx := ctx s;
     saved := saved s; ops := ops s ++ [op (ctx s)] |}.

Definition save (s : Surface) : Surface :=
  {| width := width s; height := height s; ctx := ctx s;
     saved := ctx s :: saved s; ops := ops s |}.

(** [restore] on an empty stack does nothing. *)
Definition restore (s : Surface) : Surface :=
  match saved s with
  | [] => s
  | c :: rest =>
      {| width := width s; height := height s; ctx := c;
         saved := rest; ops := ops s |}
  end.

Definition setFont (px : Q) : Surface -> Surface :=
  withCtx (fun c =>
    {| font_px := px; textBaseline := textBaseline c; textAlign := textAlign c;
       fillStyle := fillStyle c; strokeStyle := strokeStyle c; lineWidth := lineWidth c;
       ctx_shadowColor := ctx_shadowColor c; ctx_shadowBlur := ctx_shadowBlur c;
       shadowOffsetX := shadowOffsetX c; shadowOffsetY := shadowOffsetY c |}).

Definition setTextBaseline (v : string) : Surface -> Surface :=
  withCtx (fun c =>
    {| font_px := font_px c; textBaseline := v; textAlign := textAlign c;
       fillStyle := fillStyle c; strokeStyle := strokeStyle c; lineWidth := lineWidth c;
       ctx_shadowColor := ctx_shadowColor c; ctx_shadowBlur := ctx_shadowBlur c;
       shadowOffsetX := shadowOffsetX c; shadowOffsetY := shadowOffsetY c |}).

Definition setTextAlign (v : string) : Surface -> Surface :=
  withCtx (fun c =>
    {| font_px := font_px c; textBaseline := textBaseline c; textAlign := v;
       fillStyle := fillStyle c; strokeStyle := strokeStyle c; lineWidth := lineWidth c;
       ctx_shadowColor := ctx_shadowColor c; ctx_shadowBlur := ctx_shadowBlur c;
       shadowOffsetX := shadowOffsetX c; shadowOffsetY := shadowOffsetY c |}).

Definition setFillStyle (v : string) : Surface -> Surface :=
  withCtx (fun c =>
    {| font_px := font_px c; textBaseline := textBaseline c; textAlign := textAlign c;
       fillStyle := v; strokeStyle := strokeStyle c; lineWidth := lineWidth c;
       ctx_shadowColor := ctx_shadowColor c; ctx_shadowBlur := ctx_shadowBlur c;
       shadowOffsetX := shadowOffsetX c; shadowOffsetY := shadowOffsetY c |}).

Definition setStrokeStyle (v : string) : Surface -> Surface :=
  withCtx (fun c =>
    {| font_px := font_px c; textBaseline := textBaseline c; textAlign := textAlign c;
       fillStyle := fillStyle c; strokeStyle := v; lineWidth := lineWidth c;
       ctx_shadowColor := ctx_shadowColor c; ctx_shadowBlur := ctx_shadowBlur c;
       shadowOffsetX := shadowOffsetX c; shadowOffsetY := shadowOffsetY c |}).

Definition setLineWidth (v : Q) : Surface -> Surface :=
  withCtx (fun c =>
    {| font_px := font_px c; textBaseline := textBaseline c; textAlign := textAlign c;
       fillStyle := fillStyle c; strokeStyle := strokeStyle c; lineWidth := v;
       ctx_shadowColor := ctx_shadowColor c; ctx_shadowBlur := ctx_shadowBlur c;
       shadowOffsetX := shadowOffsetX c; shadowOffsetY := shadowOffsetY c |}).

Definition setShadowColor (v : string) : Surface -> Surface :=
  withCtx (fun c =>
    {| font_px := font_px c; textBaseline := textBaseline c; textAlign := textAlign c;
       fillStyle := fillStyle c; strokeStyle := strokeStyle c; lineWidth := lineWidth c;
       ctx_shadowColor := v; ctx_shadowBlur := ctx_shadowBlur c;
       shadowOffsetX := shadowOffsetX c; shadowOffsetY := shadowOffsetY c |}).

Definition setShadowBlur (v : Q) : Surface -> Surface :=
  withCtx (fun c =>
    {| font_px := font_px c; textBaseline := textBaseline c; textAlign := textAlign c;
       fillStyle := fillStyle c; strokeStyle := strokeStyle c; lineWidth := lineWidth c;
       ctx_shadowColor := ctx_shadowColor c; ctx_shadowBlur := v;
       shadowOffsetX := shadowOffsetX c; shadowOffsetY := shadowOffsetY c |}).

Definition setShadowOffset (ox oy : Q) : Surface -> Surface :=
  withCtx (fun c =>
    {| font_px := font_px c; textBaseline := textBaseline c; textAlign := textAlign c;
       fillStyle := fillStyle c; strokeStyle := strokeStyle c; lineWidth := lineWidth c;
       ctx_shadowColor := ctx_shadowColor c; ctx_shadowBlur := ctx_shadowBlur c;
       shadowOffsetX := ox; shadowOffsetY := oy |}).

Definition drawImage (dx dy dw dh : Q) : Surface -> Surface := emit (DrawImage dx dy dw dh).
Definition fillRect (rx ry rw rh : Q) : Surface -> Surface := emit (FillRect rx ry rw rh).
Definition strokeText (l : string) (tx ty : Q) : Surface -> Surface := emit (StrokeText l tx ty).
Definition fillText (l : string) (tx ty : Q) : Surface -> Surface := emit (FillText l tx ty).

(** The context an operation was drawn under. *)
Definition opCtx (op : DrawOp) : Context2D :=
  match op with
  | DrawImage _ _ _ _ c | FillRect _ _ _ _ c | StrokeText _ _ _ c | FillText _ _ _ c => c
  end.

(** The surface [handleExport] sets up: 720 x 1280, painted black. *)
Definition exportSurface : Surface :=
  let s := {| width := 720; height := 1280; ctx := freshContext; saved := []; ops := [] |} in
  fillRect 0 0 (width s) (height s) (setFillStyle "#000" s).

End Canvas.

(** [text.split('\n')]: never empty; a trailing break yields a last empty
    line. *)
Fixpoint split_newline (s : string) : list string :=
  match s with
  | EmptyString => [EmptyString]
  | String c rest =>
      if Ascii.eqb c "010"%char then EmptyString :: split_newline rest
      else match split_newline rest with
           | l :: ls => String c l :: ls
           | [] => [String c EmptyString]
           end
  end.

Module Compositor.
Import Canvas.
Local Open Scope Q_scope.

Section Overlay.

(** [ctx.measureText(line).width] at the font size in force. *)
Variable measureText : Q -> string -> Q.

(** The geometry computed before anything is drawn. *)
Record Box : Type := mkBox {
  lines : list string;
  lineHeight : Q;
  maxWidth : Q;
  pad : Q;
  boxWidth : Q;
  boxHeight : Q;
  xPos : Q;
  yPos : Q;
  boxX : Q;
  boxY : Q
}.

Definition widest (px : Q) (ls : list string) : Q :=
  fold_left (fun mw line =>
               let m := measureText px line in
               if Qle_bool m mw then mw else m) ls 0.

Definition layout (cw ch : Q) (o : OverlayConfig) : Box :=
  let lines := split_newline (text o) in
  let lineHeight := fontSize o * 1.2 in
  let maxWidth := widest (fontSize o) lines in
  let pad := num_or (bgPadding o) 0 in
  let boxWidth := maxWidth + (pad * 2) in
  let totalHeight := inject_Z (Z.of_nat (List.length lines)) * lineHeight in
  let boxHeight := totalHeight + (pad * 2) in
  let xPos := (x o / 100) * cw in
  let yPos := (y o / 100) * ch in
  let boxX := xPos - (boxWidth / 2) in
  let boxY := yPos - (boxHeight / 2) in
  {| lines := lines; lineHeight := lineHeight; maxWidth := maxWidth; pad := pad;
     boxWidth := boxWidth; boxHeight := boxHeight; xPos := xPos; yPos := yPos;
     boxX := boxX; boxY := boxY |}.

(** The body of the second [lines.forEach]. *)
Definition drawLine (o : OverlayConfig) (xPos lineHeight : Q)
    (acc : Surface * Q) (line : string) : Surface * Q :=
  let '(s, lineY) := acc in
  let s :=
    if truthy_num (strokeWidth o) && truthy_str (strokeColor o)
    then strokeText line xPos lineY
           (setStrokeStyle (str_or (strokeColor o) "")
              (setLineWidth (num_or (strokeWidth o) 0) s))
    else s in
  let s := fillText line xPos lineY (setFillStyle (color o) s) in
  (s, lineY + lineHeight).

(** The block guarded by [activeSegment?.overlay]. *)
Definition drawOverlay (o : OverlayConfig) (s : Surface) : Surface :=
  let s := save s in
  let s := setFont (fontSize o) s in
  let s := setTextBaseline "middle" s in
  let b := layout (width s) (height s) o in
  let s :=
    if truthy_str (bgColor o)
    then fillRect (boxX b) (boxY b) (boxWidth b) (boxHeight b)
           (setFillStyle (str_or (bgColor o) "") s)
    else s in
  let s :=
    if truthy_num (shadowBlur o) && truthy_str (shadowColor o)
    then setShadowOffset 0 0
           (setShadowBlur (num_or (shadowBlur o) 0)
              (setShadowColor (str_or (shadowColor o) "") s))
    else setShadowBlur 0 (setShadowColor "transparent" s) in
  let s := setTextAlign "center" s in
  let lineY := boxY b + pad b + (lineHeight b / 2) in
  let '(s, _) := fold_left (drawLine o (xPos b) (lineHeight b)) (lines b) (s, lineY) in
  restore s.

(** What the draw timer needs to know of the video element. *)
Record Frame : Type := mkFrame {
  videoPaused : bool;
  videoEnded : bool;
  readyState : nat;
  videoWidth : Q;
  videoHeight : Q
}.

(** One tick of the 33 ms draw timer. *)
Definition drawFrame (isFinished : bool) (activeSegment : option VideoFile)
    (f : Frame) (s : Surface) : Surface :=
  if isFinished then s
  else if negb (videoPaused f) && negb (videoEnded f) && (2 <=? readyState f)%nat then
    let vw := videoWidth f in
    let vh := videoHeight f in
    let cw := width s in
    let ch := height s in
    let scale := Qmax (cw / vw) (ch / vh) in
    let w := vw * scale in
    let h := vh * scale in
    let ix := (cw - w) / 2 in
    let iy := (ch - h) / 2 in
    let s := drawImage ix iy w h s in
    match activeSegment with
    | Some seg =>
        match overlay seg with
        | Some o => drawOverlay o s
        | None => s
        end
    | None => s
    end
  else s.

End Overlay.

End Compositor.

(** ** The number format

    A JavaScript number is an IEEE 754 double. Where the code turns the
    result of a multiplication or a division into an integer, the rounding
    of the format decides which one: [Double.round] is the rounding to the
    nearest double, a tie going to the even significand, and [Double.mul]
    and [Double.div] are the two operations. The exponent is not bounded:
    the values agree with the format on the numbers of its normal range,
    which the percentages of the export are. *)

From Stdlib Require Import Qpower.

Module Double.

Local Open Scope Q_scope.

(** The nearest integer, a tie going to the even one. *)
Definition nearestEven (s : Q) : Z :=
  let f := Qfloor s in
  match Qcompare (s - inject_Z f) (1 # 2) with
  | Lt => f
  | Eq => if Z.even f then f else (f + 1)%Z
  | Gt => (f + 1)%Z
  end.

(** For [q > 0], the exponent [e] of the last place of its significand:
    [2^52 <= q / 2^e < 2^53]. *)
Definition lastPlace (q : Q) : Z :=
  let k := (Z.log2 (Qnum q) - Z.log2 (Zpos (Qden q)))%Z in
  if Qle_bool (2 ^ k) q then (k - 52)%Z else (k - 53)%Z.

Definition roundPositive (q : Q) : Q :=
  let e := lastPlace q in
  inject_Z (nearestEven (q / 2 ^ e)) * 2 ^ e.

Definition round (q : Q) : Q :=
  match Qnum q with
  | Z0 => 0
  | Zpos _ => roundPositive q
  | Zneg _ => - roundPositive (- q)
  end.

Definition mul (a b : Q) : Q := round (a * b).
Definition div (a b : Q) : Q := round (a / b).

End Double.

(** ** The export handlers *)

Module Main.

Local Open Scope Q_scope.

(** Default configuration for new overlays. *)
Definition DEFAULT_OVERLAY : OverlayConfig :=
  {| text := "输入标题..."; x := 50; y := 50; fontSize := 40; color := "#ffffff";
     strokeWidth := Some 0; strokeColor := Some "#000000"%string;
     shadowBlur := Some 0; shadowColor := Some "#000000"%string;
     bgColor := Some ""%string; bgPadding := Some 20 |}.

(** *** Collaborators *)

(** What the video element answers once a segment's url is assigned to
    it. Every attempt ends in exactly one of these. *)
Inductive SegmentEvent : Type :=
| LoadTimeout                    (* no [loadeddata] within 15000 ms *)
| PlayRejected                   (* [loadeddata], then [play()] rejects *)
| MediaError (loaded : bool)     (* [onerror], before or after [loadeddata] *)
| Plays (videoDuration : Q).     (* [loadeddata], playback, [ended] *)

Record Env : Type := mkEnv {
  (* whether fetching and decoding the track succeeds *)
  bgmDecodes : bool;
  (* the answer to the attempt made at a given [currentSegmentIndex] *)
  segmentEvent : nat -> SegmentEvent;
  (* sizes of the blobs the recorder hands to [ondataavailable] *)
  dataavailable : list Z;
  isTypeSupported : string -> bool
}.

Inductive LogEntry : Type :=
| FailedToLoadBgm
| VideoLoadTimeout (name : string)
| PlayError
| ErrorPlaying (name : string)
| ExportFailed (error : string).

Inductive Alert : Type :=
| AlertExportFailed (name error : string)
| AlertSelectFirst
| AlertBatchDone.

(** *** The variables one export closes over *)

Inductive RecorderState : Type := Recording | Paused.

(** One stretch of recorded playback: the recorder runs from [resume] on
    [loadeddata] to [pause] in [onended]. *)
Record Run : Type := mkRun {
  run_index : nat;       (* position of the segment in the composition *)
  run_start : Q;         (* [accumulatedTime] when the clip started *)
  run_played : Q;        (* [video.currentTime] when it stopped *)
  run_duration : Q;      (* [video.duration], the amount accounted *)
  run_forced : bool      (* stopped by the 100 ms timer, not by its end *)
}.

Record Job : Type := mkJob {
  currentSegmentIndex : nat;
  accumulatedTime : Q;
  isFinished : bool;
  activeSegment : option VideoFile;
  recorderState : RecorderState;
  (* the arguments of [setExportProgress], oldest first *)
  progressUpdates : list Z;
  console : list LogEntry;
  runs : list Run;
  (* an exception on its way to the [catch] of [handleExport] *)
  thrown : option string
}.

Definition newJob : Job :=
  {| currentSegmentIndex := 0; accumulatedTime := 0; isFinished := false;
     activeSegment := None; recorderState := Paused;
     progressUpdates := []; console := []; runs := []; thrown := None |}.

Definition attached (bgm : option BgmFile) : bool :=
  match bgm with Some _ => true | None => false end.

(** *** The 100 ms timer *)

(** The values of [video.currentTime] the timer reads while a clip of
    duration [d] plays at normal speed: the multiples of 0.1 s below
    [d]. At [d] the element has ended and the timer's test on
    [video.paused] fails. *)
Definition sampleAt (k : nat) : Q := inject_Z (Z.of_nat k) * 0.1.

Definition pollSamples (d : Q) : list Q :=
  map sampleAt (seq 1 (Z.to_nat (Qceiling (d / 0.1)) - 1)).

(** The first sample at which the timer pauses the clip and dispatches
    [ended], if any. *)
Definition cutoff (bgm : option BgmFile) (totalDuration acc d : Q) : option Q :=
  if attached bgm
  then find (fun currentClipTime => Qle_bool totalDuration (acc + currentClipTime))
            (pollSamples d)
  else None.

Section ExportLoop.

Variable bgm : option BgmFile.
Variable totalDuration : Q.
Variable segs : list VideoFile.
Variable env : Env.

Definition log (e : LogEntry) (j : Job) : Job :=
  {| currentSegmentIndex := currentSegmentIndex j; accumulatedTime := accumulatedTime j;
     isFinished := isFinished j; activeSegment := activeSegment j;
     recorderState := recorderState j; progressUpdates := progressUpdates j;
     console := console j ++ [e]; runs := runs j; thrown := thrown j |}.

Definition setExportProgress (p : Z) (j : Job) : Job :=
  {| currentSegmentIndex := currentSegmentIndex j; accumulatedTime := accumulatedTime j;
     isFinished := isFinished j; activeSegment := activeSegment j;
     recorderState := recorderState j; progressUpdates := progressUpdates j ++ [p];
     console := console j; runs := runs j; thrown := thrown j |}.

Definition setRecorder (r : RecorderState) (j : Job) : Job :=
  {| currentSegmentIndex := currentSegmentIndex j; accumulatedTime := accumulatedTime j;
     isFinished := isFinished j; activeSegment := activeSegment j;
     recorderState := r; progressUpdates := progressUpdates j;
     console := console j; runs := runs j; thrown := thrown j |}.

Definition setActiveSegment (s : option VideoFile) (j : Job) : Job :=
  {| currentSegmentIndex := currentSegmentIndex j; accumulatedTime := accumulatedTime j;
     isFinished := isFinished j; activeSegment := s;
     recorderState := recorderState j; progressUpdates := progressUpdates j;
     console := console j; runs := runs j; thrown := thrown j |}.

Definition finish (j : Job) : Job :=
  {| currentSegmentIndex := currentSegmentIndex j; accumulatedTime := accumulatedTime j;
     isFinished := true; activeSegment := activeSegment j;
     recorderState := recorderState j; progressUpdates := progressUpdates j;
     console := console j; runs := runs j; thrown := thrown j |}.

Definition throw (e : string) (j : Job) : Job :=
  {| currentSegmentIndex := currentSegmentIndex j; accumulatedTime := accumulatedTime j;
     isFinished := isFinished j; activeSegment := activeSegment j;
     recorderState := recorderState j; progressUpdates := progressUpdates j;
     console := console j; runs := runs j; thrown := Some e |}.

(** [currentSegmentIndex++] *)
Definition advance (j : Job) : Job :=
  {| currentSegmentIndex := S (currentSegmentIndex j); accumulatedTime := accumulatedTime j;
     isFinished := isFinished j; activeSegment := activeSegment j;
     recorderState := recorderState j; progressUpdates := progressUpdates j;
     console := console j; runs := runs j; thrown := thrown j |}.

(** [video.onended]: pause the recorder, account the clip, advance. The
    amount accounted is [video.duration] on both ways into the handler. *)
Definition onended (r : Run) (videoDuration : Q) (j : Job) : Job :=
  let j := setRecorder Paused j in
  {| currentSegmentIndex := S (currentSegmentIndex j);
     accumulatedTime := accumulatedTime j + videoDuration;
     isFinished := isFinished j; activeSegment := activeSegment j;
     recorderState := recorderState j; progressUpdates := progressUpdates j;
     console := console j; runs := runs j ++ [r]; thrown := thrown j |}.

(** The promise awaited for one segment. [isFinished] is only set right
    before [playNextSegment] returns, so it is false here and the early
    return of [onloadeddata] is not taken. The buffer source of the track
    started next to the clip touches none of these variables. *)
Definition awaitSegment (segment : VideoFile) (j : Job) : Job :=
  match segmentEvent env (currentSegmentIndex j) with
  | LoadTimeout =>
      advance (log (VideoLoadTimeout (video_name segment)) j)
  | PlayRejected =>
      advance (log PlayError (setRecorder Recording j))
  | MediaError loaded =>
      let j := if loaded then setRecorder Recording j else j in
      advance (log (ErrorPlaying (video_name segment)) j)
  | Plays videoDuration =>
      let j := setRecorder Recording j in
      let index := (currentSegmentIndex j mod List.length segs)%nat in
      match cutoff bgm totalDuration (accumulatedTime j) videoDuration with
      | Some currentClipTime =>
          onended {| run_index := index; run_start := accumulatedTime j;
                     run_played := currentClipTime; run_duration := videoDuration;
                     run_forced := true |}
                  videoDuration j
      | None =>
          onended {| run_index := index; run_start := accumulatedTime j;
                     run_played := videoDuration; run_duration := videoDuration;
                     run_forced := false |}
                  videoDuration j
      end
  end.

(** The progress shown while a segment is set up: [Math.min(100, (a / b)
    * 100)], the quotient and the product each rounded to a double. The
    divisor is positive wherever the loop computes it (the guards are
    open). *)
Definition progressOf (j : Job) : Q :=
  if attached bgm
  then Qmin 100 (Double.mul (Double.div (accumulatedTime j) totalDuration) 100)
  else Qmin 100 (Double.mul
                   (Double.div (inject_Z (Z.of_nat (currentSegmentIndex j)))
                               (inject_Z (Z.of_nat (List.length segs)))) 100).

(** [playNextSegment]; [fuel] bounds the number of calls, the job
    returned with [isFinished = false] and nothing thrown is one that
    is still running. *)
Fixpoint playNextSegment (fuel : nat) (j : Job) : Job :=
  match fuel with
  | O => j
  | S fuel' =>
      if attached bgm && Qle_bool totalDuration (accumulatedTime j) then finish j
      else if negb (attached bgm) && (List.length segs <=? currentSegmentIndex j)%nat
      then finish j
      else
        let segment := nth_error segs (currentSegmentIndex j mod List.length segs) in
        let j := setActiveSegment segment j in
        let j := setExportProgress (Math_round (progressOf j)) j in
        match segment with
        | None => throw "TypeError: segment is undefined" j
        | Some segment =>
            let j := awaitSegment segment j in
            if isFinished j then j else playNextSegment fuel' j
        end
  end.

(** The body of [playNextSegment] past its two guards. *)
Definition playSegment (segment : VideoFile) (j : Job) : Job :=
  awaitSegment segment
    (setExportProgress (Math_round (progressOf j))
       (setActiveSegment (Some segment) j)).

(** The guards of [playNextSegment] let the call through. *)
Definition guardsOpen (j : Job) : Prop :=
  (attached bgm = true -> accumulatedTime j < totalDuration) /\
  (attached bgm = false -> (currentSegmentIndex j < List.length segs)%nat).

(** One of the guards of [playNextSegment] stops the loop. *)
Definition guardsShut (j : Job) : Prop :=
  (attached bgm = true -> totalDuration <= accumulatedTime j) /\
  (attached bgm = false -> (List.length segs <= currentSegmentIndex j)%nat).

End ExportLoop.

(** *** Runs under a target *)

(** A run under the target [D]: started below it, stopped less than one
    period of the timer past it; when forced, stopped with the target
    reached and its own end not; when not forced, played to its end. *)
Definition runWithin (D : Q) (r : Run) : Prop :=
  run_start r < D /\
  run_start r + run_played r < D + 0.1 /\
  (run_forced r = true ->
     D <= run_start r + run_played r /\ run_played r < run_duration r) /\
  (run_forced r = false -> run_played r = run_duration r).

Definition unforced (r : Run) : Prop := run_forced r = false.

(** What holds of a job bound to a track of duration [D] at every call of
    the loop. *)
Definition trackInvariant (D : Q) (j : Job) : Prop :=
  Forall (runWithin D) (runs j) /\
  Forall unforced (removelast (runs j)) /\
  (accumulatedTime j < D -> Forall unforced (runs j)) /\
  (isFinished j = true -> D <= accumulatedTime j).

(** A progress value is a percentage. *)
Definition percentage (p : Z) : Prop := (0 <= p <= 100)%Z.

(** What holds of the progress updates of a job at every call of the
    loop. *)
Definition progressInvariant (bgm : option BgmFile) (D : Q) (segs : list VideoFile)
    (j : Job) : Prop :=
  0 <= accumulatedTime j /\
  Forall percentage (progressUpdates j) /\
  StronglySorted Z.le (progressUpdates j) /\
  (guardsOpen bgm D segs j ->
   Forall (fun p => (p <= Math_round (progressOf bgm D segs j))%Z) (progressUpdates j)).

(** *** Reading an environment *)

(** The attempt at index [i] loads and plays. *)
Definition playsAt (env : Env) (i : nat) : bool :=
  match segmentEvent env i with
  | Plays _ => true
  | _ => false
  end.

(** What the attempt at index [i] writes to the console. *)
Definition logAt (segs : list VideoFile) (env : Env) (i : nat) : list LogEntry :=
  match nth_error segs (i mod List.length segs) with
  | None => []
  | Some segment =>
      match segmentEvent env i with
      | LoadTimeout => [VideoLoadTimeout (video_name segment)]
      | PlayRejected => [PlayError]
      | MediaError _ => [ErrorPlaying (video_name segment)]
      | Plays _ => []
      end
  end.

(** The progress shown for segment [i] of [n] when no track is attached. *)
Definition tracklessProgress (n i : nat) : Z :=
  Math_round (Qmin 100 (Double.mul
                          (Double.div (inject_Z (Z.of_nat i)) (inject_Z (Z.of_nat n)))
                          100)).

(** *** Application state *)

Record BatchStatus : Type := mkBatchStatus {
  current : nat;
  total : nat;
  active : bool
}.

Record AppState : Type := mkAppState {
  bgm : option BgmFile;
  results : list Composition;
  selectedIds : list string;
  isExporting : bool;
  exportProgress : Z;
  batchStatus : BatchStatus
}.

Definition setIsExporting (b : bool) (st : AppState) : AppState :=
  {| bgm := bgm st; results := results st; selectedIds := selectedIds st;
     isExporting := b; exportProgress := exportProgress st;
     batchStatus := batchStatus st |}.

Definition setProgress (p : Z) (st : AppState) : AppState :=
  {| bgm := bgm st; results := results st; selectedIds := selectedIds st;
     isExporting := isExporting st; exportProgress := p;
     batchStatus := batchStatus st |}.

Definition setBatchStatus (b : BatchStatus) (st : AppState) : AppState :=
  {| bgm := bgm st; results := results st; selectedIds := selectedIds st;
     isExporting := isExporting st; exportProgress := exportProgress st;
     batchStatus := b |}.

(** *** One export *)

Record File : Type := mkFile {
  chunks : list Z;
  mimeType : string;
  ext : string
}.

Inductive Completion : Type :=
| Rejected                 (* returned at the guard *)
| Pending                  (* the segment loop is still running *)
| Downloaded (f : File)
| Failed (error : string).

Record Outcome : Type := mkOutcome {
  app : AppState;
  completion : Completion;
  (* every [setExportProgress] of the call, oldest first *)
  progressLog : list Z;
  consoleLog : list LogEntry;
  alerts : list Alert;
  job : option Job
}.

Definition noDataRecorded : string := "No video data recorded (chunks empty)".

(** The track buffer (present or not), [totalDuration], and what is
    logged on the way. *)
Definition prepareBgm (env : Env) (b : option BgmFile) : bool * Q * list LogEntry :=
  match b with
  | Some f =>
      if bgmDecodes env then (true, duration f, [])
      else (false, 9999, [FailedToLoadBgm])
  | None => (false, 999999, [])
  end.

Definition chooseMimeType (env : Env) : string :=
  if isTypeSupported env "video/mp4" then "video/mp4"
  else if isTypeSupported env "video/webm;codecs=h264" then "video/webm;codecs=h264"
  else "video/webm".

Fixpoint includes (needle s : string) : bool :=
  if String.prefix needle s then true
  else match s with
       | EmptyString => false
       | String _ rest => includes needle rest
       end.

(** [ondataavailable] keeps the blobs of positive size. *)
Definition collect (env : Env) : list Z :=
  filter (fun size => (0 <? size)%Z) (dataavailable env).

Definition rejected (st : AppState) : Outcome :=
  {| app := st; completion := Rejected; progressLog := []; consoleLog := [];
     alerts := []; job := None |}.

Definition handleExport (fuel : nat) (env : Env) (composition : Composition)
    (isBatch : bool) (st : AppState) : Outcome :=
  if isExporting st && negb isBatch then rejected st
  else
    let st := if negb isBatch then setIsExporting true st else st in
    let st := setProgress 0 st in
    let '(_, totalDuration, bgmLog) := prepareBgm env (bgm st) in
    let mime := chooseMimeType env in
    let j := playNextSegment (bgm st) totalDuration (segments composition) env fuel newJob in
    match thrown j, isFinished j with
    | None, false =>
        {| app := setProgress (last (progressUpdates j) 0%Z) st;
           completion := Pending;
           progressLog := 0%Z :: progressUpdates j;
           consoleLog := bgmLog ++ console j;
           alerts := []; job := Some j |}
    | _, _ =>
        let result :=
          match thrown j with
          | Some e => Failed e
          | None =>
              match collect env with
              | [] => Failed noDataRecorded
              | cs => Downloaded {| chunks := cs; mimeType := mime;
                                    ext := if includes "webm" mime then "webm" else "mp4" |}
              end
          end in
        let failure := match result with Failed e => [e] | _ => [] end in
        let st := if negb isBatch then setIsExporting false st else st in
        {| app := setProgress 0 st;
           completion := result;
           progressLog := 0%Z :: progressUpdates j ++ [0%Z];
           consoleLog := bgmLog ++ console j ++ map ExportFailed failure;
           alerts := if negb isBatch
                     then map (AlertExportFailed (comp_name composition)) failure
                     else [];
           job := Some j |}
    end.

(** *** Batch export *)

Definition targetsOf (st : AppState) : list Composition :=
  filter (fun r => existsb (String.eqb (comp_id r)) (selectedIds st)) (results st).

(** The [for] loop over the targets; it stops short only when a job is
    still running. [handleExport] catches what it throws, so the [catch]
    of the loop is never entered. *)
Fixpoint batchLoop (fuel : nat) (envs : nat -> Env) (i : nat)
    (targets : list Composition) (st : AppState) (done : list Outcome)
    : AppState * list Outcome * bool :=
  match targets with
  | [] => (st, done, true)
  | t :: rest =>
      let st := setBatchStatus {| current := i + 1; total := total (batchStatus st);
                                  active := active (batchStatus st) |} st in
      let o := handleExport fuel (envs i) t true st in
      match completion o with
      | Pending => (app o, done ++ [o], false)
      | _ => batchLoop fuel envs (S i) rest (app o) (done ++ [o])
      end
  end.

Record BatchOutcome : Type := mkBatchOutcome {
  batch_app : AppState;
  batch_started : bool;
  batch_jobs : list Outcome;
  batch_alerts : list Alert
}.

Definition handleBatchExport (fuel : nat) (envs : nat -> Env) (st : AppState)
    : BatchOutcome :=
  let targets := targetsOf st in
  match targets with
  | [] => {| batch_app := st; batch_started := false; batch_jobs := [];
             batch_alerts := [AlertSelectFirst] |}
  | _ :: _ =>
      if isExporting st || active (batchStatus st)
      then {| batch_app := st; batch_started := false; batch_jobs := [];
              batch_alerts := [] |}
      else
        let st := setBatchStatus {| current := 0; total := List.length targets;
                                    active := true |} st in
        let '(st, jobs, complete) := batchLoop fuel envs 0 targets st [] in
        if complete
        then {| batch_app := setBatchStatus {| current := 0; total := 0; active := false |} st;
                batch_started := true; batch_jobs := jobs;
                batch_alerts := [AlertBatchDone] |}
        else {| batch_app := st; batch_started := true; batch_jobs := jobs;
                batch_alerts := [] |}
  end.

(** *** The two export buttons *)

Definition exportButtonDisabled (st : AppState) : bool :=
  isExporting st || active (batchStatus st).

Definition batchButtonDisabled (st : AppState) : bool :=
  isExporting st || active (batchStatus st) || (List.length (selectedIds st) =? 0)%nat.

Inductive Request : Type :=
| ExportClicked (composition : Composition)
| BatchExportClicked.

(** An export pipeline is running: a single export holds [isExporting],
    a batch holds [batchStatus.active]. *)
Definition pipelineActive (st : AppState) : bool :=
  isExporting st || active (batchStatus st).

(** A click reaches the handler only when the button is enabled. The
    result is the state the click leaves, whether a pipeline was started,
    and the progress updates it caused. *)
Definition request (fuel : nat) (envs : nat -> Env) (r : Request) (st : AppState)
    : AppState * bool * list Z :=
  match r with
  | ExportClicked composition =>
      if exportButtonDisabled st then (st, false, [])
      else
        let o := handleExport fuel (envs 0%nat) composition false st in
        (app o, match completion o with Rejected => false | _ => true end, progressLog o)
  | BatchExportClicked =>
      if batchButtonDisabled st then (st, false, [])
      else
        let o := handleBatchExport fuel envs st in
        (batch_app o, batch_started o, List.concat (map progressLog (batch_jobs o)))
  end.

End Main.

(** ** What a drawing operation shows

    The fields of the context that decide the look of each operation; the
    draw order of the compositor is stated over these. *)

Module Look.
Import Canvas.
Local Open Scope Q_scope.

Inductive Drawn : Type :=
| Image (dx dy dw dh : Q)
| Background (rx ry rw rh : Q) (fill : string) (shadowCol : string) (shadowBl : Q)
| Outline (line : string) (tx ty px : Q) (strokeW : Q) (strokeCol : string)
          (shadowCol : string) (shadowBl : Q)
| Glyphs (line : string) (tx ty px : Q) (fill : string)
         (shadowCol : string) (shadowBl : Q).

Definition drawn (op : DrawOp) : Drawn :=
  match op with
  | DrawImage dx dy dw dh _ => Image dx dy dw dh
  | FillRect rx ry rw rh c =>
      Background rx ry rw rh (fillStyle c) (ctx_shadowColor c) (ctx_shadowBlur c)
  | StrokeText l tx ty c =>
      Outline l tx ty (font_px c) (lineWidth c) (strokeStyle c)
              (ctx_shadowColor c) (ctx_shadowBlur c)
  | FillText l tx ty c =>
      Glyphs l tx ty (font_px c) (fillStyle c) (ctx_shadowColor c) (ctx_shadowBlur c)
  end.

(** The shadow the glyphs are drawn with: the configured one when both
    blur and colour are truthy, none otherwise. *)
Definition glyphShadow (o : OverlayConfig) : string * Q :=
  if truthy_num (shadowBlur o) && truthy_str (shadowColor o)
  then (str_or (shadowColor o) "", num_or (shadowBlur o) 0)
  else ("transparent"%string, 0).

(** Draw order of the text, following the specification: per line an
    outline when [outlined], then the filled glyphs, the next line one
    [lineHeight] further down. *)
Fixpoint textOrder (outlined : bool) (o : OverlayConfig) (xPos lineHeight : Q)
    (ls : list string) (lineY : Q) : list Drawn :=
  match ls with
  | [] => []
  | l :: rest =>
      (if outlined
       then [Outline l xPos lineY (fontSize o) (num_or (strokeWidth o) 0)
                     (str_or (strokeColor o) "")
                     (fst (glyphShadow o)) (snd (glyphShadow o))]
       else [])
      ++ Glyphs l xPos lineY (fontSize o) (color o)
                (fst (glyphShadow o)) (snd (glyphShadow o))
      :: textOrder outlined o xPos lineHeight rest (lineY + lineHeight)
  end.

(** Draw order of the whole overlay, following the specification:
    background rectangle when [boxed], then the text. The rectangle is
    drawn under the shadow in force before the overlay. *)
Definition overlayOrder (boxed outlined : bool) (o : OverlayConfig)
    (b : Compositor.Box) (before : Context2D) : list Drawn :=
  (if boxed
   then [Background (Compositor.boxX b) (Compositor.boxY b)
                    (Compositor.boxWidth b) (Compositor.boxHeight b)
                    (str_or (bgColor o) "")
                    (ctx_shadowColor before) (ctx_shadowBlur before)]
   else [])
  ++ textOrder outlined o (Compositor.xPos b) (Compositor.lineHeight b)
       (Compositor.lines b)
       (Compositor.boxY b + Compositor.pad b + (Compositor.lineHeight b / 2)).

(** Font and shadow agree between two contexts. *)
Definition sameSetting (c c' : Context2D) : Prop :=
  font_px c' = font_px c /\ ctx_shadowColor c' = ctx_shadowColor c /\
  ctx_shadowBlur c' = ctx_shadowBlur c.

(** A background rectangle drawn without any shadow. *)
Definition unshadowedBackground (d : Drawn) : Prop :=
  match d with
  | Background _ _ _ _ _ shadowCol shadowBl =>
      shadowCol = "rgba(0, 0, 0, 0)"%string /\ shadowBl = 0
  | _ => True
  end.

(** A sequence of ticks of the draw timer, oldest first. *)
Definition drawFrames (measureText : Q -> string -> Q)
    (ticks : list (bool * option VideoFile * Compositor.Frame)) (s : Surface) : Surface :=
  fold_left (fun s '(isFinished, activeSegment, f) =>
               Compositor.drawFrame measureText isFinished activeSegment f s) ticks s.

(** A length in [cqw] on a container [W] wide. *)
Definition cqw (W v : Q) : Q := v * W / 100.

Definition isOutline (d : Drawn) : bool :=
  match d with Outline _ _ _ _ _ _ _ _ => true | _ => false end.

Definition isBackground (d : Drawn) : bool :=
  match d with Background _ _ _ _ _ _ _ => true | _ => false end.

End Look.

(** ** Sample inputs *)

Module Samples.
Local Open Scope Q_scope.

Definition sampleSegment (n : string) : VideoFile :=
  {| video_id := n; video_name := n; video_url := n; video_type := "video/mp4";
     overlay := None |}.

Definition threeSegments : list VideoFile :=
  [sampleSegment "a"; sampleSegment "b"; sampleSegment "c"].

Definition blankEl : SeamlessPlayer.MediaEl :=
  {| SeamlessPlayer.src := None; SeamlessPlayer.paused := true;
     SeamlessPlayer.currentTime := 0 |}.

(** The state in which a three-segment composition starts to play. *)
Definition playingFromStart : SeamlessPlayer.State :=
  SeamlessPlayer.togglePlay None true
    (SeamlessPlayer.mount threeSegments None
       {| SeamlessPlayer.currentIndex := 0;
          SeamlessPlayer.activePlayerId := SeamlessPlayer.P1;
          SeamlessPlayer.isPlaying := false;
          SeamlessPlayer.videoRef1 := blankEl;
          SeamlessPlayer.videoRef2 := blankEl;
          SeamlessPlayer.audioRef := blankEl |}).

(** A font in which every character is half as wide as the font size. *)
Definition halfEm (px : Q) (line : string) : Q :=
  px * 0.5 * inject_Z (Z.of_nat (String.length line)).

(** An outline width without an outline colour. *)
Definition strokeNoColor : OverlayConfig :=
  {| text := "title"; x := 50; y := 50; fontSize := 40; color := "#ffffff";
     strokeWidth := Some 3; strokeColor := None;
     shadowBlur := None; shadowColor := None;
     bgColor := None; bgPadding := None |}.

(** A shadow blur without a shadow colour. *)
Definition blurNoColor : OverlayConfig :=
  {| text := "title"; x := 50; y := 50; fontSize := 40; color := "#ffffff";
     strokeWidth := None; strokeColor := None;
     shadowBlur := Some 10; shadowColor := None;
     bgColor := None; bgPadding := None |}.

(** Two lines, boxed, outlined and shadowed. *)
Definition fullOverlay : OverlayConfig :=
  {| text := String "a" (String "b" (String "010" (String "c" EmptyString)));
     x := 50; y := 25; fontSize := 40; color := "#ffffff";
     strokeWidth := Some 2; strokeColor := Some "#000000"%string;
     shadowBlur := Some 4; shadowColor := Some "#333333"%string;
     bgColor := Some "#112233"%string; bgPadding := Some 20 |}.

Definition sampleComposition (segs : list VideoFile) : Composition :=
  {| comp_id := "c1"; comp_name := "mix 1"; segments := segs; createdAt := 0%Z;
     aiTitle := None; aiDescription := None |}.

Definition sampleTrack (d : Q) : BgmFile :=
  {| bgm_id := "t1"; bgm_name := "track"; bgm_url := "blob:track"; duration := d |}.

(** A recorder that delivers one blob of 4096 bytes, a browser that
    supports mp4. *)
Definition sampleEnv (decodes : bool) (ev : nat -> Main.SegmentEvent) : Main.Env :=
  {| Main.bgmDecodes := decodes; Main.segmentEvent := ev;
     Main.dataavailable := [4096%Z]; Main.isTypeSupported := fun _ => true |}.

(** A recorder that captured nothing. *)
Definition silentEnv (ev : nat -> Main.SegmentEvent) : Main.Env :=
  {| Main.bgmDecodes := true; Main.segmentEvent := ev;
     Main.dataavailable := [0%Z]; Main.isTypeSupported := fun _ => true |}.

(** No pipeline running. *)
Definition idleApp (b : option BgmFile) : Main.AppState :=
  {| Main.bgm := b; Main.results := [sampleComposition threeSegments];
     Main.selectedIds := ["c1"%string];
     Main.isExporting := false; Main.exportProgress := 0%Z;
     Main.batchStatus := {| Main.current := 0; Main.total := 0; Main.active := false |} |}.

(** A batch of one composition under way. *)
Definition batchRunning : Main.AppState :=
  {| Main.bgm := None; Main.results := [sampleComposition threeSegments];
     Main.selectedIds := ["c1"%string];
     Main.isExporting := false; Main.exportProgress := 33%Z;
     Main.batchStatus := {| Main.current := 1; Main.total := 1; Main.active := true |} |}.

(** A single export under way. *)
Definition singleRunning : Main.AppState :=
  {| Main.bgm := None; Main.results := [sampleComposition threeSegments];
     Main.selectedIds := ["c1"%string];
     Main.isExporting := true; Main.exportProgress := 67%Z;
     Main.batchStatus := {| Main.current := 0; Main.total := 0; Main.active := false |} |}.

(** Every attempt loads and plays a clip of [d] seconds. *)
Definition alwaysPlays (d : Q) : nat -> Main.SegmentEvent := fun _ => Main.Plays d.

(** The segment at position [k] never loads, the others play [d] seconds. *)
Definition timesOutAt (n k : nat) (d : Q) : nat -> Main.SegmentEvent :=
  fun i => if (i mod n =? k)%nat then Main.LoadTimeout else Main.Plays d.

Definition oneSegment : list VideoFile := [sampleSegment "a"].

(** One 7 s clip under a 10.05 s track that decodes, after three calls of
    the loop. *)
Definition sevenUnderTen : Main.Job :=
  Main.playNextSegment (Some (sampleTrack 10.05)) 10.05 oneSegment
    (sampleEnv true (alwaysPlays 7)) 3 Main.newJob.


(** One 10 s clip under a 30 s track that fails to decode, after 1001
    calls of the loop. *)
Definition undecodedRun : Main.Outcome :=
  Main.handleExport 1001 (sampleEnv false (alwaysPlays 10))
    (sampleComposition oneSegment) false (idleApp (Some (sampleTrack 30))).

End Samples.

(** ** Totals over the runs of a job *)

Module Accounting.
Import Main.
Local Open Scope Q_scope.

Definition sumQ (l : list Q) : Q := fold_right Qplus 0 l.

(** The natural durations of the clips that were played. *)
Definition totalDurations (j : Job) : Q := sumQ (map run_duration (runs j)).

(** No attempt leaves the recorder running: [play()] is never rejected and
    no error comes after [loadeddata]. *)
Definition recorderReleased (env : Env) : Prop :=
  forall i, segmentEvent env i <> PlayRejected /\ segmentEvent env i <> MediaError true.

(** A run played to its natural end. *)
Definition playedOut (r : Run) : Prop :=
  run_forced r = false /\ run_played r = run_duration r.

End Accounting.

(** ** What a batch job ends with *)

Module BatchResult.
Import Main.

(** The completion of a job of a batch that ran to its end, as the
    recorder of that job decides it. *)
Definition batchCompletion (env : Env) : Completion :=
  match collect env with
  | [] => Failed noDataRecorded
  | cs => Downloaded {| chunks := cs; mimeType := chooseMimeType env;
                        ext := if includes "webm" (chooseMimeType env)
                               then "webm" else "mp4" |}
  end.

(** The application state a finished batch leaves behind. *)
Definition afterBatch (st : AppState) : AppState :=
  {| bgm := bgm st; results := results st; selectedIds := selectedIds st;
     isExporting := isExporting st; exportProgress := 0%Z;
     batchStatus := {| current := 0; total := 0; active := false |} |}.

End BatchResult.

(** ** The preview component as an event machine *)

Module Preview.
Import SeamlessPlayer.

(** [id === 1 ? videoRef1.current : videoRef2.current] *)
Definition slot (p : PlayerId) (st : State) : MediaEl :=
  match p with P1 => videoRef1 st | P2 => videoRef2 st end.

(** The slot on show, the [activeVideo] of [togglePlay]. *)
Definition activeVideo (st : State) : MediaEl := slot (activePlayerId st) st.

(** The hidden slot. *)
Definition inactivePlayer (st : State) : MediaEl := slot (other (activePlayerId st)) st.

(** The events the rendered elements are bound to: [onEnded] of the two
    video slots, [onEnded] of the audio element, and a click on a slot or
    on the button, with the answer of [play()] on the active slot. *)
Inductive Event : Type :=
| VideoEnded
| AudioEnded
| Click (playOk : bool).

Definition dispatch (segs : list VideoFile) (bgm : option BgmFile) (st : State)
    (e : Event) : State :=
  match e with
  | VideoEnded => handleVideoEnded segs bgm st
  | AudioEnded => handleAudioEnded segs bgm st
  | Click playOk => togglePlay bgm playOk st
  end.

(** The component after the mount effect and a sequence of events. *)
Definition runEvents (segs : list VideoFile) (bgm : option BgmFile) (st0 : State)
    (es : list Event) : State :=
  fold_left (dispatch segs bgm) es (mount segs bgm st0).

Definition isVideoEnded (e : Event) : bool :=
  match e with VideoEnded => true | _ => false end.

Definition isAudioEnded (e : Event) : bool :=
  match e with AudioEnded => true | _ => false end.

Definition isRejectedClick (e : Event) : bool :=
  match e with Click false => true | _ => false end.

Definition isClick (e : Event) : bool :=
  match e with Click _ => true | _ => false end.

(** How many segments have played to their end. *)
Definition endings (es : list Event) : nat := List.length (filter isVideoEnded es).

End Preview.

(** ** The editing handlers of [Main]

    Folders of clips, the timeline (a list of folder ids), the generated
    compositions and the selection. Random numbers, object identifiers and
    the clock are collaborators: an environment hands them out. *)

From Stdlib Require Import DecimalString Permutation.

Record SourceFolder : Type := mkSourceFolder {
  folder_id : string;
  folder_name : string;
  files : list VideoFile;
  folder_color : string
}.

Module Workspace.
Import Main.
Local Open Scope string_scope.

Definition FOLDER_COLORS : list string :=
  ["border-emerald-500"; "border-blue-500"; "border-purple-500";
   "border-rose-500"; "border-amber-500"; "border-cyan-500"].

(** The state of the component that the editing handlers read and write;
    [shared] is the part the export handlers use too (track, results,
    selection). A [Set] of strings is a list without repetition in the
    order of insertion. [generationCount] comes from [parseInt]: [None]
    is [NaN]. *)
Record State : Type := mkState {
  folders : list SourceFolder;
  sequence : list string;
  generationCount : option Z;
  activeComposition : option Composition;
  isGenerating : bool;
  isAiProcessing : bool;
  editingFolder : option SourceFolder;
  tempOverlay : OverlayConfig;
  shared : AppState
}.

Definition setFolders (v : list SourceFolder) (st : State) : State :=
  {| folders := v; sequence := sequence st; generationCount := generationCount st;
     activeComposition := activeComposition st; isGenerating := isGenerating st;
     isAiProcessing := isAiProcessing st; editingFolder := editingFolder st;
     tempOverlay := tempOverlay st; shared := shared st |}.

Definition setSequence (v : list string) (st : State) : State :=
  {| folders := folders st; sequence := v; generationCount := generationCount st;
     activeComposition := activeComposition st; isGenerating := isGenerating st;
     isAiProcessing := isAiProcessing st; editingFolder := editingFolder st;
     tempOverlay := tempOverlay st; shared := shared st |}.

Definition setActiveComposition (v : option Composition) (st : State) : State :=
  {| folders := folders st; sequence := sequence st; generationCount := generationCount st;
     activeComposition := v; isGenerating := isGenerating st;
     isAiProcessing := isAiProcessing st; editingFolder := editingFolder st;
     tempOverlay := tempOverlay st; shared := shared st |}.

Definition setIsGenerating (v : bool) (st : State) : State :=
  {| folders := folders st; sequence := sequence st; generationCount := generationCount st;
     activeComposition := activeComposition st; isGenerating := v;
     isAiProcessing := isAiProcessing st; editingFolder := editingFolder st;
     tempOverlay := tempOverlay st; shared := shared st |}.

Definition setIsAiProcessing (v : bool) (st : State) : State :=
  {| folders := folders st; sequence := sequence st; generationCount := generationCount st;
     activeComposition := activeComposition st; isGenerating := isGenerating st;
     isAiProcessing := v; editingFolder := editingFolder st;
     tempOverlay := tempOverlay st; shared := shared st |}.

Definition setEditingFolder (v : option SourceFolder) (st : State) : State :=
  {| folders := folders st; sequence := sequence st; generationCount := generationCount st;
     activeComposition := activeComposition st; isGenerating := isGenerating st;
     isAiProcessing := isAiProcessing st; editingFolder := v;
     tempOverlay := tempOverlay st; shared := shared st |}.

Definition setTempOverlay (v : OverlayConfig) (st : State) : State :=
  {| folders := folders st; sequence := sequence st; generationCount := generationCount st;
     activeComposition := activeComposition st; isGenerating := isGenerating st;
     isAiProcessing := isAiProcessing st; editingFolder := editingFolder st;
     tempOverlay := v; shared := shared st |}.

Definition setShared (v : AppState) (st : State) : State :=
  {| folders := folders st; sequence := sequence st; generationCount := generationCount st;
     activeComposition := activeComposition st; isGenerating := isGenerating st;
     isAiProcessing := isAiProcessing st; editingFolder := editingFolder st;
     tempOverlay := tempOverlay st; shared := v |}.

Definition setResults (v : list Composition) (st : State) : State :=
  setShared {| bgm := bgm (shared st); results := v;
               selectedIds := selectedIds (shared st);
               isExporting := isExporting (shared st);
               exportProgress := exportProgress (shared st);
               batchStatus := batchStatus (shared st) |} st.

Definition setSelectedIds (v : list string) (st : State) : State :=
  setShared {| bgm := bgm (shared st); results := results (shared st);
               selectedIds := v;
               isExporting := isExporting (shared st);
               exportProgress := exportProgress (shared st);
               batchStatus := batchStatus (shared st) |} st.

(** *** Folders *)

Definition getFolderById (id : string) (st : State) : option SourceFolder :=
  find (fun f => folder_id f =? id) (folders st).

Definition removeFolder (id : string) (st : State) : State :=
  let st := setFolders (filter (fun f => negb (folder_id f =? id)) (folders st)) st in
  setSequence (filter (fun fid => negb (fid =? id)) (sequence st)) st.

(** *** The overlay editor *)

Definition openOverlayEditor (folder : SourceFolder) (st : State) : State :=
  let st := setEditingFolder (Some folder) st in
  let existingOverlay :=
    match files folder with
    | f :: _ => overlay f
    | [] => None
    end in
  setTempOverlay (match existingOverlay with
                  | Some o => o
                  | None => DEFAULT_OVERLAY
                  end) st.

(** [{ ...file, overlay: o }], and [file] without its overlay for [None]. *)
Definition withOverlay (o : option OverlayConfig) (file : VideoFile) : VideoFile :=
  {| video_id := video_id file; video_name := video_name file;
     video_url := video_url file; video_type := video_type file; overlay := o |}.

Definition withFiles (fs : list VideoFile) (f : SourceFolder) : SourceFolder :=
  {| folder_id := folder_id f; folder_name := folder_name f; files := fs;
     folder_color := folder_color f |}.

Definition withSegments (segs : list VideoFile) (comp : Composition) : Composition :=
  {| comp_id := comp_id comp; comp_name := comp_name comp; segments := segs;
     createdAt := createdAt comp; aiTitle := aiTitle comp;
     aiDescription := aiDescription comp |}.

(** [fileIdsInFolder.has(id)] *)
Definition has (ids : list string) (id : string) : bool := existsb (String.eqb id) ids.

(** What [saveOverlay] and [removeOverlayFromFolder] share: the folder of
    the editor, the results and the composition on show are rewritten, the
    editor is closed. *)
Definition rewriteOverlay (o : option OverlayConfig) (st : State) : State :=
  match editingFolder st with
  | None => st
  | Some editing =>
      let folderId := folder_id editing in
      let fileIdsInFolder := map video_id (files editing) in
      let onSegments (segs : list VideoFile) :=
        map (fun seg => if has fileIdsInFolder (video_id seg) then withOverlay o seg
                        else seg) segs in
      let st := setFolders
                  (map (fun f => if folder_id f =? folderId
                                 then withFiles (map (withOverlay o) (files f)) f
                                 else f) (folders st)) st in
      let st := setResults
                  (map (fun comp => withSegments (onSegments (segments comp)) comp)
                       (results (shared st))) st in
      let st := match activeComposition st with
                | Some prev =>
                    setActiveComposition
                      (Some (withSegments (onSegments (segments prev)) prev)) st
                | None => st
                end in
      setEditingFolder None st
  end.

Definition saveOverlay (st : State) : State := rewriteOverlay (Some (tempOverlay st)) st.

Definition removeOverlayFromFolder (st : State) : State := rewriteOverlay None st.

(** *** The timeline *)

Inductive Direction : Type := up | down.

(** [a[k] = v] inside the array. *)
Fixpoint assign (a : list string) (k : nat) (v : string) : list string :=
  match a, k with
  | [], _ => []
  | _ :: rest, O => v :: rest
  | x :: rest, S k => x :: assign rest k v
  end.

(** [[a[i], a[j]] = [a[j], a[i]]]. An index outside the array reads
    [undefined] and the assignment writes it into the array, which is then
    no array of strings any more: [None]. *)
Definition swap (a : list string) (i j : nat) : option (list string) :=
  match nth_error a i, nth_error a j with
  | Some ai, Some aj => Some (assign (assign a i aj) j ai)
  | _, _ => None
  end.

(** The index is the position of a rendered timeline entry, a natural
    number. *)
Definition moveSequenceItem (index : nat) (direction : Direction) (st : State)
    : option State :=
  let newSeq := sequence st in
  let moved :=
    match direction with
    | up =>
        if (0 <? index)%nat then swap newSeq index (index - 1)
        else Some newSeq
    | down =>
        (* [index < newSeq.length - 1], over the integers *)
        if (Z.of_nat index <? Z.of_nat (List.length newSeq) - 1)%Z
        then swap newSeq index (index + 1)
        else Some newSeq
    end in
  option_map (fun s => setSequence s st) moved.

(** [splice(index, 1)] *)
Definition removeFromSequence (index : nat) (st : State) : State :=
  setSequence (firstn index (sequence st) ++ skipn (S index) (sequence st)) st.

Definition addToSequence (folderId : string) (st : State) : State :=
  setSequence (sequence st ++ [folderId]) st.

(** *** Generation *)

(** [random k] is the answer of the k-th call of [Math.random] in a
    generation, [idOf] the rendering [toString(36).substring(7)], [now i]
    the clock when composition [i] is built. *)
Record GenEnv : Type := mkGenEnv {
  random : nat -> Q;
  idOf : Q -> string;
  now : nat -> Z
}.

Inductive GenAlert : Type := AlertConfigureTimeline.

(** [a[z]] for an integral number [z]. *)
Definition at_ {A : Type} (a : list A) (z : Z) : option A :=
  if (z <? 0)%Z then None else nth_error a (Z.to_nat z).

(** The inner loop over the timeline. [n] counts the calls of
    [Math.random] so far. The outer [None]: a pick was [undefined] (the
    random number was outside [0, 1)); the inner one: [isValid] is false. *)
Fixpoint pickSegments (env : GenEnv) (fs : list SourceFolder) (seq : list string)
    (n : nat) (segs : list VideoFile) : option (nat * option (list VideoFile)) :=
  match seq with
  | [] => Some (n, Some segs)
  | folderId :: rest =>
      match find (fun f => folder_id f =? folderId) fs with
      | None => Some (n, None)
      | Some folder =>
          match files folder with
          | [] => Some (n, None)
          | _ :: _ =>
              let k := Qfloor (random env n
                               * inject_Z (Z.of_nat (List.length (files folder)))) in
              match at_ (files folder) k with
              | None => None
              | Some randomFile => pickSegments env fs rest (S n) (segs ++ [randomFile])
              end
          end
      end
  end.

Definition showNat (n : nat) : string := NilEmpty.string_of_uint (Nat.to_uint n).

(** The outer loop, [count] rounds from [i] on. *)
Fixpoint generateLoop (env : GenEnv) (fs : list SourceFolder) (seq : list string)
    (resultsLength : nat) (count i n : nat) (newCompositions : list Composition)
    : option (list Composition) :=
  match count with
  | O => Some newCompositions
  | S count =>
      match pickSegments env fs seq n [] with
      | None => None
      | Some (n, None) =>
          generateLoop env fs seq resultsLength count (S i) n newCompositions
      | Some (n, Some segs) =>
          generateLoop env fs seq resultsLength count (S i) (S n)
            (newCompositions ++
             [{| comp_id := idOf env (random env n);
                 comp_name := "混剪作品 #" ++ showNat (resultsLength + i + 1);
                 segments := segs;
                 createdAt := now env i;
                 aiTitle := None;
                 aiDescription := None |}])
      end
  end.

(** The number of rounds of [for (let i = 0; i < generationCount; i++)]. *)
Definition rounds (generationCount : option Z) : nat :=
  match generationCount with
  | Some z => Z.to_nat z
  | None => 0
  end.

(** The synchronous part of [generateCompositions]: an alert, or the
    state in which the timer is armed. *)
Definition generateCompositions (st : State) : State * list GenAlert :=
  match sequence st with
  | [] => (st, [AlertConfigureTimeline])
  | _ :: _ => (setIsGenerating true st, [])
  end.

(** The callback of the timer, 800 ms later. It reads the timeline, the
    folders, the count and the number of results of the render that armed
    it ([armed]) and updates the state of the moment ([st]). *)
Definition generateTimer (env : GenEnv) (armed st : State) : option State :=
  match generateLoop env (folders armed) (sequence armed)
          (List.length (results (shared armed)))
          (rounds (generationCount armed)) 0 0 [] with
  | None => None
  | Some newCompositions =>
      let st := setResults (newCompositions ++ results (shared st)) st in
      let st := setIsGenerating false st in
      Some (match newCompositions with
            | first :: _ => setActiveComposition (Some first) st
            | [] => st
            end)
  end.

(** *** Titles from the model *)

Definition withMetadata (title description : string) (c : Composition) : Composition :=
  {| comp_id := comp_id c; comp_name := comp_name c; segments := segments c;
     createdAt := createdAt c; aiTitle := Some title;
     aiDescription := Some description |}.

(** [handleAiAnalysis] up to its [await]. *)
Definition handleAiAnalysis_request (composition : Composition) (st : State)
    : State * list string :=
  (setIsAiProcessing true st, map video_name (segments composition)).

(** [handleAiAnalysis] from its [await] on, with the metadata the service
    answered. [called] is the state of the render that called the handler:
    the test on the composition on show reads that one. *)
Definition handleAiAnalysis_answer (composition : Composition) (title description : string)
    (called st : State) : State :=
  let st := setResults
              (map (fun c => if comp_id c =? comp_id composition
                             then withMetadata title description c else c)
                   (results (shared st))) st in
  let st :=
    match activeComposition called with
    | Some a =>
        if comp_id a =? comp_id composition
        then setActiveComposition
               (option_map (withMetadata title description) (activeComposition st)) st
        else st
    | None => st
    end in
  setIsAiProcessing false st.

(** *** Selection *)

(** [set.add(id)] *)
Definition add (ids : list string) (id : string) : list string :=
  if has ids id then ids else ids ++ [id].

(** [set.delete(id)] *)
Definition delete (ids : list string) (id : string) : list string :=
  filter (fun x => negb (x =? id)) ids.

(** [new Set(array)] *)
Definition newSet (a : list string) : list string := fold_left add a [].

Definition toggleSelection (id : string) (st : State) : State :=
  let newSet := selectedIds (shared st) in
  setSelectedIds (if has newSet id then delete newSet id else add newSet id) st.

Definition toggleSelectAll (st : State) : State :=
  if (List.length (selectedIds (shared st)) =? List.length (results (shared st)))%nat
     && (0 <? List.length (results (shared st)))%nat
  then setSelectedIds [] st
  else setSelectedIds (newSet (map comp_id (results (shared st)))) st.

(** *** Upload of a directory *)

(** What the handler reads of a [File]. *)
Record FileInput : Type := mkFileInput {
  file_name : string;
  file_type : string;
  webkitRelativePath : string
}.

(** [s.split(sep)] for a separator of one character. *)
Fixpoint split (sep : ascii) (s : string) : list string :=
  match s with
  | EmptyString => [EmptyString]
  | String c rest =>
      if Ascii.eqb c sep then EmptyString :: split sep rest
      else match split sep rest with
           | [] => [String c EmptyString]
           | part :: parts => String c part :: parts
           end
  end.

(** The name of the directory the file lies in. *)
Definition folderNameOf (file : FileInput) : string :=
  let pathParts := split "/" (webkitRelativePath file) in
  if (1 <? List.length pathParts)%nat
  then nth (List.length pathParts - 2) pathParts ""
  else "Root".

(** [newFoldersMap]: a [Map] keeps its keys in the order of insertion. *)
Definition FolderMap : Type := list (string * list VideoFile).

Definition hasKey (m : FolderMap) (name : string) : bool :=
  existsb (fun e => fst e =? name) m.

(** [m.get(name)?.push(v)] *)
Definition push (name : string) (v : VideoFile) (m : FolderMap) : FolderMap :=
  map (fun e => if fst e =? name then (fst e, (snd e ++ [v])%list) else e) m.

(** The first loop; [n] counts the video files met so far. The n-th one
    takes the n-th random number for its id and the n-th object URL. *)
Fixpoint groupFiles (env : GenEnv) (createObjectURL : nat -> string)
    (fileList : list FileInput) (n : nat) (m : FolderMap) : nat * FolderMap :=
  match fileList with
  | [] => (n, m)
  | file :: rest =>
      if negb (prefix "video/" (file_type file))
      then groupFiles env createObjectURL rest n m
      else
        let folderName := folderNameOf file in
        let videoFile :=
          {| video_id := idOf env (random env n); video_name := file_name file;
             video_url := createObjectURL n; video_type := file_type file;
             overlay := None |} in
        let m := if hasKey m folderName then m else (m ++ [(folderName, [])])%list in
        groupFiles env createObjectURL rest (S n) (push folderName videoFile m)
  end.

(** The second loop, over the map. *)
Fixpoint buildFolders (env : GenEnv) (m : FolderMap) (colorIndex n : nat)
    : list SourceFolder :=
  match m with
  | [] => []
  | (name, fs) :: rest =>
      if (0 <? List.length fs)%nat
      then {| folder_id := idOf env (random env n);
              folder_name := name;
              files := fs;
              (* the index is below the length *)
              folder_color := nth (colorIndex mod List.length FOLDER_COLORS)
                                  FOLDER_COLORS "" |}
           :: buildFolders env rest (S colorIndex) (S n)
      else buildFolders env rest colorIndex n
  end.

Definition handleFolderUpload (env : GenEnv) (createObjectURL : nat -> string)
    (fileList : list FileInput) (st : State) : State :=
  match fileList with
  | [] => st
  | _ :: _ =>
      let '(n, newFoldersMap) := groupFiles env createObjectURL fileList 0 [] in
      let colorIndex := (List.length (folders st) mod List.length FOLDER_COLORS)%nat in
      let newFolders := buildFolders env newFoldersMap colorIndex n in
      setFolders (folders st ++ newFolders) st
  end.

End Workspace.

(** ** The buttons of the editing panel

    Which handler a button calls, and with what: a timeline entry has its
    buttons only while it is rendered, a folder its buttons only while it
    is listed; the arrows at the two ends of the timeline are disabled. *)

Module Panel.
Import Workspace.
Local Open Scope string_scope.

Inductive Edit : Type :=
| AddFolderToTimeline (k : nat)       (* the [+] of the k-th folder *)
| DeleteFolder (k : nat)              (* the bin of the k-th folder *)
| MoveEntry (index : nat) (d : Direction)
| RemoveEntry (index : nat)
| OpenEditor (k : nat)
| EditOverlay (o : OverlayConfig)     (* an input of the editor *)
| SaveOverlay
| RemoveOverlay.

Definition arrowDisabled (index : nat) (d : Direction) (st : State) : bool :=
  match d with
  | up => (index =? 0)%nat
  | down => (Z.of_nat index =? Z.of_nat (List.length (sequence st)) - 1)%Z
  end.

(** The timeline renders an entry only if its folder is found. *)
Definition entryRendered (index : nat) (st : State) : bool :=
  match nth_error (sequence st) index with
  | Some folderId =>
      match getFolderById folderId st with Some _ => true | None => false end
  | None => false
  end.

Definition click (st : State) (e : Edit) : State :=
  match e with
  | AddFolderToTimeline k =>
      match nth_error (folders st) k with
      | Some folder => addToSequence (folder_id folder) st
      | None => st
      end
  | DeleteFolder k =>
      match nth_error (folders st) k with
      | Some folder => removeFolder (folder_id folder) st
      | None => st
      end
  | MoveEntry index d =>
      if entryRendered index st && negb (arrowDisabled index d st)
      then match moveSequenceItem index d st with
           | Some st' => st'
           | None => st
           end
      else st
  | RemoveEntry index =>
      if entryRendered index st then removeFromSequence index st else st
  | OpenEditor k =>
      match nth_error (folders st) k with
      | Some folder => openOverlayEditor folder st
      | None => st
      end
  | EditOverlay o =>
      match editingFolder st with
      | Some _ => setTempOverlay o st
      | None => st
      end
  | SaveOverlay =>
      match editingFolder st with
      | Some _ => saveOverlay st
      | None => st
      end
  | RemoveOverlay =>
      match editingFolder st with
      | Some _ => removeOverlayFromFolder st
      | None => st
      end
  end.

Definition clicks (st : State) (es : list Edit) : State := fold_left click es st.

(** [folders.find(f => f.id === folderId)] finds a folder that has files. *)
Definition usable (fs : list SourceFolder) (folderId : string) : bool :=
  match find (fun f => folder_id f =? folderId) fs with
  | Some folder => negb (Nat.eqb (List.length (files folder)) 0)
  | None => false
  end.

(** Every timeline entry names a folder with files. *)
Definition timelineUsable (st : State) : bool :=
  forallb (usable (folders st)) (sequence st).

(** No folder is empty (the upload creates none that is). *)
Definition foldersFilled (st : State) : bool :=
  forallb (fun f => negb (Nat.eqb (List.length (files f)) 0)) (folders st).

(** What an edit of the overlay does to a list of segments: the ones of
    the folder carry [oo], the others are untouched; nothing else of a
    segment changes and none is added, dropped or moved. *)
Definition segmentsEdited (ids : list string) (oo : option OverlayConfig)
    (segs segs' : list VideoFile) : Prop :=
  Forall2 (fun seg seg' =>
             withOverlay None seg' = withOverlay None seg /\
             overlay seg' = if has ids (video_id seg) then oo else overlay seg)
          segs segs'.

End Panel.

(** ** More sample inputs *)

Module MoreSamples.
Import Samples.
Local Open Scope string_scope.
Local Open Scope Q_scope.


Definition fourSegments : list VideoFile :=
  [sampleSegment "a"; sampleSegment "b"; sampleSegment "c"; sampleSegment "d"].

(** The component before its first effect has run. *)
Definition freshPlayer : SeamlessPlayer.State :=
  {| SeamlessPlayer.currentIndex := 0;
     SeamlessPlayer.activePlayerId := SeamlessPlayer.P1;
     SeamlessPlayer.isPlaying := false;
     SeamlessPlayer.videoRef1 := blankEl;
     SeamlessPlayer.videoRef2 := blankEl;
     SeamlessPlayer.audioRef := blankEl |}.

Definition sampleFolder (n : string) (fs : list VideoFile) : SourceFolder :=
  {| folder_id := n; folder_name := n; files := fs; folder_color := "border-blue-500" |}.

Definition idleShared (rs : list Composition) (sel : list string) : Main.AppState :=
  {| Main.bgm := None; Main.results := rs; Main.selectedIds := sel;
     Main.isExporting := false; Main.exportProgress := 0;
     Main.batchStatus := {| Main.current := 0; Main.total := 0; Main.active := false |} |}.

(** Two folders, a timeline intro, body, intro, no results yet. *)
Definition sampleWorkspace : Workspace.State :=
  {| Workspace.folders :=
       [sampleFolder "intro" [sampleSegment "a"; sampleSegment "b"];
        sampleFolder "body" [sampleSegment "c"]];
     Workspace.sequence := ["intro"; "body"; "intro"];
     Workspace.generationCount := Some 2%Z;
     Workspace.activeComposition := None;
     Workspace.isGenerating := false;
     Workspace.isAiProcessing := false;
     Workspace.editingFolder := None;
     Workspace.tempOverlay := Main.DEFAULT_OVERLAY;
     Workspace.shared := idleShared [] [] |}.

(** Random numbers 0.6, 0.6, 0.6, ... *)
Definition sampleGen : Workspace.GenEnv :=
  {| Workspace.random := fun _ => 0.6; Workspace.idOf := fun _ => "id";
     Workspace.now := fun i => Z.of_nat i |}.

Definition threeResults : list Composition :=
  [{| comp_id := "r1"; comp_name := "one"; segments := threeSegments; createdAt := 0;
      aiTitle := None; aiDescription := None |};
   {| comp_id := "r2"; comp_name := "two"; segments := oneSegment; createdAt := 0;
      aiTitle := None; aiDescription := None |};
   {| comp_id := "r3"; comp_name := "three"; segments := fourSegments; createdAt := 0;
      aiTitle := None; aiDescription := None |}].

(** Three results, the second one selected, the first one on show. *)
Definition resultsWorkspace : Workspace.State :=
  {| Workspace.folders := Workspace.folders sampleWorkspace;
     Workspace.sequence := Workspace.sequence sampleWorkspace;
     Workspace.generationCount := Some 2%Z;
     Workspace.activeComposition := nth_error threeResults 0;
     Workspace.isGenerating := false;
     Workspace.isAiProcessing := false;
     Workspace.editingFolder := None;
     Workspace.tempOverlay := Main.DEFAULT_OVERLAY;
     Workspace.shared := idleShared threeResults ["r2"] |}.

Definition sampleUpload : list Workspace.FileInput :=
  [{| Workspace.file_name := "a.mp4"; Workspace.file_type := "video/mp4";
      Workspace.webkitRelativePath := "clips/intro/a.mp4" |};
   {| Workspace.file_name := "notes.txt"; Workspace.file_type := "text/plain";
      Workspace.webkitRelativePath := "clips/intro/notes.txt" |};
   {| Workspace.file_name := "c.mp4"; Workspace.file_type := "video/mp4";
      Workspace.webkitRelativePath := "clips/body/c.mp4" |};
   {| Workspace.file_name := "b.mp4"; Workspace.file_type := "video/mp4";
      Workspace.webkitRelativePath := "clips/intro/b.mp4" |};
   {| Workspace.file_name := "d.mp4"; Workspace.file_type := "video/mp4";
      Workspace.webkitRelativePath := "d.mp4" |};
   {| Workspace.file_name := "e.mp4"; Workspace.file_type := "video/mp4";
      Workspace.webkitRelativePath := "spare/intro/e.mp4" |}].

Definition sampleURL (n : nat) : string := "blob:" ++ Workspace.showNat n.

(** One segment that never becomes ready, under a 5 s track that decodes,
    after [calls] calls of the loop. *)
Definition neverLoading (calls : nat) : Main.Outcome :=
  Main.handleExport calls (sampleEnv true (fun _ => Main.LoadTimeout))
    (sampleComposition oneSegment) false (idleApp (Some (sampleTrack 5))).

(** The line break. *)
Definition lineBreak : string := String "010" EmptyString.

End MoreSamples.

(** * Properties *)

(** ** The rounding of the number format *)

Module DoubleFacts.
Import Double.
Local Open Scope Q_scope.

Lemma two_pos (e : Z) : 0 < 2 ^ e.
Proof. apply Qpower_0_lt. reflexivity. Qed.

Lemma two_plus (e e' : Z) : 2 ^ (e + e') == 2 ^ e * 2 ^ e'.
Proof. apply Qpower_plus. discriminate. Qed.

Lemma two_mono (e e' : Z) : (e <= e')%Z -> 2 ^ e <= 2 ^ e'.
Proof. intros H. apply Qpower_le_compat_l; [exact H | discriminate]. Qed.

Lemma two_inject (a : Z) : (0 <= a)%Z -> inject_Z (2 ^ a) == 2 ^ a.
Proof. intros H. exact (Zpower_Qpower 2 a H). Qed.

Lemma nearestEven_bounds (s : Q) :
  (Qfloor s <= nearestEven s <= Qfloor s + 1)%Z.
Proof.
  unfold nearestEven.
  destruct (Qcompare (s - inject_Z (Qfloor s)) (1 # 2)); [|lia|lia].
  destruct (Z.even (Qfloor s)); lia.
Qed.

Lemma nearestEven_mono (s t : Q) : s <= t -> (nearestEven s <= nearestEven t)%Z.
Proof.
  intros H. pose proof (Qfloor_resp_le s t H) as Hf.
  destruct (Z.eq_dec (Qfloor s) (Qfloor t)) as [E|E].
  - unfold nearestEven. rewrite <- E.
    destruct (Qcompare (s - inject_Z (Qfloor s)) (1 # 2)) eqn:Cs;
      destruct (Qcompare (t - inject_Z (Qfloor s)) (1 # 2)) eqn:Ct;
      try (destruct (Z.even (Qfloor s)); lia); try lia; exfalso;
      repeat match goal with
      | C : Qcompare _ _ = Eq |- _ => apply Qeq_alt in C
      | C : Qcompare _ _ = Lt |- _ => apply Qlt_alt in C
      | C : Qcompare _ _ = Gt |- _ => apply Qgt_alt in C
      end; lra.
  - pose proof (nearestEven_bounds s). pose proof (nearestEven_bounds t). lia.
Qed.

Lemma nearestEven_inject (n : Z) : nearestEven (inject_Z n) = n.
Proof.
  unfold nearestEven. rewrite Qfloor_Z.
  destruct (Qcompare (inject_Z n - inject_Z n) (1 # 2)) eqn:C; [|reflexivity|].
  - apply Qeq_alt in C. lra.
  - apply Qgt_alt in C. lra.
Qed.

(** The significand of a positive number has 53 bits. *)
Lemma lastPlace_bracket (q : Q) :
  0 < q -> 2 ^ (lastPlace q + 52) <= q /\ q < 2 ^ (lastPlace q + 53).
Proof.
  intros Hq. unfold lastPlace. destruct q as [n d]. cbn [Qnum Qden].
  assert (Hn : (0 < n)%Z) by (unfold Qlt in Hq; cbn in Hq; lia).
  set (a := Z.log2 n). set (b := Z.log2 (Z.pos d)).
  assert (Ha0 : (0 <= a)%Z) by apply Z.log2_nonneg.
  assert (Hb0 : (0 <= b)%Z) by apply Z.log2_nonneg.
  destruct (Z.log2_spec n Hn) as [Ha1 Ha2]. fold a in Ha1, Ha2.
  destruct (Z.log2_spec (Z.pos d) eq_refl) as [Hb1 Hb2]. fold b in Hb1, Hb2.
  assert (QN1 : 2 ^ a <= inject_Z n)
    by (rewrite <- two_inject by exact Ha0; rewrite <- Zle_Qle; exact Ha1).
  assert (QN2 : inject_Z n < 2 ^ (a + 1))
    by (rewrite <- two_inject by lia; rewrite <- Zlt_Qlt; exact Ha2).
  assert (QD1 : 2 ^ b <= inject_Z (Z.pos d))
    by (rewrite <- two_inject by exact Hb0; rewrite <- Zle_Qle; exact Hb1).
  assert (QD2 : inject_Z (Z.pos d) < 2 ^ (b + 1))
    by (rewrite <- two_inject by lia; rewrite <- Zlt_Qlt; exact Hb2).
  assert (Eq : n # d == inject_Z n / inject_Z (Z.pos d)) by apply Qmake_Qdiv.
  assert (Hd : 0 < inject_Z (Z.pos d)) by (rewrite <- (Zlt_Qlt 0); lia).
  pose proof (two_pos b) as Pb. pose proof (two_pos (a - b + 1)) as P1.
  pose proof (two_pos (a - b - 1)) as P0.
  assert (Hup : n # d < 2 ^ (a - b + 1)).
  { rewrite Eq. apply Qlt_shift_div_r; [exact Hd|].
    assert (E : 2 ^ (a + 1) == 2 ^ (a - b + 1) * 2 ^ b)
      by (rewrite <- two_plus; apply Qpower_comp; [reflexivity | lia]).
    rewrite E in QN2. nra. }
  assert (Hlo : 2 ^ (a - b - 1) < n # d).
  { rewrite Eq. apply Qlt_shift_div_l; [exact Hd|].
    assert (E : 2 ^ a == 2 ^ (a - b - 1) * 2 ^ (b + 1))
      by (rewrite <- two_plus; apply Qpower_comp; [reflexivity | lia]).
    rewrite E in QN1. nra. }
  destruct (Qle_bool (2 ^ (a - b)) (n # d)) eqn:Hk.
  - apply Qle_bool_iff in Hk. split.
    + replace (a - b - 52 + 52)%Z with (a - b)%Z by lia. exact Hk.
    + replace (a - b - 52 + 53)%Z with (a - b + 1)%Z by lia. exact Hup.
  - split.
    + replace (a - b - 53 + 52)%Z with (a - b - 1)%Z by lia. apply Qlt_le_weak, Hlo.
    + replace (a - b - 53 + 53)%Z with (a - b)%Z by lia.
      apply Qnot_le_lt. intros H. apply Qle_bool_iff in H. congruence.
Qed.

(** The significand chosen lies between 2^52 and 2^53. *)
Lemma significand_range (q : Q) :
  0 < q ->
  (2 ^ 52 <= nearestEven (q / 2 ^ lastPlace q) <= 2 ^ 53)%Z.
Proof.
  intros Hq. destruct (lastPlace_bracket q Hq) as [B1 B2].
  pose proof (two_pos (lastPlace q)) as Pe.
  rewrite two_plus in B1, B2.
  assert (S1 : inject_Z (2 ^ 52) <= q / 2 ^ lastPlace q).
  { rewrite two_inject by lia. apply Qle_shift_div_l; [exact Pe|].
    rewrite Qmult_comm. exact B1. }
  assert (S2 : q / 2 ^ lastPlace q <= inject_Z (2 ^ 53)).
  { rewrite two_inject by lia. apply Qle_shift_div_r; [exact Pe|].
    rewrite Qmult_comm. apply Qlt_le_weak, B2. }
  apply nearestEven_mono in S1, S2. rewrite nearestEven_inject in S1, S2.
  split; assumption.
Qed.

Lemma roundPositive_range (q : Q) :
  0 < q ->
  2 ^ (lastPlace q + 52) <= roundPositive q /\ roundPositive q <= 2 ^ (lastPlace q + 53).
Proof.
  intros Hq. destruct (significand_range q Hq) as [M1 M2].
  pose proof (two_pos (lastPlace q)) as Pe.
  unfold roundPositive. cbv zeta.
  set (m := nearestEven (q / 2 ^ lastPlace q)) in *.
  rewrite (Z.add_comm (lastPlace q) 52), (Z.add_comm (lastPlace q) 53), !two_plus.
  rewrite <- !two_inject by lia.
  rewrite Zle_Qle in M1, M2.
  split; apply Qmult_le_compat_r; try assumption; apply Qlt_le_weak, Pe.
Qed.

Lemma roundPositive_pos (q : Q) : 0 < q -> 0 < roundPositive q.
Proof.
  intros Hq. destruct (roundPositive_range q Hq) as [H _].
  pose proof (two_pos (lastPlace q + 52)). lra.
Qed.

Lemma roundPositive_mono (x y : Q) :
  0 < x -> x <= y -> roundPositive x <= roundPositive y.
Proof.
  intros Hx Hxy. assert (Hy : 0 < y) by lra.
  destruct (lastPlace_bracket x Hx) as [X1 X2].
  destruct (lastPlace_bracket y Hy) as [Y1 Y2].
  assert (He : (lastPlace x <= lastPlace y)%Z).
  { destruct (Z.le_gt_cases (lastPlace x) (lastPlace y)) as [H|H]; [exact H|].
    exfalso. pose proof (two_mono (lastPlace y + 53) (lastPlace x + 52) ltac:(lia)). lra. }
  destruct (Z.eq_dec (lastPlace x) (lastPlace y)) as [E|E].
  - unfold roundPositive. cbv zeta. rewrite E.
    pose proof (two_pos (lastPlace y)) as Pe.
    apply Qmult_le_compat_r; [|apply Qlt_le_weak, Pe].
    rewrite <- Zle_Qle. apply nearestEven_mono.
    apply Qmult_le_compat_r; [exact Hxy|].
    apply Qlt_le_weak, Qinv_lt_0_compat, Pe.
  - destruct (roundPositive_range x Hx) as [_ Rx].
    destruct (roundPositive_range y Hy) as [Ry _].
    pose proof (two_mono (lastPlace x + 53) (lastPlace y + 52) ltac:(lia)). lra.
Qed.

Lemma sign_of_num (q : Q) :
  match Qnum q with
  | Z0 => q == 0
  | Zpos _ => 0 < q
  | Zneg _ => q < 0
  end.
Proof. destruct q as [[|p|p] d]; unfold Qeq, Qlt; cbn; lia. Qed.

(** Rounding keeps the order. *)
Lemma double_round_mono (x y : Q) : x <= y -> round x <= round y.
Proof.
  intros H. unfold round.
  pose proof (sign_of_num x) as Sx. pose proof (sign_of_num y) as Sy.
  destruct (Qnum x), (Qnum y); try lra.
  - apply Qlt_le_weak, roundPositive_pos, Sy.
  - apply roundPositive_mono; assumption.
  - pose proof (roundPositive_pos (- x) ltac:(lra)). lra.
  - pose proof (roundPositive_pos (- x) ltac:(lra)).
    pose proof (roundPositive_pos y Sy). lra.
  - pose proof (roundPositive_mono (- y) (- x) ltac:(lra) ltac:(lra)). lra.
Qed.

Lemma double_round_nonneg (q : Q) : 0 <= q -> 0 <= round q.
Proof.
  intros H. unfold round. pose proof (sign_of_num q) as S.
  destruct (Qnum q); [lra | apply Qlt_le_weak, roundPositive_pos, S | lra].
Qed.

Lemma double_round_respects (x y : Q) : x == y -> round x == round y.
Proof.
  intros H. apply Qle_antisym; apply double_round_mono; rewrite H; apply Qle_refl.
Qed.

(** The rounding on numbers whose doubles are known: one tenth, one
    third, the integer 100, which is a double, and 2^53 + 1, which lies
    half way between two doubles and goes to the even one. *)
Remark round_examples :
  round (1 # 10) == 3602879701896397 # 36028797018963968 /\
  round (1 # 3) == 6004799503160661 # 18014398509481984 /\
  round 100 == 100 /\
  round (inject_Z (2 ^ 53 + 1)) == inject_Z (2 ^ 53) /\
  round (inject_Z (2 ^ 53 + 3)) == inject_Z (2 ^ 53 + 4).
Proof. repeat split; vm_compute; reflexivity. Qed.

End DoubleFacts.

Module PlayerFacts.
Import SeamlessPlayer Samples.

Lemma resetToStart_idle segs st : Idle (resetToStart segs st).
Proof. repeat split. Qed.

Lemma ended_last segs st :
  (List.length segs <= currentIndex st + 1)%nat ->
  handleVideoEnded segs None st = resetToStart segs st.
Proof.
  intros H. unfold handleVideoEnded.
  destruct (Nat.leb_spec (List.length segs) (currentIndex st + 1)); [reflexivity | lia].
Qed.

Lemma ended_inner segs st :
  (currentIndex st + 1 < List.length segs)%nat ->
  handleVideoEnded segs None st = switchTo segs None (currentIndex st + 1) st.
Proof.
  intros H. unfold handleVideoEnded.
  destruct (Nat.leb_spec (List.length segs) (currentIndex st + 1)); [lia | reflexivity].
Qed.

(** [k] completions in a row, none of them the last one. *)
Lemma ended_iter segs : forall k st,
  (currentIndex st + k < List.length segs)%nat ->
  currentIndex (Nat.iter k (handleVideoEnded segs None) st) = (currentIndex st + k)%nat /\
  activePlayerId (Nat.iter k (handleVideoEnded segs None) st)
    = Nat.iter k other (activePlayerId st) /\
  isPlaying (Nat.iter k (handleVideoEnded segs None) st) = isPlaying st.
Proof.
  induction k as [|k IH]; intros st Hk.
  - repeat split. simpl. lia.
  - rewrite !Nat.iter_succ.
    destruct (IH st) as (Hi & Ha & Hp); [lia|].
    rewrite ended_inner by lia.
    unfold switchTo; cbn [currentIndex activePlayerId isPlaying].
    rewrite Hi, Ha, Hp. repeat split. lia.
Qed.

(** C9: in the preview machine with at least one segment and no
    background track, a completion that is not the last one moves to
    index + 1 (on the other slot); the completion with index + 1 = N
    leaves the machine idle: not playing, index 0, slot A. Hence N
    completions in a row from index 0 end idle, and before that the
    k-th completion has reached index k. *)
Theorem trackless_preview_runs_to_idle (segs : list VideoFile) :
  (1 <= List.length segs)%nat ->
  (forall st, (currentIndex st + 1 < List.length segs)%nat ->
     currentIndex (handleVideoEnded segs None st) = (currentIndex st + 1)%nat /\
     activePlayerId (handleVideoEnded segs None st) = other (activePlayerId st) /\
     isPlaying (handleVideoEnded segs None st) = isPlaying st) /\
  (forall st, (currentIndex st + 1 = List.length segs)%nat ->
     Idle (handleVideoEnded segs None st)) /\
  (forall st, currentIndex st = 0%nat ->
     (forall k, (k < List.length segs)%nat ->
        currentIndex (Nat.iter k (handleVideoEnded segs None) st) = k) /\
     Idle (Nat.iter (List.length segs) (handleVideoEnded segs None) st)).
Proof.
  intros HN. split; [|split].
  - intros st H. rewrite ended_inner by exact H.
    unfold switchTo; cbn [currentIndex activePlayerId isPlaying]. auto.
  - intros st H. rewrite ended_last by lia. apply resetToStart_idle.
  - intros st H0. split.
    + intros k Hk. destruct (ended_iter segs k st) as (Hi & _); lia.
    + destruct (List.length segs) as [|n] eqn:E; [lia|].
      rewrite Nat.iter_succ.
      destruct (ended_iter segs n st) as (Hi & _); [lia|].
      rewrite ended_last by lia. apply resetToStart_idle.
Qed.

(** Three segments, no track: after the three completions the machine is
    idle at index 0 on slot A. *)
Lemma trackless_preview_three_segments :
  isPlaying playingFromStart = true /\
  Idle (handleVideoEnded threeSegments None
          (handleVideoEnded threeSegments None
             (handleVideoEnded threeSegments None playingFromStart))).
Proof.
  split; [reflexivity|].
  exact (proj2 (proj2 (proj2 (trackless_preview_runs_to_idle threeSegments
                                (le_S _ _ (le_S _ _ (le_n 1)))))
                 playingFromStart eq_refl)).
Defined.

(** C10: whenever the player is shown, the two video slots carry the same
    [muted] flag, and it is set exactly when a background track is
    attached; the audio element of the track exists exactly then too, so
    an unmuted slot and the track's audio never coexist. *)
Theorem preview_slots_muted_iff_track (seg : VideoFile) (segs : list VideoFile)
    (bgm : option BgmFile) (st : State) :
  exists v,
    render (seg :: segs) bgm st = Some v /\
    muted (view1 v) = muted (view2 v) /\
    (muted (view1 v) = true <-> bgm <> None) /\
    (audioMounted v = true <-> bgm <> None) /\
    audioMounted v && (negb (muted (view1 v)) || negb (muted (view2 v))) = false.
Proof.
  eexists. split; [reflexivity|]. cbn.
  destruct bgm; cbn; repeat split; intros; congruence.
Qed.

End PlayerFacts.

Module OverlayFacts.
Import Canvas Compositor Look Samples.
Local Open Scope Q_scope.

Section Drawing.

Variable measureText : Q -> string -> Q.

Lemma drawLine_step (o : OverlayConfig) (xPos lh : Q) (s : Surface) (lineY : Q)
    (l : string) :
  font_px (ctx s) = fontSize o ->
  ctx_shadowColor (ctx s) = fst (glyphShadow o) ->
  ctx_shadowBlur (ctx s) = snd (glyphShadow o) ->
  exists s1 new,
    drawLine o xPos lh (s, lineY) l = (s1, lineY + lh) /\
    ops s1 = ops s ++ new /\
    map drawn new =
      textOrder (truthy_num (strokeWidth o) && truthy_str (strokeColor o))
                o xPos lh [l] lineY /\
    sameSetting (ctx s) (ctx s1) /\
    saved s1 = saved s /\ width s1 = width s /\ height s1 = height s.
Proof.
  intros Hf Hc Hb. unfold drawLine, sameSetting.
  destruct (truthy_num (strokeWidth o) && truthy_str (strokeColor o)).
  - eexists. eexists. split; [reflexivity|]. cbn.
    rewrite <- app_assoc. split; [reflexivity|].
    cbn. rewrite Hf, Hc, Hb. auto 10.
  - eexists. eexists. split; [reflexivity|]. cbn.
    split; [reflexivity|].
    cbn. rewrite Hf, Hc, Hb. auto 10.
Qed.

Lemma textOrder_cons b o xPos lh l ls lineY :
  textOrder b o xPos lh (l :: ls) lineY =
  textOrder b o xPos lh [l] lineY ++ textOrder b o xPos lh ls (lineY + lh).
Proof. cbn [textOrder]. rewrite <- app_assoc. reflexivity. Qed.

Lemma drawLines_order (o : OverlayConfig) (xPos lh : Q) :
  forall ls s lineY,
    font_px (ctx s) = fontSize o ->
    ctx_shadowColor (ctx s) = fst (glyphShadow o) ->
    ctx_shadowBlur (ctx s) = snd (glyphShadow o) ->
    exists new,
      ops (fst (fold_left (drawLine o xPos lh) ls (s, lineY))) = ops s ++ new /\
      map drawn new =
        textOrder (truthy_num (strokeWidth o) && truthy_str (strokeColor o))
                  o xPos lh ls lineY /\
      saved (fst (fold_left (drawLine o xPos lh) ls (s, lineY))) = saved s /\
      width (fst (fold_left (drawLine o xPos lh) ls (s, lineY))) = width s /\
      height (fst (fold_left (drawLine o xPos lh) ls (s, lineY))) = height s.
Proof.
  induction ls as [|l ls IH]; intros s lineY Hf Hc Hb.
  - exists []. cbn. rewrite app_nil_r. auto.
  - cbn [fold_left].
    destruct (drawLine_step o xPos lh s lineY l Hf Hc Hb)
      as (s1 & new1 & Hstep & Hops1 & Hmap1 & (Hf1 & Hc1 & Hb1) & Hsv1 & Hw1 & Hh1).
    rewrite Hstep.
    destruct (IH s1 (lineY + lh)) as (new & Hops & Hmap & Hsv & Hw & Hh);
      [congruence ..|].
    exists (new1 ++ new).
    rewrite Hops, Hops1, Hsv, Hw, Hh, map_app, Hmap1, Hmap, <- app_assoc.
    rewrite (textOrder_cons _ o xPos lh l ls). auto.
Qed.

Lemma drawOverlay_order (o : OverlayConfig) (s : Surface) :
  exists new,
    ops (drawOverlay measureText o s) = ops s ++ new /\
    map drawn new =
      overlayOrder (truthy_str (bgColor o))
        (truthy_num (strokeWidth o) && truthy_str (strokeColor o))
        o (layout measureText (width s) (height s) o) (ctx s) /\
    ctx (drawOverlay measureText o s) = ctx s /\
    saved (drawOverlay measureText o s) = saved s /\
    width (drawOverlay measureText o s) = width s /\
    height (drawOverlay measureText o s) = height s.
Proof.
  unfold drawOverlay.
  set (s0 := setTextBaseline "middle" (setFont (fontSize o) (save s))).
  change (width s0) with (width s). change (height s0) with (height s).
  set (b := layout measureText (width s) (height s) o).
  set (s1 := if truthy_str (bgColor o) then _ else s0).
  set (s2 := if truthy_num (shadowBlur o) && truthy_str (shadowColor o) then _ else _).
  set (s3 := setTextAlign "center" s2).
  assert (H1 : exists bg, ops s1 = ops s ++ bg /\
             map drawn bg =
               (if truthy_str (bgColor o)
                then [Background (boxX b) (boxY b) (boxWidth b) (boxHeight b)
                        (str_or (bgColor o) "")
                        (ctx_shadowColor (ctx s)) (ctx_shadowBlur (ctx s))]
                else []) /\
             font_px (ctx s1) = fontSize o /\ saved s1 = ctx s :: saved s /\
             width s1 = width s /\ height s1 = height s).
  { subst s1 s0. destruct (truthy_str (bgColor o)).
    - eexists. split; [reflexivity|]. cbn. auto 10.
    - exists []. cbn. rewrite app_nil_r. auto 10. }
  destruct H1 as (bg & Hops1 & Hbg & Hf1 & Hsv1 & Hw1 & Hh1).
  assert (H3 : ops s3 = ops s1 /\ font_px (ctx s3) = fontSize o /\
               ctx_shadowColor (ctx s3) = fst (glyphShadow o) /\
               ctx_shadowBlur (ctx s3) = snd (glyphShadow o) /\
               saved s3 = saved s1 /\ width s3 = width s1 /\ height s3 = height s1).
  { subst s3 s2. unfold glyphShadow.
    destruct (truthy_num (shadowBlur o) && truthy_str (shadowColor o)); cbn; auto 10. }
  destruct H3 as (Hops3 & Hf3 & Hc3 & Hb3 & Hsv3 & Hw3 & Hh3).
  destruct (drawLines_order o (xPos b) (lineHeight b) (lines b) s3
              (boxY b + pad b + lineHeight b / 2) Hf3 Hc3 Hb3)
    as (new & Hops & Hmap & Hsv & Hw & Hh).
  destruct (fold_left _ (lines b) _) as [s4 y4]. cbn [fst] in *.
  exists (bg ++ new). unfold restore. rewrite Hsv, Hsv3, Hsv1.
  cbn [ops ctx saved width height].
  rewrite Hops, Hops3, Hops1, Hw, Hw3, Hw1, Hh, Hh3, Hh1, map_app, Hbg, Hmap.
  unfold overlayOrder. rewrite <- app_assoc. auto 10.
Qed.

Lemma widest_acc (px : Q) : forall ls a,
  a <= fold_left (fun mw line =>
                    let m := measureText px line in
                    if Qle_bool m mw then mw else m) ls a /\
  forall l, In l ls ->
    measureText px l <= fold_left (fun mw line =>
                                     let m := measureText px line in
                                     if Qle_bool m mw then mw else m) ls a.
Proof.
  induction ls as [|l0 ls IH]; intros a; cbn [fold_left].
  - split; [apply Qle_refl | intros l []].
  - destruct (Qle_bool (measureText px l0) a) eqn:E.
    + apply Qle_bool_iff in E. destruct (IH a) as [Ha Hin]. split; [exact Ha|].
      intros l [<-|Hl]; [eapply Qle_trans; eassumption | auto].
    + assert (Hlt : a < measureText px l0).
      { apply Qnot_le_lt. intros H. apply Qle_bool_iff in H. congruence. }
      destruct (IH (measureText px l0)) as [Ha Hin]. split.
      * eapply Qle_trans; [apply Qlt_le_weak; exact Hlt | exact Ha].
      * intros l [<-|Hl]; [exact Ha | auto].
Qed.

Lemma widest_attained (px : Q) : forall ls a,
  fold_left (fun mw line =>
               let m := measureText px line in
               if Qle_bool m mw then mw else m) ls a = a \/
  exists l, In l ls /\
    fold_left (fun mw line =>
                 let m := measureText px line in
                 if Qle_bool m mw then mw else m) ls a = measureText px l.
Proof.
  induction ls as [|l0 ls IH]; intros a; cbn [fold_left]; [now left|].
  destruct (Qle_bool (measureText px l0) a).
  - destruct (IH a) as [H|(l & Hl & H)]; [now left|].
    right. exists l. split; [now right | exact H].
  - destruct (IH (measureText px l0)) as [H|(l & Hl & H)].
    + right. exists l0. split; [now left | exact H].
    + right. exists l. split; [now right | exact H].
Qed.

(** The geometry of the box. *)
Lemma layout_geometry (cw ch : Q) (o : OverlayConfig) :
  let b := layout measureText cw ch o in
  lines b = split_newline (text o) /\
  lineHeight b == fontSize o * 1.2 /\
  pad b = num_or (bgPadding o) 0 /\
  (forall l, In l (lines b) -> measureText (fontSize o) l <= maxWidth b) /\
  boxWidth b == maxWidth b + 2 * pad b /\
  boxHeight b == inject_Z (Z.of_nat (List.length (lines b))) * lineHeight b + 2 * pad b /\
  boxX b + boxWidth b / 2 == (x o / 100) * cw /\
  boxY b + boxHeight b / 2 == (y o / 100) * ch.
Proof.
  cbn [layout lines lineHeight pad maxWidth boxWidth boxHeight boxX boxY]; cbv zeta.
  split; [reflexivity|]. split; [reflexivity|]. split; [reflexivity|].
  split; [intros l Hl; apply (widest_acc (fontSize o)); exact Hl|].
  repeat split; field.
Qed.

Lemma textOrder_no_background b o xPos lh : forall ls lineY,
  Forall unshadowedBackground (textOrder b o xPos lh ls lineY).
Proof.
  induction ls as [|l ls IH]; intros lineY; cbn [textOrder]; [constructor|].
  destruct b; cbn [app]; repeat constructor; apply IH.
Qed.

(** A tick of the draw timer leaves the context as it found it, and
    draws its background rectangle, if any, under that context's
    shadow. *)
Lemma drawFrame_invariant isFinished activeSegment f (s : Surface) :
  ctx_shadowColor (ctx s) = "rgba(0, 0, 0, 0)"%string ->
  ctx_shadowBlur (ctx s) = 0 ->
  Forall unshadowedBackground (map drawn (ops s)) ->
  let s' := drawFrame measureText isFinished activeSegment f s in
  ctx s' = ctx s /\ Forall unshadowedBackground (map drawn (ops s')).
Proof.
  intros Hc Hb Hops. unfold drawFrame.
  destruct isFinished; [auto|].
  destruct (negb (videoPaused f) && negb (videoEnded f) && (2 <=? readyState f)%nat);
    [|auto].
  match goal with |- context [drawImage ?a ?b ?c ?d s] => set (s1 := drawImage a b c d s) end.
  assert (H1 : ctx s1 = ctx s /\ Forall unshadowedBackground (map drawn (ops s1))).
  { subst s1. cbn. rewrite map_app. split; [reflexivity|].
    apply Forall_app. split; [exact Hops | repeat constructor]. }
  destruct H1 as [Hctx1 Hops1].
  destruct activeSegment as [seg|]; [|cbv zeta; auto].
  destruct (overlay seg) as [o|]; [|cbv zeta; auto].
  destruct (drawOverlay_order o s1) as (new & Hnew & Hmap & Hctx & _).
  cbv zeta. rewrite Hctx, Hnew, map_app, Hmap, Hctx1. split; [reflexivity|].
  apply Forall_app. split; [exact Hops1|].
  unfold overlayOrder. apply Forall_app. split.
  - destruct (truthy_str (bgColor o)); repeat constructor; assumption.
  - apply textOrder_no_background.
Qed.

Lemma drawFrames_invariant : forall ticks (s : Surface),
  ctx_shadowColor (ctx s) = "rgba(0, 0, 0, 0)"%string ->
  ctx_shadowBlur (ctx s) = 0 ->
  Forall unshadowedBackground (map drawn (ops s)) ->
  Forall unshadowedBackground (map drawn (ops (drawFrames measureText ticks s))).
Proof.
  induction ticks as [|[[fin act] f] ticks IH]; intros s Hc Hb Hops; [exact Hops|].
  unfold drawFrames in *. cbn [fold_left].
  destruct (drawFrame_invariant fin act f s Hc Hb Hops) as [Hctx Hops'].
  apply IH; [rewrite Hctx; assumption ..| exact Hops'].
Qed.

End Drawing.

Example fullOverlay_drawn :
  map isBackground (map drawn (skipn 1 (ops (drawOverlay halfEm fullOverlay exportSurface))))
    = [true; false; false; false; false] /\
  map isOutline (map drawn (skipn 1 (ops (drawOverlay halfEm fullOverlay exportSurface))))
    = [false; true; false; true; false].
Proof. split; vm_compute; reflexivity. Qed.

(** The default overlay is one line of glyphs: no rectangle, no outline. *)
Example default_overlay_drawn :
  map isBackground
    (map drawn (skipn 1 (ops (drawOverlay halfEm Main.DEFAULT_OVERLAY exportSurface))))
    = [false] /\
  map isOutline
    (map drawn (skipn 1 (ops (drawOverlay halfEm Main.DEFAULT_OVERLAY exportSurface))))
    = [false].
Proof. split; vm_compute; reflexivity. Qed.

(** C8, as stated, fails: an outline width of 3 with no outline colour
    draws no outline on the export surface, although strokeWidth > 0. *)
Lemma outline_without_colour_not_drawn :
  strokeWidth strokeNoColor = Some 3 /\ 0 < 3 /\
  existsb isOutline
    (map drawn (ops (drawOverlay halfEm strokeNoColor exportSurface))) = false.
Proof. split; [reflexivity|]. split; [reflexivity|]. vm_compute. reflexivity. Qed.

(** C8 (amended): on the export surface the overlay text is split on line
    breaks; lineHeight is fontSize x 1.2; the box is maxLineWidth + 2 pad
    wide and numLines x lineHeight + 2 pad tall, with pad = bgPadding or
    0, and centred at (x%, y%) of the surface. The operations added are,
    in this order: the background rectangle iff bgColor is truthy, drawn
    under the shadow in force before the overlay; then per line an
    outline iff strokeWidth is non-zero AND strokeColor is truthy,
    followed by the filled glyphs, both under the configured shadow. The
    context is restored afterwards, so on the export surface no
    background rectangle is ever drawn with a shadow. *)
Theorem export_overlay_box_and_draw_order (measureText : Q -> string -> Q)
    (o : OverlayConfig) (s : Surface) :
  let b := layout measureText (width s) (height s) o in
  (lines b = split_newline (text o) /\
   lineHeight b == fontSize o * 1.2 /\
   pad b = num_or (bgPadding o) 0 /\
   (forall l, In l (lines b) -> measureText (fontSize o) l <= maxWidth b) /\
   (maxWidth b = 0 \/
    exists l, In l (lines b) /\ maxWidth b = measureText (fontSize o) l) /\
   boxWidth b == maxWidth b + 2 * pad b /\
   boxHeight b == inject_Z (Z.of_nat (List.length (lines b))) * lineHeight b + 2 * pad b /\
   boxX b + boxWidth b / 2 == (x o / 100) * width s /\
   boxY b + boxHeight b / 2 == (y o / 100) * height s) /\
  (exists new,
     ops (drawOverlay measureText o s) = ops s ++ new /\
     map drawn new =
       overlayOrder (truthy_str (bgColor o))
         (truthy_num (strokeWidth o) && truthy_str (strokeColor o))
         o b (ctx s)) /\
  ctx (drawOverlay measureText o s) = ctx s /\
  (forall ticks,
     Forall unshadowedBackground
       (map drawn (ops (drawFrames measureText ticks exportSurface)))).
Proof.
  intros b.
  destruct (layout_geometry measureText (width s) (height s) o)
    as (H1 & H2 & H3 & H4 & H5 & H6 & H7 & H8).
  destruct (drawOverlay_order measureText o s) as (new & Hn & Hm & Hc & _).
  split; [|split; [|split]].
  - repeat (split; [assumption|]). split; [|auto].
    apply (widest_attained measureText (fontSize o)).
  - exists new. auto.
  - exact Hc.
  - intros ticks. apply drawFrames_invariant; try reflexivity.
    cbn. repeat constructor.
Qed.

(** C4 at the failing input: a shadow blur of 10 with no shadow colour.
    The preview styles the text with a black shadow of 10/720 of the
    width; the export draws the glyphs with a transparent shadow of blur
    0. *)
Lemma shadow_default_differs :
  SeamlessPlayer.textShadow (SeamlessPlayer.overlayStyle blurNoColor)
    = Some ((10 / 720) * 100, "black"%string) /\
  glyphShadow blurNoColor = ("transparent"%string, 0) /\
  (forall d, In d (map drawn (skipn 1 (ops (drawOverlay halfEm blurNoColor exportSurface)))) ->
     match d with
     | Glyphs _ _ _ _ _ shadowCol shadowBl => shadowCol = "transparent"%string /\ shadowBl = 0
     | _ => False
     end).
Proof.
  split; [vm_compute; reflexivity|]. split; [reflexivity|].
  vm_compute. intros d [<-|[]]. auto.
Qed.

(** Where both paths agree: sizes relative to the surface width. The
    preview's lengths are in [cqw] of a container [W] wide, the export
    draws on the 720 wide surface. *)
Lemma preview_export_relative_sizes (o : OverlayConfig) (W : Q) :
  ~ W == 0 ->
  let st := SeamlessPlayer.overlayStyle o in
  cqw W (SeamlessPlayer.fontSize_cqw st) / W == fontSize o / width exportSurface /\
  cqw W (SeamlessPlayer.padding_cqw st) / W
    == num_or (bgPadding o) 0 / width exportSurface /\
  (truthy_num (strokeWidth o) = true ->
     exists w, SeamlessPlayer.webkitTextStroke st = Some (w, strokeColor o) /\
               cqw W w / W == num_or (strokeWidth o) 0 / width exportSurface) /\
  (truthy_num (shadowBlur o) = true -> truthy_str (shadowColor o) = true ->
     exists bl, SeamlessPlayer.textShadow st = Some (bl, fst (glyphShadow o)) /\
                cqw W bl / W == snd (glyphShadow o) / width exportSurface) /\
  (truthy_num (shadowBlur o) = false ->
     SeamlessPlayer.textShadow st = None /\ glyphShadow o = ("transparent"%string, 0)) /\
  (truthy_str (bgColor o) = true ->
     SeamlessPlayer.backgroundColor st = str_or (bgColor o) "") /\
  (truthy_str (bgColor o) = false ->
     SeamlessPlayer.backgroundColor st = "transparent"%string).
Proof.
  intros HW. cbv zeta.
  unfold SeamlessPlayer.overlayStyle, cqw, glyphShadow, str_or, num_or.
  cbn [SeamlessPlayer.fontSize_cqw SeamlessPlayer.padding_cqw SeamlessPlayer.webkitTextStroke
       SeamlessPlayer.textShadow SeamlessPlayer.backgroundColor exportSurface width
       fillRect emit setFillStyle withCtx].
  split; [field; exact HW|].
  split; [destruct (truthy_num (bgPadding o)); field; exact HW|].
  split; [intros ->; eexists; split; [reflexivity | field; exact HW]|].
  split.
  { intros Hb Hc. destruct (shadowColor o) as [v|]; [|discriminate Hc].
    rewrite Hb, Hc. eexists. split; [reflexivity | cbn; field; exact HW]. }
  split; [intros ->; auto|].
  split; [|intros ->; reflexivity].
  intros Hc. destruct (bgColor o) as [v|]; [|discriminate Hc].
  rewrite Hc. reflexivity.
Qed.


End OverlayFacts.

Module ExportFacts.
Import Main Samples.
Local Open Scope Q_scope.

(** *** One segment *)

Section Segment.

Variable bgm : option BgmFile.
Variable totalDuration : Q.
Variable segs : list VideoFile.
Variable env : Env.

(** What the accounted time grows by in an attempt. *)
Lemma awaitSegment_effect (segment : VideoFile) (j : Job) :
  let j' := awaitSegment bgm totalDuration segs env segment j in
  currentSegmentIndex j' = S (currentSegmentIndex j) /\
  isFinished j' = isFinished j /\
  thrown j' = thrown j /\
  progressUpdates j' = progressUpdates j /\
  activeSegment j' = activeSegment j /\
  match segmentEvent env (currentSegmentIndex j) with
  | Plays d =>
      accumulatedTime j' = accumulatedTime j + d /\
      console j' = console j /\
      recorderState j' = Paused /\
      exists r, runs j' = runs j ++ [r] /\
        run_index r = (currentSegmentIndex j mod List.length segs)%nat /\
        run_start r = accumulatedTime j /\ run_duration r = d /\
        match cutoff bgm totalDuration (accumulatedTime j) d with
        | Some t => run_played r = t /\ run_forced r = true
        | None => run_played r = d /\ run_forced r = false
        end
  | LoadTimeout =>
      accumulatedTime j' = accumulatedTime j /\ runs j' = runs j /\
      console j' = console j ++ [VideoLoadTimeout (video_name segment)] /\
      recorderState j' = recorderState j
  | PlayRejected =>
      accumulatedTime j' = accumulatedTime j /\ runs j' = runs j /\
      console j' = console j ++ [PlayError]
  | MediaError _ =>
      accumulatedTime j' = accumulatedTime j /\ runs j' = runs j /\
      console j' = console j ++ [ErrorPlaying (video_name segment)]
  end.
Proof.
  unfold awaitSegment.
  destruct (segmentEvent env (currentSegmentIndex j)) as [| |loaded|d].
  - cbn. auto 10.
  - cbn. auto 10.
  - destruct loaded; cbn; auto 10.
  - cbn [setRecorder currentSegmentIndex accumulatedTime].
    destruct (cutoff bgm totalDuration (accumulatedTime j) d) as [t|];
      cbn; repeat split; eexists; repeat split.
Qed.

Lemma guards_cases (j : Job) :
  (attached bgm && Qle_bool totalDuration (accumulatedTime j) = true /\
   guardsShut bgm totalDuration segs j) \/
  (attached bgm && Qle_bool totalDuration (accumulatedTime j) = false /\
   negb (attached bgm) && (List.length segs <=? currentSegmentIndex j)%nat = true /\
   guardsShut bgm totalDuration segs j) \/
  (attached bgm && Qle_bool totalDuration (accumulatedTime j) = false /\
   negb (attached bgm) && (List.length segs <=? currentSegmentIndex j)%nat = false /\
   guardsOpen bgm totalDuration segs j).
Proof.
  unfold guardsOpen, guardsShut.
  destruct (attached bgm); cbn [andb negb].
  - destruct (Qle_bool totalDuration (accumulatedTime j)) eqn:E.
    + left. split; [reflexivity|]. split; [|discriminate].
      intros _. apply Qle_bool_iff. exact E.
    + right. right. repeat split; try discriminate.
      intros _. apply Qnot_le_lt. intros H. apply Qle_bool_iff in H. congruence.
  - destruct (Nat.leb_spec (List.length segs) (currentSegmentIndex j)).
    + right. left. repeat split; try discriminate. auto.
    + right. right. repeat split; try discriminate. auto.
Qed.

(** Induction over the calls of [playNextSegment]: a property kept by
    [finish] behind a shut guard, by the throw on an undefined segment and
    by one segment played with the guards open holds of the job at any
    fuel. *)
Lemma playNextSegment_ind (P : Job -> Prop) :
  (forall j, P j -> guardsShut bgm totalDuration segs j -> P (finish j)) ->
  (forall j, P j -> guardsOpen bgm totalDuration segs j ->
     nth_error segs (currentSegmentIndex j mod List.length segs) = None ->
     P (throw "TypeError: segment is undefined"
          (setExportProgress (Math_round (progressOf bgm totalDuration segs j))
             (setActiveSegment None j)))) ->
  (forall j segment, P j -> guardsOpen bgm totalDuration segs j ->
     nth_error segs (currentSegmentIndex j mod List.length segs) = Some segment ->
     P (playSegment bgm totalDuration segs env segment j)) ->
  forall fuel j, P j -> P (playNextSegment bgm totalDuration segs env fuel j).
Proof.
  intros Hfin Hthrow Hplay.
  induction fuel as [|fuel IH]; intros j Hj; [exact Hj|].
  cbn [playNextSegment].
  destruct (guards_cases j) as [[E Hs]|[(E1 & E2 & Hs)|(E1 & E2 & Hg)]].
  - rewrite E. auto.
  - rewrite E1, E2. auto.
  - rewrite E1, E2. cbv zeta.
    destruct (nth_error segs (currentSegmentIndex j mod List.length segs))
      as [segment|] eqn:En.
    + change (awaitSegment _ _ _ _ _ _)
        with (playSegment bgm totalDuration segs env segment j).
      destruct (isFinished (playSegment bgm totalDuration segs env segment j)); auto.
    + apply (Hthrow j Hj Hg En).
Qed.



End Segment.

(** *** Without a track *)

Section Trackless.

Variable totalDuration : Q.
Variable segs : list VideoFile.
Variable env : Env.

Lemma trackless_run : forall fuel j,
  isFinished j = false ->
  (currentSegmentIndex j <= List.length segs)%nat ->
  (List.length segs - currentSegmentIndex j < fuel)%nat ->
  let j' := playNextSegment None totalDuration segs env fuel j in
  let todo := seq (currentSegmentIndex j) (List.length segs - currentSegmentIndex j) in
  isFinished j' = true /\
  thrown j' = thrown j /\
  currentSegmentIndex j' = List.length segs /\
  progressUpdates j' =
    progressUpdates j ++ map (tracklessProgress (List.length segs)) todo /\
  map run_index (runs j') = map run_index (runs j) ++ filter (playsAt env) todo /\
  console j' = console j ++ flat_map (logAt segs env) todo.
Proof.
  induction fuel as [|fuel IH]; intros j Hfin Hle Hfuel; [lia|].
  cbv zeta. cbn [playNextSegment attached andb negb].
  destruct (Nat.leb_spec (List.length segs) (currentSegmentIndex j)) as [Hge|Hlt].
  - replace (List.length segs - currentSegmentIndex j)%nat with 0%nat by lia.
    cbn. rewrite !app_nil_r. repeat split. lia.
  - rewrite (Nat.mod_small _ _ Hlt).
    destruct (nth_error segs (currentSegmentIndex j)) as [segment|] eqn:En;
      [|apply nth_error_None in En; lia].
    cbv zeta.
    change (awaitSegment _ _ _ _ _ _)
      with (playSegment None totalDuration segs env segment j).
    set (j1 := playSegment None totalDuration segs env segment j).
    pose proof (awaitSegment_effect None totalDuration segs env segment
                  (setExportProgress (Math_round (progressOf None totalDuration segs j))
                     (setActiveSegment (Some segment) j))) as He.
    cbv zeta in He. fold (playSegment None totalDuration segs env segment j) in He.
    fold j1 in He. cbn [currentSegmentIndex isFinished thrown progressUpdates
      accumulatedTime console runs setExportProgress setActiveSegment] in He.
    destruct He as (Hi & Hf & Ht & Hp & _ & Hev).
    rewrite Hf, Hfin.
    destruct (IH j1) as (R1 & R2 & R3 & R4 & R5 & R6); [congruence | lia | lia |].
    rewrite R1, R2, R3, R4, R5, R6, Ht, Hp, Hi.
    replace (List.length segs - currentSegmentIndex j)%nat
      with (S (List.length segs - S (currentSegmentIndex j))) by lia.
    cbn [seq map filter flat_map].
    unfold playsAt at 2. unfold logAt at 2.
    rewrite (Nat.mod_small _ _ Hlt), En.
    repeat split.
    + rewrite <- app_assoc. reflexivity.
    + destruct (segmentEvent env (currentSegmentIndex j)) as [| |l|d].
      * destruct Hev as (_ & -> & _). reflexivity.
      * destruct Hev as (_ & -> & _). reflexivity.
      * destruct Hev as (_ & -> & _). reflexivity.
      * destruct Hev as (_ & _ & _ & r & -> & Hr & _).
        rewrite map_app, <- app_assoc. cbn [map app].
        rewrite Hr, (Nat.mod_small _ _ Hlt). reflexivity.
    + destruct (segmentEvent env (currentSegmentIndex j)) as [| |l|d].
      * destruct Hev as (_ & _ & -> & _). rewrite <- app_assoc. reflexivity.
      * destruct Hev as (_ & _ & ->). rewrite <- app_assoc. reflexivity.
      * destruct Hev as (_ & _ & ->). rewrite <- app_assoc. reflexivity.
      * destruct Hev as (_ & -> & _). reflexivity.
Qed.

End Trackless.

(** *** The 100 ms timer *)

Lemma find_seq_first (p : Q -> bool) (g : nat -> Q) : forall n a t,
  find p (map g (seq a n)) = Some t ->
  exists k, (a <= k < a + n)%nat /\ t = g k /\ p (g k) = true /\
            forall k', (a <= k' < k)%nat -> p (g k') = false.
Proof.
  induction n as [|n IH]; intros a t; cbn [seq map find]; [discriminate|].
  destruct (p (g a)) eqn:E.
  - intros [= <-]. exists a. split; [lia|]. split; [reflexivity|]. split; [exact E|].
    intros k' Hk'. lia.
  - intros H. destruct (IH (S a) t H) as (k & Hk & Ht & Hp & Hbefore).
    exists k. split; [lia|]. split; [exact Ht|]. split; [exact Hp|].
    intros k' Hk'. destruct (Nat.eq_dec k' a) as [->|Hne]; [exact E|].
    apply Hbefore. lia.
Qed.

Lemma find_seq_none (p : Q -> bool) (g : nat -> Q) (n a : nat) :
  find p (map g (seq a n)) = None ->
  forall k, (a <= k < a + n)%nat -> p (g k) = false.
Proof.
  intros H k Hk. apply (find_none _ _ H).
  apply in_map. apply in_seq. exact Hk.
Qed.

Lemma sampleAt_succ (k : nat) : sampleAt (S k) == sampleAt k + 0.1.
Proof.
  unfold sampleAt. rewrite Nat2Z.inj_succ. unfold Z.succ.
  rewrite inject_Z_plus. ring.
Qed.

(** Every sample lies before the end of the clip. *)
Lemma sample_before_end (d : Q) (k : nat) :
  (1 <= k <= Z.to_nat (Qceiling (d / 0.1)) - 1)%nat -> sampleAt k < d.
Proof.
  intros Hk. unfold sampleAt.
  assert (Hc : (Z.of_nat k <= Qceiling (d / 0.1) - 1)%Z) by lia.
  rewrite Zle_Qle in Hc.
  pose proof (Qceiling_lt (d / 0.1)) as Hlt.
  assert (Hd : d / 0.1 == d * 10) by field.
  rewrite Hd in Hlt at 2. lra.
Qed.

(** The clip ends at most one period after the last sample. *)
Lemma end_after_last_sample (d : Q) :
  d <= sampleAt (Z.to_nat (Qceiling (d / 0.1)) - 1) + 0.1.
Proof.
  rewrite <- sampleAt_succ. unfold sampleAt.
  pose proof (Qle_ceiling (d / 0.1)) as Hle.
  assert (Hd : d / 0.1 == d * 10) by field.
  rewrite Hd in Hle at 1.
  assert (Hc : (Qceiling (d / 0.1) <= Z.of_nat (S (Z.to_nat (Qceiling (d / 0.1)) - 1)))%Z)
    by lia.
  rewrite Zle_Qle in Hc. lra.
Qed.

Section Cutoff.

Variable b : BgmFile.
Variables totalDuration acc d : Q.
Hypothesis started_below : acc < totalDuration.

(** A clip that is cut is cut at the first sample at which the accounted
    time plus the clip's position has reached the target: before its own
    end, and less than one period past the target. *)
Lemma cutoff_some (t : Q) :
  cutoff (Some b) totalDuration acc d = Some t ->
  totalDuration <= acc + t /\ acc + t < totalDuration + 0.1 /\ t < d.
Proof.
  unfold cutoff, pollSamples. cbn [attached]. intros H.
  apply (find_seq_first _ sampleAt) in H.
  destruct H as (k & Hk & -> & Hp & Hbefore).
  apply Qle_bool_iff in Hp. split; [exact Hp|]. split.
  - destruct k as [|k]; [lia|]. rewrite sampleAt_succ.
    destruct k as [|k].
    + change (sampleAt 0) with (0 * 0.1). lra.
    + assert (Hprev : Qle_bool totalDuration (acc + sampleAt (S k)) = false)
        by (apply Hbefore; lia).
      assert (acc + sampleAt (S k) < totalDuration).
      { apply Qnot_le_lt. intros Hle. apply Qle_bool_iff in Hle. congruence. }
      lra.
  - apply sample_before_end. lia.
Qed.

(** A clip that is not cut ends less than one period past the target. *)
Lemma cutoff_none :
  cutoff (Some b) totalDuration acc d = None ->
  acc + d < totalDuration + 0.1.
Proof.
  unfold cutoff, pollSamples. cbn [attached]. intros H.
  pose proof (find_seq_none _ sampleAt _ _ H) as Hnone.
  pose proof (end_after_last_sample d) as Hend.
  destruct (Z.to_nat (Qceiling (d / 0.1)) - 1)%nat as [|n] eqn:En.
  - change (sampleAt 0) with (0 * 0.1) in Hend. lra.
  - assert (Hlast : Qle_bool totalDuration (acc + sampleAt (S n)) = false)
      by (apply Hnone; lia).
    assert (acc + sampleAt (S n) < totalDuration).
    { apply Qnot_le_lt. intros Hle. apply Qle_bool_iff in Hle. congruence. }
    lra.
Qed.

End Cutoff.

(** *** Bound to a track *)

Section TrackBound.

Variable b : BgmFile.
Variable D : Q.
Variable segs : list VideoFile.
Variable env : Env.

Lemma track_invariant : forall fuel j,
  trackInvariant D j ->
  trackInvariant D (playNextSegment (Some b) D segs env fuel j).
Proof.
  apply playNextSegment_ind.
  - intros j (H1 & H2 & H3 & H4) [Hs _]. repeat split; auto.
  - intros j (H1 & H2 & H3 & H4) _ _. repeat split; auto.
  - intros j segment (H1 & H2 & H3 & H4) [Hopen _] _.
    specialize (Hopen eq_refl).
    unfold playSegment.
    pose proof (awaitSegment_effect (Some b) D segs env segment
                  (setExportProgress (Math_round (progressOf (Some b) D segs j))
                     (setActiveSegment (Some segment) j))) as He.
    cbv zeta in He.
    cbn [currentSegmentIndex isFinished accumulatedTime runs
         setExportProgress setActiveSegment] in He.
    destruct He as (_ & Hf & _ & _ & _ & Hev).
    set (j' := awaitSegment _ _ _ _ _ _) in *.
    assert (Hnf : isFinished j' = true -> False).
    { rewrite Hf. intros E. specialize (H4 E). lra. }
    destruct (segmentEvent env (currentSegmentIndex j)) as [| |l|d].
    + destruct Hev as (Ha & Hr & _). unfold trackInvariant.
      rewrite Ha, Hr.
      split; [auto|]. split; [auto|]. split; [auto|]. intros E. destruct (Hnf E).
    + destruct Hev as (Ha & Hr & _). unfold trackInvariant.
      rewrite Ha, Hr.
      split; [auto|]. split; [auto|]. split; [auto|]. intros E. destruct (Hnf E).
    + destruct Hev as (Ha & Hr & _). unfold trackInvariant.
      rewrite Ha, Hr.
      split; [auto|]. split; [auto|]. split; [auto|]. intros E. destruct (Hnf E).
    + destruct Hev as (Ha & _ & _ & r & Hr & _ & Hstart & Hdur & Hcut).
      assert (Hrun : runWithin D r /\ (run_forced r = true -> D <= accumulatedTime j')).
      { unfold runWithin. rewrite Hstart, Hdur, Ha.
        destruct (cutoff (Some b) D (accumulatedTime j) d) as [t|] eqn:Ec.
        - destruct Hcut as [-> ->].
          destruct (cutoff_some b D (accumulatedTime j) d Hopen t Ec) as (C1 & C2 & C3).
          repeat split; auto; try discriminate. intros _. lra.
        - destruct Hcut as [-> ->].
          pose proof (cutoff_none b D (accumulatedTime j) d Hopen Ec).
          repeat split; auto; discriminate. }
      destruct Hrun as [Hin Hforced].
      unfold trackInvariant. rewrite Hr, removelast_last.
      split; [apply Forall_app; auto|].
      split; [auto|]. split.
      * intros Hlt. apply Forall_app. split; [auto|].
        constructor; [|constructor]. unfold unforced.
        destruct (run_forced r); [|reflexivity].
        specialize (Hforced eq_refl). lra.
      * intros E. destruct (Hnf E).
Qed.

End TrackBound.

(** *** Progress *)

Lemma round_percentage (q : Q) : 0 <= q -> q <= 100 -> percentage (Math_round q).
Proof.
  intros H0 H100. unfold percentage, Math_round. split.
  - change 0%Z with (Qfloor 0). apply Qfloor_resp_le. lra.
  - change 100%Z with (Qfloor (100 + 0.5)). apply Qfloor_resp_le. lra.
Qed.

Lemma round_mono (q q' : Q) : q <= q' -> (Math_round q <= Math_round q')%Z.
Proof. intros H. unfold Math_round. apply Qfloor_resp_le. lra. Qed.

Lemma share_nonneg (a d : Q) :
  0 <= a -> 0 < d -> 0 <= Double.mul (Double.div a d) 100.
Proof.
  intros Ha Hd. assert (0 <= a / d) by (apply Qle_shift_div_l; lra).
  pose proof (DoubleFacts.double_round_nonneg (a / d) H) as Hq.
  apply DoubleFacts.double_round_nonneg. fold (Double.div a d) in Hq. lra.
Qed.

Lemma share_mono (a a' d : Q) :
  0 < d -> a <= a' ->
  Double.mul (Double.div a d) 100 <= Double.mul (Double.div a' d) 100.
Proof.
  intros Hd Ha.
  assert (0 < / d) by (apply Qinv_lt_0_compat; exact Hd).
  assert (Hq : a / d <= a' / d) by (unfold Qdiv; apply Qmult_le_compat_r; lra).
  apply DoubleFacts.double_round_mono in Hq. fold (Double.div a d) (Double.div a' d) in Hq.
  apply DoubleFacts.double_round_mono. lra.
Qed.

(** The percentage is rounded from the double, not from the exact
    quotient: 23 of 40 segments are 57.49999999999999 per cent in the
    format and are shown as 57. *)
Remark percentage_of_the_double :
  (tracklessProgress 40 23 = 57)%Z /\
  (Math_round (Qmin 100 ((23 / 40) * 100)%Q) = 58)%Z.
Proof. split; vm_compute; reflexivity. Qed.

Lemma StronglySorted_snoc (l : list Z) (p : Z) :
  StronglySorted Z.le l -> Forall (fun q => (q <= p)%Z) l ->
  StronglySorted Z.le (l ++ [p]).
Proof.
  induction l as [|a l IH]; intros Hs Hall; cbn [app].
  - repeat constructor.
  - inversion Hs; subst. inversion Hall; subst.
    constructor; [auto|]. apply Forall_app. split; [assumption|]. repeat constructor. assumption.
Qed.

Section Progress.

Variable bgm : option BgmFile.
Variable D : Q.
Variable segs : list VideoFile.
Variable env : Env.

(** Clip durations are not negative. *)
Hypothesis durations_nonneg :
  forall i d, segmentEvent env i = Plays d -> 0 <= d.

Lemma progress_percentage (j : Job) :
  guardsOpen bgm D segs j -> 0 <= accumulatedTime j ->
  percentage (Math_round (progressOf bgm D segs j)).
Proof.
  intros [Ht Hn] Ha. unfold progressOf.
  destruct (attached bgm); apply round_percentage; try apply Q.le_min_l;
    (apply Q.min_glb; [lra|]).
  - specialize (Ht eq_refl). apply share_nonneg; lra.
  - specialize (Hn eq_refl). apply share_nonneg.
    + change 0 with (inject_Z 0). rewrite <- Zle_Qle. lia.
    + change 0 with (inject_Z 0). rewrite <- Zlt_Qlt. lia.
Qed.

Lemma progress_mono (j j' : Job) :
  guardsOpen bgm D segs j -> 0 <= accumulatedTime j ->
  accumulatedTime j <= accumulatedTime j' ->
  (currentSegmentIndex j <= currentSegmentIndex j')%nat ->
  (Math_round (progressOf bgm D segs j) <= Math_round (progressOf bgm D segs j'))%Z.
Proof.
  intros [Ht Hn] Ha Hacc Hidx. unfold progressOf.
  destruct (attached bgm); apply round_mono; apply Q.min_le_compat_l.
  - specialize (Ht eq_refl). apply share_mono; lra.
  - specialize (Hn eq_refl). apply share_mono.
    + change 0 with (inject_Z 0). rewrite <- Zlt_Qlt. lia.
    + rewrite <- Zle_Qle. lia.
Qed.

Lemma progress_invariant : forall fuel j,
  progressInvariant bgm D segs j ->
  progressInvariant bgm D segs (playNextSegment bgm D segs env fuel j).
Proof.
  apply playNextSegment_ind.
  - intros j (H1 & H2 & H3 & H4) _. repeat split; auto.
  - intros j (H1 & H2 & H3 & H4) Hopen _.
    pose proof (progress_percentage j Hopen H1) as Hp.
    specialize (H4 Hopen).
    unfold progressInvariant. cbn [throw setExportProgress setActiveSegment
      accumulatedTime progressUpdates].
    split; [exact H1|]. split; [apply Forall_app; auto|].
    split; [apply StronglySorted_snoc; auto|].
    intros _. apply Forall_app. split; [exact H4|].
    constructor; [apply Z.le_refl | constructor].
  - intros j segment (H1 & H2 & H3 & H4) Hopen _.
    pose proof (progress_percentage j Hopen H1) as Hp.
    specialize (H4 Hopen).
    unfold playSegment.
    pose proof (awaitSegment_effect bgm D segs env segment
                  (setExportProgress (Math_round (progressOf bgm D segs j))
                     (setActiveSegment (Some segment) j))) as He.
    cbv zeta in He.
    cbn [currentSegmentIndex isFinished accumulatedTime runs progressUpdates
         setExportProgress setActiveSegment] in He.
    destruct He as (Hi & _ & _ & Hu & _ & Hev).
    set (j' := awaitSegment _ _ _ _ _ _) in *.
    assert (Hacc : accumulatedTime j <= accumulatedTime j').
    { pose proof (durations_nonneg (currentSegmentIndex j)) as Hd.
      destruct (segmentEvent env (currentSegmentIndex j)) as [| |l|d].
      - destruct Hev as (-> & _). lra.
      - destruct Hev as (-> & _). lra.
      - destruct Hev as (-> & _). lra.
      - destruct Hev as (-> & _). specialize (Hd d eq_refl). lra. }
    unfold progressInvariant. rewrite Hu.
    split; [lra|]. split; [apply Forall_app; auto|].
    split; [apply StronglySorted_snoc; auto|].
    intros _.
    assert (Hm : (Math_round (progressOf bgm D segs j)
                  <= Math_round (progressOf bgm D segs j'))%Z)
      by (apply progress_mono; [assumption .. | lia]).
    apply Forall_app. split.
    + eapply Forall_impl; [|exact H4]. cbv beta. intros p Hle. lia.
    + constructor; [exact Hm | constructor].
Qed.

End Progress.

(** *** The handler *)


(** An accepted call, once its loop is over: the completion is decided by
    what was thrown and what the recorder collected. *)
Lemma handleExport_accepted fuel env comp isBatch st :
  isExporting st && negb isBatch = false ->
  let D := snd (fst (prepareBgm env (bgm st))) in
  let j := playNextSegment (bgm st) D (segments comp) env fuel newJob in
  let o := handleExport fuel env comp isBatch st in
  job o = Some j /\
  (thrown j = None -> isFinished j = false ->
     completion o = Pending /\ progressLog o = 0%Z :: progressUpdates j) /\
  (thrown j = None -> isFinished j = true ->
     progressLog o = 0%Z :: progressUpdates j ++ [0%Z] /\
     exportProgress (app o) = 0%Z /\
     isExporting (app o) = isExporting st /\
     batchStatus (app o) = batchStatus st /\
     consoleLog o = snd (prepareBgm env (bgm st)) ++ console j
                    ++ match collect env with
                       | [] => [ExportFailed noDataRecorded]
                       | _ => []
                       end /\
     match collect env with
     | [] => completion o = Failed noDataRecorded
     | cs => exists f, completion o = Downloaded f /\ chunks f = cs
     end).
Proof.
  intros Hacc. cbv zeta. unfold handleExport. rewrite Hacc.
  assert (Hb : forall b, bgm (setProgress 0 (if negb isBatch then setIsExporting b st else st))
                 = bgm st) by (intros b; destruct isBatch; reflexivity).
  rewrite !Hb.
  destruct (prepareBgm env (bgm st)) as [[hb D] lg]. cbn [fst snd].
  set (j := playNextSegment (bgm st) D (segments comp) env fuel newJob).
  split; [destruct (thrown j), (isFinished j); reflexivity|]. split.
  - intros -> ->. cbn. auto.
  - intros -> ->. cbn [app progressLog consoleLog completion].
    split; [reflexivity|].
    split; [destruct isBatch; reflexivity|].
    split.
    { destruct isBatch; cbn in Hacc |- *; [reflexivity|].
      rewrite andb_true_r in Hacc. auto. }
    split; [destruct isBatch; reflexivity|].
    destruct (collect env); cbn; split; eauto.
Qed.



(** *** Requests while a pipeline runs *)

Lemma handleExport_guard fuel env comp st :
  isExporting st = true -> handleExport fuel env comp false st = rejected st.
Proof. intros H. unfold handleExport. rewrite H. reflexivity. Qed.

Lemma handleBatchExport_guard fuel envs st :
  pipelineActive st = true ->
  batch_app (handleBatchExport fuel envs st) = st /\
  batch_started (handleBatchExport fuel envs st) = false /\
  batch_jobs (handleBatchExport fuel envs st) = [].
Proof.
  unfold pipelineActive, handleBatchExport. intros H.
  destruct (targetsOf st); [auto|]. rewrite H. auto.
Qed.

(** The handler of the single export tests [isExporting] only: called for
    a single export while a batch runs it is not turned away. It is the
    disabled button that keeps such a call from happening. *)
Remark handleExport_ignores_batch :
  pipelineActive batchRunning = true /\
  completion (handleExport 0 (sampleEnv true (alwaysPlays 7))
                (sampleComposition threeSegments) false batchRunning) = Pending /\
  exportButtonDisabled batchRunning = true.
Proof. repeat split. Qed.

(** C3: in every state in which a single export ([isExporting]) or a batch
    ([batchStatus.active]) runs, a request for a single export and a
    request for a batch export both leave the whole application state as
    it is (progress of the running job included), start nothing and cause
    no progress update. Behind the disabled buttons the handlers turn the
    call away themselves: [handleBatchExport] in every such state,
    [handleExport] whenever [isExporting] is set. *)
Theorem active_pipeline_rejects_requests fuel envs r st :
  pipelineActive st = true ->
  request fuel envs r st = (st, false, []) /\
  batch_app (handleBatchExport fuel envs st) = st /\
  batch_started (handleBatchExport fuel envs st) = false /\
  batch_jobs (handleBatchExport fuel envs st) = [] /\
  (isExporting st = true ->
   forall env composition, handleExport fuel env composition false st = rejected st).
Proof.
  intros H. split; [|split; [|split; [|split]]].
  - unfold pipelineActive, request, exportButtonDisabled, batchButtonDisabled in *.
    destruct r; rewrite H; reflexivity.
  - apply handleBatchExport_guard. exact H.
  - apply handleBatchExport_guard. exact H.
  - apply handleBatchExport_guard. exact H.
  - intros He env composition. apply handleExport_guard. exact He.
Qed.

Lemma active_pipeline_rejects_requests_witness :
  pipelineActive batchRunning = true /\
  request 4 (fun _ => sampleEnv true (alwaysPlays 7))
          (ExportClicked (sampleComposition threeSegments)) batchRunning
    = (batchRunning, false, []) /\
  request 4 (fun _ => sampleEnv true (alwaysPlays 7)) BatchExportClicked singleRunning
    = (singleRunning, false, []).
Proof.
  split; [reflexivity|]. split.
  - apply (active_pipeline_rejects_requests 4 _ _ batchRunning). reflexivity.
  - apply (active_pipeline_rejects_requests 4 _ _ singleRunning). reflexivity.
Defined.

(** *** Claims on the segment loop *)

Lemma job_of_accepted fuel env comp isBatch st j :
  job (handleExport fuel env comp isBatch st) = Some j ->
  isExporting st && negb isBatch = false /\
  j = playNextSegment (bgm st) (snd (fst (prepareBgm env (bgm st))))
        (segments comp) env fuel newJob.
Proof.
  intros H. destruct (isExporting st && negb isBatch) eqn:Hacc.
  - unfold handleExport in H. rewrite Hacc in H. discriminate.
  - split; [reflexivity|].
    destruct (handleExport_accepted fuel env comp isBatch st Hacc) as (Hjob & _).
    congruence.
Qed.

(** C1, as stated, fails: one 7 s clip under a 10.05 s track is played
    twice. The second run starts at 7 s and is stopped by the timer at its
    sample 3.1 s, that is at 10.1 s and not at 10.05 s; the time accounted
    at the end is 14 s, more than the 10.05 s of the track. *)
Lemma accounted_time_exceeds_track :
  job (handleExport 3 (sampleEnv true (alwaysPlays 7)) (sampleComposition oneSegment)
         false (idleApp (Some (sampleTrack 10.05)))) = Some sevenUnderTen /\
  isFinished sevenUnderTen = true /\
  map (fun r => (run_forced r, Qred (run_start r), Qred (run_played r)))
      (runs sevenUnderTen) = [(false, 0, 7); (true, 7, 3.1)] /\
  ~ 7 + 3.1 == duration (sampleTrack 10.05) /\
  accumulatedTime sevenUnderTen == 14 /\
  duration (sampleTrack 10.05) < accumulatedTime sevenUnderTen.
Proof.
  split; [vm_compute; reflexivity|]. split; [vm_compute; reflexivity|].
  split; [vm_compute; reflexivity|]. split; [vm_compute; discriminate|].
  split; vm_compute; reflexivity.
Qed.

(** C1 (amended): in an export bound to a decoded track of duration D,
    every clip is started while the accounted time is below D; a clip that
    is force-stopped is stopped at the first 100 ms sample at which the
    accounted time plus the clip's position has reached D, before its own
    end, so that what has been played passes D by less than 0.1 s, and a
    clip that is not force-stopped ends within that margin as well; a
    forced stop is the last run of the job; when the loop has finished the
    accounted time is at least D. *)
Theorem track_bound_runs fuel env comp isBatch st b j :
  bgm st = Some b ->
  bgmDecodes env = true ->
  job (handleExport fuel env comp isBatch st) = Some j ->
  Forall (runWithin (duration b)) (runs j) /\
  Forall unforced (removelast (runs j)) /\
  (isFinished j = true -> duration b <= accumulatedTime j).
Proof.
  intros Hb Hdec Hjob.
  destruct (job_of_accepted _ _ _ _ _ _ Hjob) as [_ ->].
  rewrite Hb. unfold prepareBgm. rewrite Hdec. cbn [fst snd].
  destruct (track_invariant b (duration b) (segments comp) env fuel newJob)
    as (H1 & H2 & _ & H4).
  - repeat split; try constructor. discriminate.
  - auto.
Qed.

Lemma track_bound_runs_witness :
  Forall (runWithin (duration (sampleTrack 10.05))) (runs sevenUnderTen) /\
  Forall unforced (removelast (runs sevenUnderTen)) /\
  (isFinished sevenUnderTen = true ->
   duration (sampleTrack 10.05) <= accumulatedTime sevenUnderTen).
Proof.
  assert (Hjob : job (handleExport 3 (sampleEnv true (alwaysPlays 7))
                        (sampleComposition oneSegment) false
                        (idleApp (Some (sampleTrack 10.05)))) = Some sevenUnderTen)
    by (lazy; reflexivity).
  apply (track_bound_runs 3 (sampleEnv true (alwaysPlays 7)) (sampleComposition oneSegment)
           false (idleApp (Some (sampleTrack 10.05))) (sampleTrack 10.05) sevenUnderTen);
    [reflexivity | reflexivity | exact Hjob].
Defined.

(** C2 at the failing input: one 10 s clip, a track that fails to decode.
    The failure is logged and the job ends with a file, but the clip is
    not played once: it is played 1000 times, until the accounted time
    reaches the stand-in duration of 9999 s, and the last run is cut by
    the timer. *)
Lemma undecoded_track_loops_until_9999 :
  (consoleLog undecodedRun, completion undecodedRun,
   option_map (fun j => (List.length (runs j),
                         forallb (fun r => (run_index r =? 0)%nat) (runs j),
                         option_map run_forced (nth_error (runs j) 999),
                         Qeq_bool (accumulatedTime j) 10000))
              (job undecodedRun))
  = ([FailedToLoadBgm],
     Downloaded {| chunks := [4096%Z]; mimeType := "video/mp4"; ext := "mp4" |},
     Some (1000%nat, true, Some true, true)).
Proof. vm_compute. reflexivity. Qed.

(** C5, as stated, fails: three segments, no track, no errors. The updates
    are 0, 0, 33, 67 and a closing 0: 100 is never reported and the
    sequence is not non-decreasing. *)
Lemma final_progress_is_not_100 :
  let log := progressLog (handleExport 4 (sampleEnv true (alwaysPlays 7))
                            (sampleComposition threeSegments) false (idleApp None)) in
  log = [0; 0; 33; 67; 0]%Z /\
  last log 0%Z <> 100%Z /\
  ~ In 100%Z log /\
  ~ StronglySorted Z.le log.
Proof.
  cbv zeta.
  assert (E : progressLog (handleExport 4 (sampleEnv true (alwaysPlays 7))
                (sampleComposition threeSegments) false (idleApp None))
              = [0; 0; 33; 67; 0]%Z) by (vm_compute; reflexivity).
  rewrite E. split; [reflexivity|]. split; [discriminate|]. split.
  - cbn. intros H. repeat (destruct H as [H|H]; [discriminate|]). exact H.
  - intros H. apply StronglySorted_inv in H. destruct H as [H _].
    apply StronglySorted_inv in H. destruct H as [H _].
    apply StronglySorted_inv in H. destruct H as [_ H].
    inversion H as [|? ? _ H']. inversion H' as [|? ? Hle _]. lia.
Qed.

(** C5 (amended): when clip durations are not negative, every progress
    update of an export is an integer between 0 and 100, and the updates
    are non-decreasing up to the closing reset to 0 that ends a job. For N
    segments and no track, whatever happens to the segments, the updates
    are an opening 0, one update per segment and the closing 0. *)
Theorem progress_updates fuel env comp isBatch st :
  (forall i d, segmentEvent env i = Plays d -> 0 <= d) ->
  let o := handleExport fuel env comp isBatch st in
  let n := List.length (segments comp) in
  Forall percentage (progressLog o) /\
  (exists body tail,
     progressLog o = body ++ tail /\ StronglySorted Z.le body /\
     (tail = [] \/ tail = [0%Z])) /\
  (bgm st = None -> isExporting st && negb isBatch = false -> (n < fuel)%nat ->
   exists perSegment,
     progressLog o = 0%Z :: perSegment ++ [0%Z] /\ List.length perSegment = n).
Proof.
  intros Hdur o n.
  destruct (isExporting st && negb isBatch) eqn:Hacc.
  { subst o. unfold handleExport. rewrite Hacc. cbn.
    split; [constructor|]. split; [|discriminate].
    exists [], []. repeat split; auto. constructor. }
  set (D := snd (fst (prepareBgm env (bgm st)))).
  set (j := playNextSegment (bgm st) D (segments comp) env fuel newJob).
  destruct (progress_invariant (bgm st) D (segments comp) env Hdur fuel newJob)
    as (_ & Hperc & Hsorted & _).
  { repeat split; try constructor. cbn. lra. }
  fold j in Hperc, Hsorted.
  assert (Hzero : percentage 0%Z) by (unfold percentage; lia).
  assert (Hbody : StronglySorted Z.le (0%Z :: progressUpdates j)).
  { constructor; [exact Hsorted|].
    eapply Forall_impl; [|exact Hperc]. unfold percentage. intros p Hp. lia. }
  assert (Hlog : progressLog o = 0%Z :: progressUpdates j \/
                 progressLog o = (0%Z :: progressUpdates j) ++ [0%Z]).
  { subst o. unfold handleExport. rewrite Hacc.
    assert (Hb : forall b, bgm (setProgress 0 (if negb isBatch then setIsExporting b st else st))
                   = bgm st) by (intros b; destruct isBatch; reflexivity).
    rewrite !Hb. subst j D.
    destruct (prepareBgm env (bgm st)) as [[hb D] lg]. cbn [fst snd].
    match goal with
    | |- context [thrown ?jj] => destruct (thrown jj), (isFinished jj)
    end; cbn [progressLog]; auto. }
  split; [|split].
  - destruct Hlog as [-> | ->].
    + constructor; assumption.
    + apply Forall_app. split; [constructor; assumption|].
      constructor; [exact Hzero | constructor].
  - destruct Hlog as [-> | ->].
    + exists (0%Z :: progressUpdates j), []. rewrite app_nil_r. auto.
    + exists (0%Z :: progressUpdates j), [0%Z]. auto.
  - intros Hb _ Hfuel.
    destruct (handleExport_accepted fuel env comp isBatch st Hacc) as (_ & _ & Hdone).
    fold o D j in Hdone.
    assert (Hrun := trackless_run D (segments comp) env fuel newJob).
    cbv zeta in Hrun. cbn [isFinished currentSegmentIndex newJob thrown progressUpdates] in Hrun.
    rewrite Nat.sub_0_r in Hrun.
    destruct Hrun as (R1 & R2 & _ & R4 & _); [reflexivity | lia | fold n; lia |].
    assert (Hj : j = playNextSegment None D (segments comp) env fuel newJob)
      by (unfold j; rewrite Hb; reflexivity).
    rewrite <- Hj in R1, R2, R4.
    destruct (Hdone R2 R1) as (-> & _). rewrite R4.
    exists (map (tracklessProgress n) (seq 0 n)). split; [reflexivity|].
    rewrite length_map, length_seq. reflexivity.
Qed.

Lemma progress_updates_witness :
  let o := handleExport 4 (sampleEnv true (alwaysPlays 7))
             (sampleComposition threeSegments) false (idleApp None) in
  Forall percentage (progressLog o) /\
  (exists body tail,
     progressLog o = body ++ tail /\ StronglySorted Z.le body /\
     (tail = [] \/ tail = [0%Z])) /\
  exists perSegment,
    progressLog o = 0%Z :: perSegment ++ [0%Z] /\ List.length perSegment = 3%nat.
Proof.
  destruct (progress_updates 4 (sampleEnv true (alwaysPlays 7))
              (sampleComposition threeSegments) false (idleApp None))
    as (H1 & H2 & H3).
  - intros i d [= <-]. discriminate.
  - split; [exact H1|]. split; [exact H2|].
    apply H3; [reflexivity | reflexivity | cbn; lia].
Defined.

Lemma timeout_step bgm D segs env segment j :
  segmentEvent env (currentSegmentIndex j) = LoadTimeout ->
  awaitSegment bgm D segs env segment j
    = advance (log (VideoLoadTimeout (video_name segment)) j).
Proof. intros H. unfold awaitSegment. rewrite H. reflexivity. Qed.

(** With a track attached the loop ends only when the accounted time
    reaches the target: while every attempt times out nothing is accounted
    and no number of calls finishes the job. *)
Remark track_bound_timeouts_never_finish b D segs env fuel :
  0 < D ->
  (forall i, segmentEvent env i = LoadTimeout) ->
  isFinished (playNextSegment (Some b) D segs env fuel newJob) = false.
Proof.
  intros HD Hev.
  enough (H : isFinished (playNextSegment (Some b) D segs env fuel newJob) = false /\
              accumulatedTime (playNextSegment (Some b) D segs env fuel newJob) == 0)
    by apply H.
  apply (playNextSegment_ind (Some b) D segs env
           (fun j => isFinished j = false /\ accumulatedTime j == 0)).
  - intros j [_ Ha] [Hs _]. specialize (Hs eq_refl). rewrite Ha in Hs. lra.
  - intros j H _ _. exact H.
  - intros j segment [Hf Ha] _ _. unfold playSegment.
    rewrite timeout_step by apply Hev. cbn. auto.
  - split; reflexivity.
Qed.



(** While every attempt on the one segment times out under a track, a
    call of the loop logs the timeout and advances the index, and changes
    nothing else. *)
Lemma timeouts_under_track b D env segment : forall calls j,
  0 < D ->
  (forall i, segmentEvent env i = LoadTimeout) ->
  isFinished j = false -> accumulatedTime j == 0 ->
  let j' := playNextSegment (Some b) D [segment] env calls j in
  isFinished j' = false /\ thrown j' = thrown j /\
  currentSegmentIndex j' = (currentSegmentIndex j + calls)%nat /\
  accumulatedTime j' == 0 /\ runs j' = runs j /\
  console j' = console j ++ repeat (VideoLoadTimeout (video_name segment)) calls.
Proof.
  induction calls as [|calls IH]; intros j HD Hev Hf Ha; cbv zeta.
  - cbn [playNextSegment repeat]. rewrite Nat.add_0_r, app_nil_r. auto 10.
  - cbn [playNextSegment attached andb negb].
    destruct (Qle_bool D (accumulatedTime j)) eqn:Hg.
    { apply Qle_bool_iff in Hg. lra. }
    cbn [List.length]. rewrite Nat.mod_1_r. cbn [nth_error].
    rewrite timeout_step by apply Hev.
    cbn [isFinished advance log setExportProgress setActiveSegment]. rewrite Hf.
    match goal with |- context [playNextSegment _ _ _ _ calls ?j1] =>
      destruct (IH j1 HD Hev) as (I1 & I2 & I3 & I4 & I5 & I6); [exact Hf | exact Ha |]
    end.
    cbv zeta in I1, I2, I3, I4, I5, I6.
    cbn [thrown currentSegmentIndex runs console advance log setExportProgress
         setActiveSegment] in I2, I3, I5, I6.
    rewrite I1, I2, I3, I5, I6. repeat (split; [reflexivity|]).
    split; [lia|]. split; [exact I4|]. split; [reflexivity|].
    rewrite <- app_assoc. reflexivity.
Qed.

(** C7 at the failing input: a composition of one segment that never
    becomes ready, under a track of 5 s that decodes. Every attempt is
    logged as a timeout and skipped and the index advances, as the claim
    says, but nothing is accounted, and with a track attached the loop
    stops on the accounted time only: after any number of calls the job
    is still running, with as many timeouts on the console as there were
    calls. The job does not complete and no file is produced. *)
Theorem sole_segment_never_loading_never_completes (calls : nat) :
  let o := MoreSamples.neverLoading calls in
  completion o = Pending /\
  consoleLog o = repeat (VideoLoadTimeout "a") calls /\
  exists j, job o = Some j /\
    isFinished j = false /\ thrown j = None /\
    currentSegmentIndex j = calls /\ accumulatedTime j == 0 /\ runs j = [].
Proof.
  cbv zeta.
  destruct (timeouts_under_track (sampleTrack 5) 5 (sampleEnv true (fun _ => LoadTimeout))
              (sampleSegment "a") calls newJob) as (T1 & T2 & T3 & T4 & T5 & T6);
    [reflexivity | reflexivity | reflexivity | reflexivity |].
  cbv zeta in T1, T2, T3, T4, T5, T6.
  cbn [thrown currentSegmentIndex runs console newJob Nat.add List.app video_name
       sampleSegment] in T2, T3, T5, T6.
  set (j := playNextSegment (Some (sampleTrack 5)) 5 [sampleSegment "a"]
              (sampleEnv true (fun _ => LoadTimeout)) calls newJob) in *.
  assert (Ho : MoreSamples.neverLoading calls
               = {| app := setProgress (last (progressUpdates j) 0%Z)
                             (setProgress 0
                                (setIsExporting true (idleApp (Some (sampleTrack 5)))));
                    completion := Pending;
                    progressLog := 0%Z :: progressUpdates j;
                    consoleLog := console j;
                    alerts := []; job := Some j |}).
  { unfold MoreSamples.neverLoading, handleExport.
    cbn [isExporting idleApp negb andb]. cbv beta iota zeta.
    change (bgm (setProgress 0 (setIsExporting true (idleApp (Some (sampleTrack 5))))))
      with (Some (sampleTrack 5)).
    cbn [prepareBgm sampleEnv bgmDecodes].
    change (playNextSegment (Some (sampleTrack 5)) (duration (sampleTrack 5))
              (segments (sampleComposition oneSegment))
              (sampleEnv true (fun _ => LoadTimeout)) calls newJob)
      with j.
    rewrite T2, T1. reflexivity. }
  rewrite Ho. cbn [completion consoleLog job].
  split; [reflexivity|]. split; [exact T6|].
  exists j. auto 10.
Qed.

End ExportFacts.

(** * Further properties of the export loop *)

Module ExportMore.
Import Main Accounting BatchResult Samples ExportFacts.
Local Open Scope Q_scope.

Lemma sumQ_snoc (l : list Q) (q : Q) : sumQ (l ++ [q]) == sumQ l + q.
Proof.
  unfold sumQ. induction l as [|a l IH]; simpl app; simpl fold_right.
  - ring.
  - rewrite IH. ring.
Qed.

Section Loop.

Variable bgm : option BgmFile.
Variable D : Q.
Variable segs : list VideoFile.
Variable env : Env.

(** One pass through the body of the loop, in terms of the job before. *)
Lemma playSegment_effect (segment : VideoFile) (j : Job) :
  let j' := playSegment bgm D segs env segment j in
  currentSegmentIndex j' = S (currentSegmentIndex j) /\
  isFinished j' = isFinished j /\
  thrown j' = thrown j /\
  progressUpdates j' = progressUpdates j ++ [Math_round (progressOf bgm D segs j)] /\
  match segmentEvent env (currentSegmentIndex j) with
  | Plays d =>
      accumulatedTime j' = accumulatedTime j + d /\
      console j' = console j /\
      recorderState j' = Paused /\
      exists r, runs j' = runs j ++ [r] /\
        run_index r = (currentSegmentIndex j mod List.length segs)%nat /\
        run_start r = accumulatedTime j /\ run_duration r = d /\
        match cutoff bgm D (accumulatedTime j) d with
        | Some t => run_played r = t /\ run_forced r = true
        | None => run_played r = d /\ run_forced r = false
        end
  | LoadTimeout =>
      accumulatedTime j' = accumulatedTime j /\ runs j' = runs j /\
      console j' = console j ++ [VideoLoadTimeout (video_name segment)] /\
      recorderState j' = recorderState j
  | PlayRejected =>
      accumulatedTime j' = accumulatedTime j /\ runs j' = runs j /\
      console j' = console j ++ [PlayError] /\
      recorderState j' = Recording
  | MediaError loaded =>
      accumulatedTime j' = accumulatedTime j /\ runs j' = runs j /\
      console j' = console j ++ [ErrorPlaying (video_name segment)] /\
      recorderState j' = (if loaded then Recording else recorderState j)
  end.
Proof.
  unfold playSegment, awaitSegment.
  cbn [currentSegmentIndex setExportProgress setActiveSegment].
  destruct (segmentEvent env (currentSegmentIndex j)) as [| |loaded|d].
  - cbn. auto 10.
  - cbn. auto 10.
  - destruct loaded; cbn; auto 10.
  - cbn [setRecorder currentSegmentIndex accumulatedTime setExportProgress setActiveSegment].
    destruct (cutoff bgm D (accumulatedTime j) d) as [t|];
      cbn; repeat split; eexists; repeat split.
Qed.

End Loop.

(** X1: whatever the track, the segments and the answers of the video
    element, the time accounted by the loop is the sum of the natural
    durations of the clips that were played (timeouts and errors add
    nothing), and every attempt left exactly one trace: the segment index
    is the number of runs plus the number of console entries. *)
Theorem accounted_time_is_sum_of_durations bgm D segs env fuel :
  let j := playNextSegment bgm D segs env fuel newJob in
  accumulatedTime j == totalDurations j /\
  currentSegmentIndex j = (List.length (runs j) + List.length (console j))%nat.
Proof.
  cbv zeta.
  apply (playNextSegment_ind bgm D segs env
           (fun j => accumulatedTime j == totalDurations j /\
                     currentSegmentIndex j
                     = (List.length (runs j) + List.length (console j))%nat)).
  - intros j H _. exact H.
  - intros j H _ _. exact H.
  - intros j segment [Ha Hi] _ _.
    destruct (playSegment_effect bgm D segs env segment j) as (Hi' & _ & _ & _ & Hev).
    set (j' := playSegment bgm D segs env segment j) in *.
    unfold totalDurations in *. rewrite Hi'.
    destruct (segmentEvent env (currentSegmentIndex j)) as [| |l|d].
    + destruct Hev as (-> & -> & -> & _). rewrite length_app. cbn. split; [exact Ha | lia].
    + destruct Hev as (-> & -> & -> & _). rewrite length_app. cbn. split; [exact Ha | lia].
    + destruct Hev as (-> & -> & -> & _). rewrite length_app. cbn. split; [exact Ha | lia].
    + destruct Hev as (-> & -> & _ & r & -> & _ & _ & Hd & _).
      rewrite map_app, length_app. cbn [map List.length].
      rewrite sumQ_snoc, Hd, Ha. split; [reflexivity | lia].
  - split; [reflexivity | reflexivity].
Qed.

Lemma filter_all (A : Type) (p : A -> bool) (l : list A) :
  (forall a, In a l -> p a = true) -> filter p l = l.
Proof.
  induction l as [|a l IH]; intros H; cbn [filter]; [reflexivity|].
  rewrite (H a (or_introl eq_refl)), IH; [reflexivity|].
  intros a' Ha'. apply H. now right.
Qed.

(** Without a track no run is cut: every clip is played to its end. *)
Lemma trackless_runs_played_out D segs env fuel :
  Forall playedOut (runs (playNextSegment None D segs env fuel newJob)).
Proof.
  apply (playNextSegment_ind None D segs env (fun j => Forall playedOut (runs j))).
  - intros j H _. exact H.
  - intros j H _ _. exact H.
  - intros j segment H _ _.
    destruct (playSegment_effect None D segs env segment j) as (_ & _ & _ & _ & Hev).
    set (j' := playSegment None D segs env segment j) in *.
    destruct (segmentEvent env (currentSegmentIndex j)) as [| |l|d].
    + destruct Hev as (_ & -> & _). exact H.
    + destruct Hev as (_ & -> & _). exact H.
    + destruct Hev as (_ & -> & _). exact H.
    + destruct Hev as (_ & _ & _ & r & -> & _ & _ & Hd & Hcut).
      apply Forall_app. split; [exact H|]. constructor; [|constructor].
      cbn [cutoff attached] in Hcut. destruct Hcut as [Hp Hf].
      split; [exact Hf | congruence].
  - constructor.
Qed.

(** X2: with no track attached and more calls of the loop than segments,
    the loop finishes without throwing after one attempt per segment, in
    composition order: the runs are exactly the segments that load and
    play, each once, in order and each played to its natural end, and the
    console holds the entry of every other attempt. When every segment
    plays the runs are the segments 0 .. N-1. *)
Theorem trackless_visits_each_segment_once D segs env fuel :
  (List.length segs < fuel)%nat ->
  let j := playNextSegment None D segs env fuel newJob in
  let n := List.length segs in
  isFinished j = true /\ thrown j = None /\ currentSegmentIndex j = n /\
  map run_index (runs j) = filter (playsAt env) (seq 0 n) /\
  Forall playedOut (runs j) /\
  console j = flat_map (logAt segs env) (seq 0 n) /\
  ((forall i, (i < n)%nat -> playsAt env i = true) ->
   map run_index (runs j) = seq 0 n /\ console j = []).
Proof.
  intros Hfuel j n.
  assert (Hrun := trackless_run D segs env fuel newJob).
  cbv zeta in Hrun.
  cbn [isFinished currentSegmentIndex newJob thrown runs console progressUpdates map app]
    in Hrun.
  rewrite Nat.sub_0_r in Hrun.
  destruct Hrun as (R1 & R2 & R3 & _ & R5 & R6); [reflexivity | lia | lia |].
  fold j n in R1, R2, R3, R5, R6. rewrite app_nil_l in R5, R6.
  split; [exact R1|]. split; [exact R2|]. split; [exact R3|]. split; [exact R5|].
  split; [apply trackless_runs_played_out|]. split; [exact R6|].
  intros Hall. split.
  - rewrite R5. apply filter_all. intros i Hi. apply in_seq in Hi. apply Hall. lia.
  - rewrite R6, flat_map_concat_map. apply concat_nil_Forall. apply Forall_map.
    apply Forall_forall. intros i Hi. apply in_seq in Hi.
    specialize (Hall i ltac:(lia)). unfold playsAt in Hall. unfold logAt.
    destruct (nth_error segs (i mod List.length segs)); [|reflexivity].
    destruct (segmentEvent env i); try discriminate. reflexivity.
Qed.

Lemma trackless_visits_each_segment_once_witness :
  map run_index
    (runs (playNextSegment None 999999 threeSegments (sampleEnv true (timesOutAt 3 1 7))
             4 newJob)) = [0%nat; 2%nat].
Proof.
  refine (proj1 (proj2 (proj2 (proj2
            (trackless_visits_each_segment_once 999999 threeSegments
               (sampleEnv true (timesOutAt 3 1 7)) 4 _))))).
  cbn. lia.
Defined.



(** *** The recorder between segments *)

(** X5: the recorder is paused whenever the loop is between two segments,
    so that no loading time is recorded, as long as no call of [play()] is
    rejected and no error arrives after [loadeddata]; an attempt that ends
    in one of these two ways leaves the recorder recording. *)
Theorem recorder_paused_between_segments bgm D segs env :
  (recorderReleased env ->
   forall fuel, recorderState (playNextSegment bgm D segs env fuel newJob) = Paused) /\
  (forall segment j,
     segmentEvent env (currentSegmentIndex j) = PlayRejected \/
     segmentEvent env (currentSegmentIndex j) = MediaError true ->
     recorderState (playSegment bgm D segs env segment j) = Recording).
Proof.
  split.
  - intros Hrel fuel.
    apply (playNextSegment_ind bgm D segs env (fun j => recorderState j = Paused)).
    + intros j H _. exact H.
    + intros j H _ _. exact H.
    + intros j segment H _ _.
      destruct (playSegment_effect bgm D segs env segment j) as (_ & _ & _ & _ & Hev).
      destruct (Hrel (currentSegmentIndex j)) as [Hnr Hne].
      destruct (segmentEvent env (currentSegmentIndex j)) as [| |[|]|d].
      * destruct Hev as (_ & _ & _ & ->). exact H.
      * congruence.
      * congruence.
      * destruct Hev as (_ & _ & _ & ->). exact H.
      * destruct Hev as (_ & _ & -> & _). reflexivity.
    + reflexivity.
  - intros segment j Hev.
    destruct (playSegment_effect bgm D segs env segment j) as (_ & _ & _ & _ & He).
    destruct Hev as [E|E]; rewrite E in He; destruct He as (_ & _ & _ & ->); reflexivity.
Qed.

Lemma recorder_paused_between_segments_witness :
  recorderState (playNextSegment None 999999 threeSegments
                   (sampleEnv true (timesOutAt 3 1 7)) 3 newJob) = Paused.
Proof.
  apply (proj1 (recorder_paused_between_segments None 999999 threeSegments
                  (sampleEnv true (timesOutAt 3 1 7)))).
  intros i. cbn. unfold timesOutAt. destruct (i mod 3 =? 1)%nat; split; discriminate.
Defined.

(** *** The file *)

(** X7: the file of a completed export has the first supported container
    of mp4, webm with h264 and plain webm (plain webm when none is
    supported), an extension that matches it, and as content exactly the
    blobs of positive size the recorder delivered. *)
Theorem file_extension_matches_container fuel env comp isBatch st f :
  completion (handleExport fuel env comp isBatch st) = Downloaded f ->
  chunks f = collect env /\
  ((isTypeSupported env "video/mp4" = true /\
    mimeType f = "video/mp4"%string /\ ext f = "mp4"%string) \/
   (isTypeSupported env "video/mp4" = false /\
    isTypeSupported env "video/webm;codecs=h264" = true /\
    mimeType f = "video/webm;codecs=h264"%string /\ ext f = "webm"%string) \/
   (isTypeSupported env "video/mp4" = false /\
    isTypeSupported env "video/webm;codecs=h264" = false /\
    mimeType f = "video/webm"%string /\ ext f = "webm"%string)).
Proof.
  unfold handleExport.
  destruct (isExporting st && negb isBatch); [discriminate|].
  destruct (prepareBgm _ _) as [[hb D] lg].
  match goal with
  | |- context [thrown ?jj] => destruct (thrown jj), (isFinished jj)
  end; cbn [completion]; try discriminate.
  destruct (collect env) as [|c cs] eqn:Ec; [discriminate|].
  intros [= <-]. cbn [chunks mimeType ext]. split; [reflexivity|].
  unfold chooseMimeType.
  destruct (isTypeSupported env "video/mp4"); [left; repeat split|].
  destruct (isTypeSupported env "video/webm;codecs=h264");
    [right; left; repeat split | right; right; repeat split].
Qed.

Lemma file_extension_matches_container_witness :
  chunks {| chunks := [4096%Z]; mimeType := "video/mp4"; ext := "mp4" |}
    = collect (sampleEnv true (timesOutAt 3 1 7)).
Proof.
  assert (H : completion (handleExport 4 (sampleEnv true (timesOutAt 3 1 7))
                            (sampleComposition threeSegments) false (idleApp None))
              = Downloaded {| chunks := [4096%Z]; mimeType := "video/mp4"; ext := "mp4" |})
    by (lazy; reflexivity).
  exact (proj1 (file_extension_matches_container 4 (sampleEnv true (timesOutAt 3 1 7))
                  (sampleComposition threeSegments) false (idleApp None)
                  {| chunks := [4096%Z]; mimeType := "video/mp4"; ext := "mp4" |} H)).
Defined.

(** *** Batches *)

Lemma batch_job_completes fuel env t st :
  bgm st = None ->
  (List.length (segments t) < fuel)%nat ->
  handleExport fuel env t true st
  = {| app := setProgress 0 st;
       completion := match collect env with
                     | [] => Failed noDataRecorded
                     | cs => Downloaded {| chunks := cs; mimeType := chooseMimeType env;
                                           ext := if includes "webm" (chooseMimeType env)
                                                  then "webm" else "mp4" |}
                     end;
       progressLog := 0%Z :: map (tracklessProgress (List.length (segments t)))
                                 (seq 0 (List.length (segments t))) ++ [0%Z];
       consoleLog := flat_map (logAt (segments t) env) (seq 0 (List.length (segments t)))
                     ++ match collect env with
                        | [] => [ExportFailed noDataRecorded]
                        | _ => []
                        end;
       alerts := [];
       job := Some (playNextSegment None 999999 (segments t) env fuel newJob) |}.
Proof.
  intros Hb Hfuel.
  assert (Hrun := trackless_run 999999 (segments t) env fuel newJob).
  cbv zeta in Hrun.
  cbn [isFinished currentSegmentIndex newJob thrown progressUpdates console] in Hrun.
  rewrite Nat.sub_0_r in Hrun.
  destruct Hrun as (R1 & R2 & _ & R4 & _ & R6); [reflexivity | lia | lia |].
  rewrite app_nil_l in R4, R6.
  unfold handleExport.
  rewrite andb_false_r. cbn [negb].
  change (bgm (setProgress 0 st)) with (bgm st). rewrite Hb.
  cbn [prepareBgm]. cbv beta iota zeta.
  rewrite R2, R1, R4, R6.
  destruct (collect env); reflexivity.
Qed.

Lemma batchLoop_runs_all fuel envs : forall targets i st done,
  bgm st = None ->
  Forall (fun t => (List.length (segments t) < fuel)%nat) targets ->
  Forall (fun o => alerts o = []) done ->
  exists st' jobs,
    batchLoop fuel envs i targets st done = (st', jobs, true) /\
    map completion jobs
      = map completion done
        ++ map (fun k => batchCompletion (envs k)) (seq i (List.length targets)) /\
    map job jobs
      = map job done
        ++ map (fun kt => Some (playNextSegment None 999999 (segments (snd kt))
                                  (envs (fst kt)) fuel newJob))
               (combine (seq i (List.length targets)) targets) /\
    Forall (fun o => alerts o = []) jobs /\
    bgm st' = None /\ results st' = results st /\ selectedIds st' = selectedIds st /\
    isExporting st' = isExporting st /\
    (targets <> [] -> exportProgress st' = 0%Z).
Proof.
  induction targets as [|t targets IH]; intros i st done Hb Hfuel Hdone.
  - exists st, done. cbn. rewrite !app_nil_r. repeat split; auto. congruence.
  - inversion Hfuel as [|? ? Ht Hrest]; subst.
    cbn [batchLoop].
    set (st1 := setBatchStatus _ st).
    assert (Hb1 : bgm st1 = None) by exact Hb.
    rewrite (batch_job_completes fuel (envs i) t st1 Hb1 Ht).
    cbn [completion app].
    destruct (IH (S i) (setProgress 0 st1)
                (done ++ [{| app := setProgress 0 st1;
                             completion := batchCompletion (envs i);
                             progressLog := 0%Z :: map (tracklessProgress (List.length (segments t)))
                                              (seq 0 (List.length (segments t))) ++ [0%Z];
                             consoleLog := flat_map (logAt (segments t) (envs i))
                                             (seq 0 (List.length (segments t)))
                                           ++ match collect (envs i) with
                                              | [] => [ExportFailed noDataRecorded]
                                              | _ => []
                                              end;
                             alerts := [];
                             job := Some (playNextSegment None 999999 (segments t) (envs i)
                                            fuel newJob) |}]))
      as (st' & jobs & Hloop & Hc & Hj & Ha & E1 & E2 & E3 & E4 & E5).
    + exact Hb.
    + exact Hrest.
    + apply Forall_app. split; [exact Hdone | repeat constructor].
    + exists st', jobs.
      split.
      { unfold batchCompletion in Hloop. destruct (collect (envs i)); exact Hloop. }
      rewrite Hc, Hj, !map_app. cbn [map completion job List.length seq combine fst snd].
      rewrite <- !app_assoc. cbn [app].
      repeat split; auto.
      intros _. destruct targets as [|t' targets'].
      * cbn [batchLoop] in Hloop. injection Hloop as <- _. reflexivity.
      * apply E5. discriminate.
Qed.

(** X8: a batch started from an idle state without a track runs one
    export per selected composition, in the order of the result list, and
    a failed job does not stop it: given enough calls for each job, job k
    ends with a file or, exactly when its recorder captured nothing, with
    the "no data" failure; no job raises an alert. Afterwards the batch is
    no longer active, its counters are back to 0, progress is 0 and the
    one alert is the closing one. *)
Theorem batch_runs_every_target fuel envs st :
  bgm st = None ->
  pipelineActive st = false ->
  targetsOf st <> [] ->
  Forall (fun t => (List.length (segments t) < fuel)%nat) (targetsOf st) ->
  let o := handleBatchExport fuel envs st in
  batch_started o = true /\
  map completion (batch_jobs o)
    = map (fun k => batchCompletion (envs k)) (seq 0 (List.length (targetsOf st))) /\
  map job (batch_jobs o)
    = map (fun kt => Some (playNextSegment None 999999 (segments (snd kt))
                             (envs (fst kt)) fuel newJob))
          (combine (seq 0 (List.length (targetsOf st))) (targetsOf st)) /\
  Forall (fun job => alerts job = []) (batch_jobs o) /\
  batch_alerts o = [AlertBatchDone] /\
  batch_app o = afterBatch st.
Proof.
  intros Hb Hidle Hne Hfuel. cbv zeta. unfold handleBatchExport.
  unfold pipelineActive in Hidle. rewrite Hidle.
  destruct (targetsOf st) as [|t ts] eqn:Et; [congruence|].
  set (st0 := setBatchStatus _ st).
  destruct (batchLoop_runs_all fuel envs (t :: ts) 0 st0 [] Hb Hfuel (Forall_nil _))
    as (st' & jobs & Hloop & Hc & Hj & Ha & E1 & E2 & E3 & E4 & E5).
  rewrite Hloop. cbn [batch_started batch_jobs batch_alerts batch_app].
  split; [reflexivity|]. split; [exact Hc|]. split; [exact Hj|].
  split; [exact Ha|]. split; [reflexivity|].
  unfold afterBatch, setBatchStatus. rewrite E1, E2, E3, E4, (E5 ltac:(discriminate)).
  cbn. rewrite Hb. reflexivity.
Qed.

Lemma batch_runs_every_target_witness :
  map completion
    (batch_jobs (handleBatchExport 4
                   (fun k => if (k =? 0)%nat then silentEnv (alwaysPlays 7)
                             else sampleEnv true (alwaysPlays 7))
                   (idleApp None)))
  = [Failed noDataRecorded].
Proof.
  refine (proj1 (proj2 (batch_runs_every_target 4
            (fun k => if (k =? 0)%nat then silentEnv (alwaysPlays 7)
                      else sampleEnv true (alwaysPlays 7))
            (idleApp None) eq_refl eq_refl _ _))).
  - discriminate.
  - repeat constructor.
Defined.

End ExportMore.

(** * Further properties of the compositor *)

Module OverlayMore.
Import Canvas Compositor Look Samples MoreSamples OverlayFacts.
Local Open Scope Q_scope.



(** *** Lines *)

Lemma split_newline_nonempty (s : string) : split_newline s <> [].
Proof.
  destruct s as [|c s]; cbn [split_newline]; [discriminate|].
  destruct (Ascii.eqb c "010"); [discriminate|].
  destruct (split_newline s); discriminate.
Qed.

Lemma concat_cons_nonempty (sep x : string) (l : list string) :
  l <> [] -> String.concat sep (x :: l) = (x ++ sep ++ String.concat sep l)%string.
Proof. destruct l; [congruence | reflexivity]. Qed.

(** X10: splitting the overlay text loses nothing and leaves no break
    behind: joining the lines with line breaks gives the text back, no
    line contains a line break, and there is one line more than there are
    line breaks in the text (so never no line at all). *)
Theorem split_newline_round_trip (s : string) :
  String.concat lineBreak (split_newline s) = s /\
  Forall (fun line => forall k, String.get k line <> Some "010"%char) (split_newline s) /\
  List.length (split_newline s)
    = S (List.length (filter (Ascii.eqb "010"%char) (list_ascii_of_string s))).
Proof.
  induction s as [|c s (IH1 & IH2 & IH3)].
  - cbn. repeat split. repeat constructor. intros k. destruct k; discriminate.
  - cbn [split_newline list_ascii_of_string filter].
    rewrite (Ascii.eqb_sym "010"%char c).
    destruct (Ascii.eqb_spec c "010"%char) as [->|Hne].
    + split; [|split].
      * rewrite concat_cons_nonempty by apply split_newline_nonempty.
        rewrite IH1. reflexivity.
      * constructor; [|exact IH2]. intros k. destruct k; discriminate.
      * cbn [List.length]. rewrite IH3. reflexivity.
    + destruct (split_newline s) as [|l ls] eqn:E;
        [exfalso; exact (split_newline_nonempty s E)|].
      split; [|split].
      * destruct ls as [|l' ls'].
        -- cbn in IH1 |- *. rewrite IH1. reflexivity.
        -- rewrite concat_cons_nonempty in IH1 |- * by discriminate.
           cbn [append]. rewrite IH1. reflexivity.
      * inversion IH2 as [|? ? Hl Hls]; subst. constructor; [|exact Hls].
        intros k. destruct k as [|k]; cbn [String.get].
        -- intros [= E']. congruence.
        -- apply Hl.
      * cbn [List.length] in IH3 |- *. exact IH3.
Qed.

(** *** Where the lines are drawn *)

Lemma textOrder_line_position outlined o xPos lh : forall ls y0 k line,
  nth_error ls k = Some line ->
  exists ty,
    In (Glyphs line xPos ty (fontSize o) (color o)
               (fst (glyphShadow o)) (snd (glyphShadow o)))
       (textOrder outlined o xPos lh ls y0) /\
    ty == y0 + inject_Z (Z.of_nat k) * lh.
Proof.
  induction ls as [|l ls IH]; intros y0 k line Hk; [destruct k; discriminate|].
  cbn [textOrder]. destruct k as [|k].
  - cbn in Hk. injection Hk as ->. exists y0. split.
    + apply in_or_app. right. now left.
    + cbn. ring.
  - cbn [nth_error] in Hk. destruct (IH (y0 + lh) k line Hk) as (ty & Hin & Hty).
    exists ty. split.
    + apply in_or_app. right. now right.
    + rewrite Hty, Nat2Z.inj_succ. unfold Z.succ. rewrite inject_Z_plus. ring.
Qed.

(** X11: the block of text is centred on the anchor point of the overlay:
    of n lines the k-th is drawn, in the overlay's colour, at x = x% of the
    surface width and at y = y% of the surface height plus
    (k - (n-1)/2) line heights, whatever the padding. *)
Theorem lines_centred_on_anchor (measureText : Q -> string -> Q) (o : OverlayConfig)
    (s : Surface) (k : nat) (line : string) :
  nth_error (split_newline (text o)) k = Some line ->
  exists new ty,
    ops (drawOverlay measureText o s) = ops s ++ new /\
    In (Glyphs line ((x o / 100) * width s) ty (fontSize o) (color o)
               (fst (glyphShadow o)) (snd (glyphShadow o)))
       (map drawn new) /\
    ty == (y o / 100) * height s
          + (inject_Z (Z.of_nat k)
             - (inject_Z (Z.of_nat (List.length (split_newline (text o)))) - 1) / 2)
            * (fontSize o * 1.2).
Proof.
  intros Hk.
  destruct (drawOverlay_order measureText o s) as (new & Hn & Hm & _).
  set (b := layout measureText (width s) (height s) o) in *.
  destruct (textOrder_line_position
              (truthy_num (strokeWidth o) && truthy_str (strokeColor o))
              o (xPos b) (lineHeight b) (lines b)
              (boxY b + pad b + lineHeight b / 2) k line Hk)
    as (ty & Hin & Hty).
  exists new, ty. split; [exact Hn|]. split.
  - rewrite Hm. unfold overlayOrder. apply in_or_app. right. exact Hin.
  - rewrite Hty. subst b.
    cbn [layout lines lineHeight pad boxY boxHeight yPos]. field.
Qed.

Lemma lines_centred_on_anchor_witness :
  exists new ty,
    ops (drawOverlay halfEm fullOverlay exportSurface) = ops exportSurface ++ new /\
    In (Glyphs "c" ((x fullOverlay / 100) * width exportSurface) ty
               (fontSize fullOverlay) (color fullOverlay)
               (fst (glyphShadow fullOverlay)) (snd (glyphShadow fullOverlay)))
       (map drawn new) /\
    ty == (y fullOverlay / 100) * height exportSurface
          + (inject_Z (Z.of_nat 1)
             - (inject_Z (Z.of_nat (List.length (split_newline (text fullOverlay)))) - 1) / 2)
            * (fontSize fullOverlay * 1.2).
Proof.
  apply (lines_centred_on_anchor halfEm fullOverlay exportSurface 1 "c"). reflexivity.
Defined.

End OverlayMore.

Module PlayerMore.
Import SeamlessPlayer Preview Samples MoreSamples PlayerFacts.
Local Open Scope string_scope.

Lemma iter_other_even k : Nat.iter k other P1 = if Nat.even k then P1 else P2.
Proof.
  induction k as [|k IH]; [reflexivity|].
  rewrite Nat.iter_succ, IH, Nat.even_succ, <- Nat.negb_even.
  destruct (Nat.even k); reflexivity.
Qed.

Lemma runEvents_snoc segs bgm st0 es e :
  runEvents segs bgm st0 (es ++ [e]) = dispatch segs bgm (runEvents segs bgm st0 es) e.
Proof. unfold runEvents. rewrite fold_left_app. reflexivity. Qed.

Lemma endings_snoc es e :
  endings (es ++ [e]) = (endings es + (if isVideoEnded e then 1 else 0))%nat.
Proof.
  unfold endings. rewrite filter_app, length_app. cbn [filter].
  destruct (isVideoEnded e); reflexivity.
Qed.

(** A click changes neither the index, nor the slot on show, nor what the
    slots hold. *)
Lemma togglePlay_keeps bgm ok st :
  currentIndex (togglePlay bgm ok st) = currentIndex st /\
  activePlayerId (togglePlay bgm ok st) = activePlayerId st /\
  src (videoRef1 (togglePlay bgm ok st)) = src (videoRef1 st) /\
  src (videoRef2 (togglePlay bgm ok st)) = src (videoRef2 st).
Proof.
  unfold togglePlay.
  destruct (isPlaying st), ok, (activePlayerId st); repeat split.
Qed.

Lemma togglePlay_slots bgm ok st :
  src (activeVideo (togglePlay bgm ok st)) = src (activeVideo st) /\
  src (inactivePlayer (togglePlay bgm ok st)) = src (inactivePlayer st).
Proof.
  destruct (togglePlay_keeps bgm ok st) as (_ & Ha & H1 & H2).
  unfold activeVideo, inactivePlayer. rewrite Ha.
  destruct (activePlayerId st); cbn [slot other]; auto.
Qed.

(** What [switchTo] does to the two slots. *)
Lemma switchTo_slots segs bgm next st :
  let st' := switchTo segs bgm next st in
  let preloadIndex :=
    match bgm with
    | Some _ => if (List.length segs <=? next + 1)%nat then 0%nat else (next + 1)%nat
    | None => (next + 1)%nat
    end in
  currentIndex st' = next /\
  activePlayerId st' = other (activePlayerId st) /\
  isPlaying st' = isPlaying st /\
  audioRef st' = audioRef st /\
  src (activeVideo st') = src (inactivePlayer st) /\
  paused (activeVideo st') = false /\
  src (inactivePlayer st')
    = (if (preloadIndex <? List.length segs)%nat then urlAt segs preloadIndex
       else src (activeVideo st)).
Proof.
  unfold switchTo, activeVideo, inactivePlayer.
  destruct (activePlayerId st); cbn [other slot currentIndex activePlayerId isPlaying
                                      audioRef videoRef1 videoRef2 andb];
    rewrite ?andb_true_r, ?andb_false_r;
    repeat (split; [reflexivity|]);
    match goal with |- context [(?a <? ?b)%nat] => destruct (a <? b)%nat end;
    repeat split.
Qed.

Lemma wrap_succ N k :
  (2 <= N)%nat ->
  (if (N <=? k mod N + 1)%nat then 0%nat else (k mod N + 1)%nat) = (S k mod N)%nat.
Proof.
  intros HN.
  assert (Hlt : (k mod N < N)%nat) by (apply Nat.mod_upper_bound; lia).
  replace (S k) with (k + 1)%nat by lia.
  rewrite (Nat.Div0.add_mod k 1 N).
  rewrite (Nat.mod_small 1 N) by lia.
  destruct (Nat.leb_spec N (k mod N + 1)) as [Hle|Hgt].
  - replace (k mod N + 1)%nat with N by lia. symmetry. apply Nat.Div0.mod_same.
  - symmetry. apply Nat.mod_small. lia.
Qed.

Lemma track_ended segs b st k :
  (2 <= List.length segs)%nat ->
  currentIndex st = (k mod List.length segs)%nat ->
  src (activeVideo st) = urlAt segs (k mod List.length segs) ->
  src (inactivePlayer st) = urlAt segs (S k mod List.length segs) ->
  let st' := handleVideoEnded segs (Some b) st in
  currentIndex st' = (S k mod List.length segs)%nat /\
  activePlayerId st' = other (activePlayerId st) /\
  src (activeVideo st') = urlAt segs (S k mod List.length segs) /\
  src (inactivePlayer st') = urlAt segs (S (S k) mod List.length segs) /\
  isPlaying st' = isPlaying st /\
  audioRef st' = audioRef st.
Proof.
  intros HN Hi Ha Hn st'. subst st'. unfold handleVideoEnded.
  rewrite Hi, wrap_succ by exact HN.
  destruct (switchTo_slots segs (Some b) (S k mod List.length segs) st)
    as (E1 & E2 & E3 & E4 & E5 & _ & E7).
  rewrite E1, E2, E3, E4, E5, E7, Hn.
  rewrite (wrap_succ (List.length segs) (S k)) by exact HN.
  assert (Hlt : (S (S k) mod List.length segs < List.length segs)%nat)
    by (apply Nat.mod_upper_bound; lia).
  apply Nat.ltb_lt in Hlt. rewrite Hlt. repeat split.
Qed.

Lemma mount_slots segs bgm st0 :
  let st := mount segs bgm st0 in
  currentIndex st = 0%nat /\ activePlayerId st = P1 /\ isPlaying st = false /\
  ((0 < List.length segs)%nat -> src (activeVideo st) = urlAt segs 0) /\
  ((1 < List.length segs)%nat -> src (inactivePlayer st) = urlAt segs 1) /\
  ((List.length segs <= 1)%nat -> src (inactivePlayer st) = src (videoRef2 st0)).
Proof.
  unfold mount, activeVideo, inactivePlayer.
  cbn [currentIndex activePlayerId isPlaying slot other videoRef1 videoRef2].
  repeat (split; [reflexivity|]). split; [|split]; intros H.
  - apply Nat.ltb_lt in H. rewrite H. reflexivity.
  - apply Nat.ltb_lt in H. rewrite H. reflexivity.
  - apply Nat.ltb_ge in H. rewrite H. reflexivity.
Qed.

(** X12: with a track attached and at least two segments, the preview
    loops through the segments for as long as the track has not ended,
    whatever the clicks in between: after k segments have ended the index
    is k mod N, the slots have alternated k times, the slot on show holds
    segment k mod N and the hidden slot already holds the one that comes
    next, (k+1) mod N. *)
Theorem track_loop_keeps_next_segment_loaded (segs : list VideoFile) (b : BgmFile)
    (st0 : State) (es : list Event) :
  (2 <= List.length segs)%nat ->
  forallb (fun e => negb (isAudioEnded e)) es = true ->
  let st := runEvents segs (Some b) st0 es in
  let k := endings es in
  currentIndex st = (k mod List.length segs)%nat /\
  activePlayerId st = (if Nat.even k then P1 else P2) /\
  src (activeVideo st) = urlAt segs (k mod List.length segs) /\
  src (inactivePlayer st) = urlAt segs (S k mod List.length segs).
Proof.
  intros HN. cbv zeta. rewrite <- iter_other_even.
  induction es as [|e es IH] using rev_ind; intros Hes.
  - destruct (mount_slots segs (Some b) st0) as (E1 & E2 & _ & E4 & E5 & _).
    unfold runEvents, endings. cbn [fold_left filter List.length Nat.iter].
    rewrite Nat.Div0.mod_0_l, (Nat.mod_small 1) by lia.
    rewrite E1, E2, E4, E5 by lia. repeat split.
  - rewrite forallb_app in Hes. apply andb_prop in Hes as [Hes He].
    destruct (IH Hes) as (I1 & I2 & I3 & I4).
    rewrite runEvents_snoc, endings_snoc.
    destruct e as [| |ok]; cbn [dispatch isVideoEnded]; [|discriminate|].
    + replace (endings es + 1)%nat with (S (endings es)) by lia.
      destruct (track_ended segs b _ _ HN I1 I3 I4) as (T1 & T2 & T3 & T4 & _).
      rewrite T1, T2, T3, T4, I2. repeat split.
    + rewrite Nat.add_0_r.
      destruct (togglePlay_keeps (Some b) ok (runEvents segs (Some b) st0 es))
        as (K1 & K2 & _).
      destruct (togglePlay_slots (Some b) ok (runEvents segs (Some b) st0 es))
        as (S1 & S2).
      rewrite K1, K2, S1, S2. auto.
Qed.

Lemma track_loop_keeps_next_segment_loaded_witness :
  let st := runEvents threeSegments (Some (sampleTrack 30)) freshPlayer
              [Click true; VideoEnded; VideoEnded; Click true; VideoEnded; VideoEnded] in
  currentIndex st = 1%nat /\ activePlayerId st = P1 /\
  src (activeVideo st) = Some "b" /\ src (inactivePlayer st) = Some "c".
Proof.
  apply (track_loop_keeps_next_segment_loaded threeSegments (sampleTrack 30) freshPlayer
           [Click true; VideoEnded; VideoEnded; Click true; VideoEnded; VideoEnded]).
  - cbn. lia.
  - reflexivity.
Defined.

(** *** Without a track *)

Lemma trackless_invariant segs st0 : forall es,
  (endings es < List.length segs)%nat ->
  let st := runEvents segs None st0 es in
  let k := endings es in
  currentIndex st = k /\
  activePlayerId st = Nat.iter k other P1 /\
  src (activeVideo st) = urlAt segs k /\
  ((k + 1 < List.length segs)%nat -> src (inactivePlayer st) = urlAt segs (k + 1)) /\
  ((k + 1 = List.length segs)%nat -> (1 <= k)%nat ->
   src (inactivePlayer st) = urlAt segs (k - 1)) /\
  ((List.length segs = 1)%nat -> src (inactivePlayer st) = src (videoRef2 st0)).
Proof.
  cbv zeta. induction es as [|e es IH] using rev_ind; intros Hk.
  - destruct (mount_slots segs None st0) as (E1 & E2 & _ & E4 & E5 & E6).
    unfold runEvents, endings in *. cbn [fold_left filter List.length Nat.iter] in *.
    rewrite E1, E2, E4 by lia.
    repeat split; intros; try lia; [apply E5; lia | apply E6; lia].
  - rewrite endings_snoc in Hk |- *. rewrite runEvents_snoc.
    destruct (IH ltac:(lia)) as (I1 & I2 & I3 & I4 & I5 & I6).
    destruct e as [| |ok]; cbn [dispatch isVideoEnded] in Hk |- *.
    + rewrite ended_inner by (rewrite I1; exact Hk).
      destruct (switchTo_slots segs None (currentIndex (runEvents segs None st0 es) + 1)
                  (runEvents segs None st0 es)) as (E1 & E2 & _ & _ & E5 & _ & E7).
      rewrite E1, E2, E5, E7, I1, I2, I3, I4 by lia.
      replace (endings es + 1)%nat with (S (endings es)) by lia.
      rewrite Nat.iter_succ. repeat split.
      * intros H. apply Nat.ltb_lt in H.
        replace (S (endings es) + 1)%nat with (S (endings es + 1)) in * by lia.
        now rewrite H.
      * intros H _. assert (H' : (S (endings es + 1) <? List.length segs)%nat = false)
          by (apply Nat.ltb_ge; lia).
        replace (S (endings es) + 1)%nat with (S (endings es + 1)) in * by lia.
        rewrite H'. f_equal. lia.
      * intros H. lia.
    + rewrite Nat.add_0_r in *. unfold handleAudioEnded.
      repeat split; assumption.
    + rewrite Nat.add_0_r in *.
      destruct (togglePlay_keeps None ok (runEvents segs None st0 es)) as (K1 & K2 & _).
      destruct (togglePlay_slots None ok (runEvents segs None st0 es)) as (S1 & S2).
      rewrite K1, K2, S1, S2. repeat split; assumption.
Qed.

(** X13: without a track, on the first play-through the next segment is
    always loaded in the hidden slot before the current one ends: after
    k < N segments have ended (whatever the clicks in between) the index
    is k, the slot on show holds segment k and, unless k is the last
    index, the hidden slot holds segment k+1. *)
Theorem trackless_next_segment_preloaded (segs : list VideoFile) (st0 : State)
    (es : list Event) :
  (endings es < List.length segs)%nat ->
  let st := runEvents segs None st0 es in
  let k := endings es in
  currentIndex st = k /\
  activePlayerId st = (if Nat.even k then P1 else P2) /\
  src (activeVideo st) = urlAt segs k /\
  ((k + 1 < List.length segs)%nat -> src (inactivePlayer st) = urlAt segs (k + 1)).
Proof.
  intros Hk. cbv zeta. rewrite <- iter_other_even.
  destruct (trackless_invariant segs st0 es Hk) as (I1 & I2 & I3 & I4 & _).
  auto.
Qed.

Lemma trackless_next_segment_preloaded_witness :
  let st := runEvents threeSegments None freshPlayer [Click true; VideoEnded] in
  currentIndex st = 1%nat /\ activePlayerId st = P2 /\
  src (activeVideo st) = Some "b" /\
  ((1 + 1 < 3)%nat -> src (inactivePlayer st) = Some "c").
Proof.
  apply (trackless_next_segment_preloaded threeSegments freshPlayer [Click true; VideoEnded]).
  cbn. lia.
Defined.

Lemma clicks_keep segs bgm : forall cs st,
  forallb isClick cs = true ->
  let st' := fold_left (dispatch segs bgm) cs st in
  currentIndex st' = currentIndex st /\
  activePlayerId st' = activePlayerId st /\
  src (videoRef1 st') = src (videoRef1 st) /\
  src (videoRef2 st') = src (videoRef2 st).
Proof.
  induction cs as [|c cs IH]; intros st Hcs; [repeat split|].
  cbn [forallb] in Hcs. apply andb_prop in Hcs as [Hc Hcs].
  destruct c as [| |ok]; try discriminate.
  cbn [fold_left dispatch].
  destruct (IH (togglePlay bgm ok st) Hcs) as (A1 & A2 & A3 & A4).
  destruct (togglePlay_keeps bgm ok st) as (K1 & K2 & K3 & K4).
  cbv zeta. rewrite A1, A2, A3, A4. auto.
Qed.

(** X14: without a track, once all N >= 2 segments have played the
    preview is idle again with segment 0 reloaded in the first slot, but
    the second slot keeps what it held last: the segment of the largest
    odd index (N-1 for even N, N-2 for odd N). On the replay the first
    ending shows that slot under index 1; it holds segment 1 only for
    N = 2 and N = 3. *)
Theorem replay_shows_stale_second_slot (segs : list VideoFile) (st0 : State)
    (es cs : list Event) :
  (2 <= List.length segs)%nat ->
  endings es = (List.length segs - 1)%nat ->
  forallb isClick cs = true ->
  let m := if Nat.even (List.length segs) then (List.length segs - 1)%nat
           else (List.length segs - 2)%nat in
  let st := runEvents segs None st0 (es ++ [VideoEnded]) in
  let st' := runEvents segs None st0 (es ++ [VideoEnded] ++ cs ++ [VideoEnded]) in
  Idle st /\
  src (videoRef1 st) = urlAt segs 0 /\
  src (videoRef2 st) = urlAt segs m /\
  currentIndex st' = 1%nat /\
  activePlayerId st' = P2 /\
  src (activeVideo st') = urlAt segs m.
Proof.
  intros HN Hk Hcs. cbv zeta.
  destruct (trackless_invariant segs st0 es ltac:(lia)) as (I1 & I2 & I3 & _ & I5 & _).
  rewrite iter_other_even in I2.
  assert (Hst : runEvents segs None st0 (es ++ [VideoEnded])
                = resetToStart segs (runEvents segs None st0 es)).
  { rewrite runEvents_snoc. cbn [dispatch]. apply ended_last. lia. }
  assert (H2 : src (videoRef2 (runEvents segs None st0 es))
               = urlAt segs (if Nat.even (List.length segs)
                             then (List.length segs - 1)%nat
                             else (List.length segs - 2)%nat)).
  { replace (List.length segs) with (S (endings es)) at 1 by lia.
    rewrite Nat.even_succ, <- Nat.negb_even.
    unfold activeVideo, inactivePlayer in *. rewrite I2 in *.
    destruct (Nat.even (endings es)); cbn [negb slot other] in *.
    - rewrite I5 by lia. f_equal. lia.
    - rewrite I3. f_equal. lia. }
  assert (A : Idle (runEvents segs None st0 (es ++ [VideoEnded])) /\
              src (videoRef1 (runEvents segs None st0 (es ++ [VideoEnded])))
                = urlAt segs 0 /\
              src (videoRef2 (runEvents segs None st0 (es ++ [VideoEnded])))
                = urlAt segs (if Nat.even (List.length segs)
                              then (List.length segs - 1)%nat
                              else (List.length segs - 2)%nat)).
  { rewrite Hst. split; [apply resetToStart_idle|]. split; [reflexivity|exact H2]. }
  destruct A as ((A0 & A1 & A2) & A3 & A4).
  split; [repeat split; assumption|]. split; [exact A3|]. split; [exact A4|].
  assert (Hst' : runEvents segs None st0 (es ++ [VideoEnded] ++ cs ++ [VideoEnded])
                 = handleVideoEnded segs None
                     (fold_left (dispatch segs None) cs
                        (runEvents segs None st0 (es ++ [VideoEnded])))).
  { unfold runEvents. rewrite !fold_left_app. reflexivity. }
  rewrite Hst'.
  destruct (clicks_keep segs None cs (runEvents segs None st0 (es ++ [VideoEnded])) Hcs)
    as (C1 & C2 & C3 & C4).
  set (sc := fold_left (dispatch segs None) cs
               (runEvents segs None st0 (es ++ [VideoEnded]))) in *.
  rewrite ended_inner by (rewrite C1, A1; lia).
  destruct (switchTo_slots segs None (currentIndex sc + 1) sc)
    as (E1 & E2 & _ & _ & E5 & _).
  rewrite E1, E2, E5, C1, C2, A1, A2.
  unfold inactivePlayer. rewrite C2, A2. cbn [other slot]. rewrite C4, A4.
  repeat split.
Qed.

Lemma replay_shows_stale_second_slot_witness :
  let st := runEvents fourSegments None freshPlayer
              ([VideoEnded; VideoEnded; VideoEnded] ++ [VideoEnded]) in
  let st' := runEvents fourSegments None freshPlayer
               ([VideoEnded; VideoEnded; VideoEnded] ++ [VideoEnded]
                ++ [Click true] ++ [VideoEnded]) in
  Idle st /\
  src (videoRef1 st) = Some "a" /\
  src (videoRef2 st) = Some "d" /\
  currentIndex st' = 1%nat /\
  activePlayerId st' = P2 /\
  src (activeVideo st') = Some "d".
Proof.
  apply (replay_shows_stale_second_slot fourSegments freshPlayer
           [VideoEnded; VideoEnded; VideoEnded] [Click true]).
  - cbn. lia.
  - reflexivity.
  - reflexivity.
Defined.

(** X15: one segment under a track: the mount effect loads the first
    slot only, and the first ending switches to the second slot all the
    same. The slot on show is then one the component has never given a
    source, whatever the clicks before and after. *)
Theorem single_segment_track_switches_to_unloaded_slot (seg : VideoFile) (b : BgmFile)
    (st0 : State) (cs1 cs2 : list Event) :
  forallb isClick cs1 = true ->
  forallb isClick cs2 = true ->
  let st := runEvents [seg] (Some b) st0 (cs1 ++ [VideoEnded] ++ cs2) in
  currentIndex st = 0%nat /\
  activePlayerId st = P2 /\
  src (activeVideo st) = src (videoRef2 st0) /\
  src (inactivePlayer st) = Some (video_url seg).
Proof.
  intros H1 H2. cbv zeta. unfold runEvents. rewrite !fold_left_app.
  destruct (clicks_keep [seg] (Some b) cs1 (mount [seg] (Some b) st0) H1)
    as (A1 & A2 & A3 & A4).
  set (s1 := fold_left (dispatch [seg] (Some b)) cs1 (mount [seg] (Some b) st0)) in *.
  cbn [fold_left dispatch].
  destruct (clicks_keep [seg] (Some b) cs2 (handleVideoEnded [seg] (Some b) s1) H2)
    as (B1 & B2 & B3 & B4).
  unfold activeVideo, inactivePlayer. rewrite B1, B2.
  unfold handleVideoEnded in *.
  destruct (switchTo_slots [seg] (Some b)
              (if (List.length [seg] <=? currentIndex s1 + 1)%nat then 0%nat
               else (currentIndex s1 + 1)%nat) s1) as (E1 & E2 & _ & _ & E5 & _ & E7).
  rewrite A1 in *. cbn [mount currentIndex List.length Nat.leb Nat.add] in *.
  rewrite E1, E2, A2. cbn [mount activePlayerId other slot].
  unfold activeVideo, inactivePlayer in E5, E7.
  rewrite E2, A2 in E5, E7. cbn [mount activePlayerId other slot] in E5, E7.
  rewrite B3, B4, E5, E7, A4. cbn. repeat split.
Qed.

Lemma single_segment_track_switches_to_unloaded_slot_witness :
  let st := runEvents oneSegment (Some (sampleTrack 30)) freshPlayer
              ([Click true] ++ [VideoEnded] ++ []) in
  currentIndex st = 0%nat /\
  activePlayerId st = P2 /\
  src (activeVideo st) = None /\
  src (inactivePlayer st) = Some "a".
Proof.
  apply (single_segment_track_switches_to_unloaded_slot (sampleSegment "a")
           (sampleTrack 30) freshPlayer [Click true] []); reflexivity.
Defined.

(** *** Any sequence of events *)

Lemma dispatch_index_in_range segs bgm st e :
  (currentIndex st < List.length segs)%nat ->
  (currentIndex (dispatch segs bgm st e) < List.length segs)%nat.
Proof.
  intros H. destruct e as [| |ok]; cbn [dispatch].
  - unfold handleVideoEnded.
    destruct bgm as [b|];
      destruct (Nat.leb_spec (List.length segs) (currentIndex st + 1));
      unfold switchTo, resetToStart, resetWith; cbn [currentIndex]; lia.
  - unfold handleAudioEnded. destruct bgm; [|exact H].
    unfold resetWith; cbn [currentIndex]. lia.
  - destruct (togglePlay_keeps bgm ok st) as (K & _). rewrite K. exact H.
Qed.

(** X16: with at least one segment, after the mount effect and any
    sequence of endings and clicks, with or without a track, the index
    points at a segment of the list; the player is rendered with that
    segment's name as its caption and that segment's overlay, if it has
    one, as the text on top. *)
Theorem preview_index_stays_in_range (segs : list VideoFile) (bgm : option BgmFile)
    (st0 : State) (es : list Event) :
  segs <> [] ->
  let st := runEvents segs bgm st0 es in
  exists seg v,
    nth_error segs (currentIndex st) = Some seg /\
    render segs bgm st = Some v /\
    caption v = Some (video_name seg) /\
    overlayView v = option_map (fun o => (overlayStyle o, text o)) (overlay seg).
Proof.
  intros Hne. cbv zeta.
  assert (Hlt : (currentIndex (runEvents segs bgm st0 es) < List.length segs)%nat).
  { induction es as [|e es IH] using rev_ind.
    - unfold runEvents. cbn [fold_left mount currentIndex].
      destruct segs; [congruence | cbn; lia].
    - rewrite runEvents_snoc. apply dispatch_index_in_range, IH. }
  destruct (nth_error segs (currentIndex (runEvents segs bgm st0 es))) as [seg|] eqn:E;
    [|apply nth_error_None in E; lia].
  destruct segs as [|s0 segs]; [congruence|].
  eexists seg, _. split; [reflexivity|]. unfold render. rewrite E.
  split; [reflexivity|]. split; reflexivity.
Qed.

Lemma preview_index_stays_in_range_witness :
  let st := runEvents threeSegments (Some (sampleTrack 30)) freshPlayer
              [Click true; VideoEnded; VideoEnded; VideoEnded; AudioEnded; Click false] in
  exists seg v,
    nth_error threeSegments (currentIndex st) = Some seg /\
    render threeSegments (Some (sampleTrack 30)) st = Some v /\
    caption v = Some (video_name seg) /\
    overlayView v = option_map (fun o => (overlayStyle o, text o)) (overlay seg).
Proof.
  apply (preview_index_stays_in_range threeSegments (Some (sampleTrack 30)) freshPlayer
           [Click true; VideoEnded; VideoEnded; VideoEnded; AudioEnded; Click false]).
  discriminate.
Defined.

Lemma dispatch_lockstep segs b st e :
  isRejectedClick e = false ->
  paused (audioRef st) = negb (isPlaying st) ->
  (isPlaying st = true -> paused (activeVideo st) = false) ->
  let st' := dispatch segs (Some b) st e in
  paused (audioRef st') = negb (isPlaying st') /\
  (isPlaying st' = true -> paused (activeVideo st') = false).
Proof.
  intros He Ha Hv. destruct e as [| |[|]]; cbn [dispatch]; try discriminate.
  - unfold handleVideoEnded.
    match goal with |- context [switchTo segs (Some b) ?n st] =>
      destruct (switchTo_slots segs (Some b) n st) as (_ & _ & E3 & E4 & _ & E6 & _)
    end.
    cbv zeta. rewrite E3, E4. auto.
  - unfold handleAudioEnded, resetWith. cbn. split; [reflexivity | discriminate].
  - unfold togglePlay, activeVideo in *.
    destruct (isPlaying st) eqn:Ep; cbn; [split; [reflexivity | discriminate]|].
    split; [reflexivity|]. intros _. destruct (activePlayerId st); reflexivity.
Qed.

(** X17: with a track attached, as long as no [play()] started by a
    click is rejected, the track runs exactly while the preview counts as
    playing, and the slot on show is not paused then. This holds after
    the mount effect and any sequence of endings and accepted clicks. A
    rejected click breaks it: the track starts although the preview
    stays marked as not playing. *)
Theorem track_plays_iff_preview_playing (segs : list VideoFile) (b : BgmFile)
    (st0 : State) (es : list Event) :
  forallb (fun e => negb (isRejectedClick e)) es = true ->
  let st := runEvents segs (Some b) st0 es in
  let st' := dispatch segs (Some b) st (Click false) in
  paused (audioRef st) = negb (isPlaying st) /\
  (isPlaying st = true -> paused (activeVideo st) = false) /\
  (isPlaying st = false ->
   isPlaying st' = false /\ paused (audioRef st') = false).
Proof.
  intros Hes. cbv zeta.
  assert (Inv : paused (audioRef (runEvents segs (Some b) st0 es))
                  = negb (isPlaying (runEvents segs (Some b) st0 es)) /\
                (isPlaying (runEvents segs (Some b) st0 es) = true ->
                 paused (activeVideo (runEvents segs (Some b) st0 es)) = false)).
  { induction es as [|e es IH] using rev_ind.
    - unfold runEvents. cbn. split; [reflexivity | discriminate].
    - rewrite forallb_app in Hes. apply andb_prop in Hes as [Hes He].
      cbn [forallb] in He. rewrite andb_true_r in He. apply negb_true_iff in He.
      rewrite runEvents_snoc. destruct (IH Hes) as (I1 & I2).
      apply dispatch_lockstep; assumption. }
  destruct Inv as (I1 & I2). split; [exact I1|]. split; [exact I2|].
  intros Hp. cbn [dispatch]. unfold togglePlay. rewrite Hp. cbn. auto.
Qed.

Lemma track_plays_iff_preview_playing_witness :
  let st := runEvents threeSegments (Some (sampleTrack 30)) freshPlayer
              [Click true; VideoEnded; Click true] in
  let st' := dispatch threeSegments (Some (sampleTrack 30)) st (Click false) in
  paused (audioRef st) = negb (isPlaying st) /\
  (isPlaying st = true -> paused (activeVideo st) = false) /\
  (isPlaying st = false ->
   isPlaying st' = false /\ paused (audioRef st') = false).
Proof.
  apply (track_plays_iff_preview_playing threeSegments (sampleTrack 30) freshPlayer
           [Click true; VideoEnded; Click true]).
  reflexivity.
Defined.

End PlayerMore.

Module WorkspaceFacts.
Import Main Workspace Panel Samples MoreSamples.
Local Open Scope string_scope.
Local Open Scope list_scope.

(** *** The timeline *)

Lemma nth_mid0 (l1 r : list string) (a : string) :
  nth_error (l1 ++ a :: r) (List.length l1) = Some a.
Proof. induction l1; [reflexivity | exact IHl1]. Qed.

Lemma nth_mid1 (l1 r : list string) (a b : string) :
  nth_error (l1 ++ a :: b :: r) (S (List.length l1)) = Some b.
Proof. induction l1; [reflexivity | exact IHl1]. Qed.

Lemma assign_mid0 (l1 r : list string) (a v : string) :
  assign (l1 ++ a :: r) (List.length l1) v = l1 ++ v :: r.
Proof. induction l1 as [|x l1 IH]; [reflexivity|]. simpl. f_equal. exact IH. Qed.

Lemma assign_mid1 (l1 r : list string) (a b v : string) :
  assign (l1 ++ a :: b :: r) (S (List.length l1)) v = l1 ++ a :: v :: r.
Proof. induction l1 as [|x l1 IH]; [reflexivity|]. simpl. f_equal. exact IH. Qed.

Lemma swap_neighbours (l1 l2 : list string) (a b : string) :
  swap (l1 ++ a :: b :: l2) (S (List.length l1)) (List.length l1)
    = Some (l1 ++ b :: a :: l2) /\
  swap (l1 ++ a :: b :: l2) (List.length l1) (S (List.length l1))
    = Some (l1 ++ b :: a :: l2).
Proof.
  unfold swap. rewrite nth_mid0, nth_mid1. split.
  - rewrite assign_mid1, assign_mid0. reflexivity.
  - rewrite assign_mid0, assign_mid1. reflexivity.
Qed.

Lemma split_at (l : list string) (i : nat) :
  (S i < List.length l)%nat ->
  exists l1 a b l2, l = l1 ++ a :: b :: l2 /\ List.length l1 = i.
Proof.
  intros H. exists (firstn i l).
  destruct (skipn i l) as [|a [|b l2]] eqn:E.
  - apply (f_equal (@List.length _)) in E. rewrite length_skipn in E. cbn in E. lia.
  - apply (f_equal (@List.length _)) in E. rewrite length_skipn in E. cbn in E. lia.
  - exists a, b, l2. split.
    + rewrite <- E. symmetry. apply firstn_skipn.
    + apply firstn_length_le. lia.
Qed.

Lemma setSequence_same (st : State) : setSequence (sequence st) st = st.
Proof. destruct st; reflexivity. Qed.

Lemma setSequence_twice (s s' : list string) (st : State) :
  setSequence s (setSequence s' st) = setSequence s st.
Proof. reflexivity. Qed.

(** X18: moving a timeline entry up by one exchanges it with the entry
    before it and touches nothing else: the timeline keeps its entries (it
    is a permutation of the old one), and moving the entry, now at
    index - 1, down again gives the old state back. *)
Theorem move_up_exchanges_neighbours (index : nat) (st : State) :
  (0 < index)%nat -> (index < List.length (sequence st))%nat ->
  exists st',
    moveSequenceItem index up st = Some st' /\
    Permutation (sequence st) (sequence st') /\
    nth_error (sequence st') (index - 1) = nth_error (sequence st) index /\
    nth_error (sequence st') index = nth_error (sequence st) (index - 1) /\
    (forall k, k <> index -> k <> (index - 1)%nat ->
       nth_error (sequence st') k = nth_error (sequence st) k) /\
    folders st' = folders st /\ shared st' = shared st /\
    moveSequenceItem (index - 1) down st' = Some st.
Proof.
  intros H0 Hlt.
  destruct (split_at (sequence st) (index - 1) ltac:(lia)) as (l1 & a & b & l2 & E & Hl).
  destruct (swap_neighbours l1 l2 a b) as (Su & _).
  destruct (swap_neighbours l1 l2 b a) as (_ & Sd).
  assert (Hi : index = S (List.length l1)) by lia.
  exists (setSequence (l1 ++ b :: a :: l2) st).
  assert (Hup : moveSequenceItem index up st = Some (setSequence (l1 ++ b :: a :: l2) st)).
  { unfold moveSequenceItem. destruct (Nat.ltb_spec 0 index); [|lia].
    rewrite E, Hi. cbn [Nat.sub]. rewrite Nat.sub_0_r, Su. reflexivity. }
  split; [exact Hup|]. cbn [setSequence sequence folders shared]. rewrite E.
  split; [apply Permutation_app_head, perm_swap|].
  rewrite Hi. cbn [Nat.sub]. rewrite Nat.sub_0_r.
  split; [|split; [|split; [|split; [reflexivity|split; [reflexivity|]]]]].
  - now rewrite nth_mid0, nth_mid1.
  - now rewrite nth_mid0, nth_mid1.
  - intros k K1 K2. destruct (Nat.lt_ge_cases k (List.length l1)) as [Hk|Hk].
    + rewrite !nth_error_app1 by exact Hk. reflexivity.
    + rewrite !nth_error_app2 by exact Hk.
      destruct (k - List.length l1)%nat as [|[|m]] eqn:Em; [lia | lia | reflexivity].
  - unfold moveSequenceItem. cbn [sequence setSequence].
    rewrite length_app. cbn [List.length].
    destruct (Z.ltb_spec (Z.of_nat (List.length l1))
                (Z.of_nat (List.length l1 + S (S (List.length l2))) - 1)) as [_|Hc];
      [|lia].
    replace (List.length l1 + 1)%nat with (S (List.length l1)) by lia.
    rewrite Sd. cbn [option_map]. rewrite setSequence_twice, <- E.
    now rewrite setSequence_same.
Qed.

Lemma move_up_exchanges_neighbours_witness :
  exists st',
    moveSequenceItem 1 up sampleWorkspace = Some st' /\
    Permutation (sequence sampleWorkspace) (sequence st') /\
    nth_error (sequence st') (1 - 1) = nth_error (sequence sampleWorkspace) 1 /\
    nth_error (sequence st') 1 = nth_error (sequence sampleWorkspace) (1 - 1) /\
    (forall k, k <> 1%nat -> k <> (1 - 1)%nat ->
       nth_error (sequence st') k = nth_error (sequence sampleWorkspace) k) /\
    folders st' = folders sampleWorkspace /\ shared st' = shared sampleWorkspace /\
    moveSequenceItem (1 - 1) down st' = Some sampleWorkspace.
Proof.
  apply (move_up_exchanges_neighbours 1 sampleWorkspace); cbn; lia.
Defined.

(** X19: at the ends of the timeline a move changes nothing: up at
    index 0, down at the last index or beyond. Up at an index beyond the
    last entry is the one call that leaves the array of strings (it would
    write [undefined] into it); the arrows never make that call. *)
Theorem move_at_the_ends (index : nat) (st : State) :
  moveSequenceItem 0 up st = Some st /\
  ((List.length (sequence st) <= index + 1)%nat ->
   moveSequenceItem index down st = Some st) /\
  ((0 < index)%nat -> (List.length (sequence st) <= index)%nat ->
   moveSequenceItem index up st = None) /\
  ((index < List.length (sequence st))%nat ->
   forall d, moveSequenceItem index d st <> None).
Proof.
  unfold moveSequenceItem. split; [|split; [|split]].
  - cbn. now rewrite setSequence_same.
  - intros H.
    destruct (Z.ltb_spec (Z.of_nat index) (Z.of_nat (List.length (sequence st)) - 1));
      [lia|]. cbn. now rewrite setSequence_same.
  - intros H0 H. destruct (Nat.ltb_spec 0 index); [|lia].
    unfold swap. apply nth_error_None in H. rewrite H. reflexivity.
  - intros H d. destruct d.
    + destruct (Nat.ltb_spec 0 index); [|discriminate].
      unfold swap.
      destruct (nth_error (sequence st) index) eqn:E1;
        [|apply nth_error_None in E1; lia].
      destruct (nth_error (sequence st) (index - 1)) eqn:E2;
        [discriminate | apply nth_error_None in E2; lia].
    + destruct (Z.ltb_spec (Z.of_nat index) (Z.of_nat (List.length (sequence st)) - 1));
        [|discriminate].
      unfold swap.
      destruct (nth_error (sequence st) index) eqn:E1;
        [|apply nth_error_None in E1; lia].
      destruct (nth_error (sequence st) (index + 1)) eqn:E2;
        [discriminate | apply nth_error_None in E2; lia].
Qed.

Lemma move_at_the_ends_witness :
  moveSequenceItem 0 up sampleWorkspace = Some sampleWorkspace /\
  moveSequenceItem 2 down sampleWorkspace = Some sampleWorkspace /\
  moveSequenceItem 3 up sampleWorkspace = None /\
  moveSequenceItem 1 down sampleWorkspace <> None.
Proof.
  destruct (move_at_the_ends 2 sampleWorkspace) as (A & B & _ & _).
  destruct (move_at_the_ends 3 sampleWorkspace) as (_ & _ & C & _).
  destruct (move_at_the_ends 1 sampleWorkspace) as (_ & _ & _ & D).
  split; [exact A|]. split; [apply B; cbn; lia|].
  split; [apply C; cbn; lia|]. apply D. cbn; lia.
Defined.

(** *** What the buttons keep true *)

Lemma find_filter_other (fs : list SourceFolder) (id fid : string) :
  fid <> id ->
  find (fun f => folder_id f =? fid) (filter (fun f => negb (folder_id f =? id)) fs)
    = find (fun f => folder_id f =? fid) fs.
Proof.
  intros Hne. induction fs as [|a fs IH]; [reflexivity|]. cbn [filter find].
  destruct (String.eqb_spec (folder_id a) id) as [E|E]; cbn [negb find].
  - destruct (String.eqb_spec (folder_id a) fid) as [E2|E2]; [congruence | exact IH].
  - destruct (folder_id a =? fid); [reflexivity | exact IH].
Qed.

Lemma find_map_same_id (g : SourceFolder -> SourceFolder) (fs : list SourceFolder)
    (fid : string) :
  (forall f, folder_id (g f) = folder_id f) ->
  find (fun f => folder_id f =? fid) (map g fs)
    = option_map g (find (fun f => folder_id f =? fid) fs).
Proof.
  intros Hg. induction fs as [|a fs IH]; [reflexivity|]. cbn [map find].
  rewrite Hg. destruct (folder_id a =? fid); [reflexivity | exact IH].
Qed.

Lemma usable_found (fs : list SourceFolder) (folder : SourceFolder) :
  forallb (fun f => negb (Nat.eqb (List.length (files f)) 0)) fs = true ->
  In folder fs ->
  usable fs (folder_id folder) = true.
Proof.
  intros Hf Hin. unfold usable.
  destruct (find (fun f => folder_id f =? folder_id folder) fs) as [f|] eqn:E.
  - apply find_some in E as [Hinf _].
    rewrite forallb_forall in Hf. exact (Hf f Hinf).
  - exfalso. apply (find_none _ _ E) in Hin. now rewrite String.eqb_refl in Hin.
Qed.

Lemma forallb_perm {A : Type} (p : A -> bool) (l l' : list A) :
  Permutation l l' -> forallb p l = true -> forallb p l' = true.
Proof.
  intros HP H. rewrite forallb_forall in *. intros x Hx.
  apply H. apply (Permutation_in x (Permutation_sym HP) Hx).
Qed.

Lemma in_spliced (l : list string) : forall n x,
  In x (firstn n l ++ skipn (S n) l) -> In x l.
Proof.
  induction l as [|a l IH]; intros n x H.
  - destruct n; exact H.
  - destruct n; simpl in H.
    + right. exact H.
    + destruct H as [->|H]; [left; reflexivity | right; exact (IH n x H)].
Qed.

Lemma moveSequenceItem_permutes (index : nat) (d : Direction) (st st' : State) :
  moveSequenceItem index d st = Some st' ->
  Permutation (sequence st) (sequence st') /\ st' = setSequence (sequence st') st.
Proof.
  unfold moveSequenceItem. intros H.
  assert (Hsw : forall i j, (i = S j \/ j = S i) -> forall s,
             swap (sequence st) i j = Some s -> Permutation (sequence st) s).
  { intros i j Hij s Hs.
    assert (Hlen : (i < List.length (sequence st))%nat /\
                   (j < List.length (sequence st))%nat).
    { unfold swap in Hs. split; apply nth_error_Some; intros E; rewrite E in Hs;
        [discriminate | destruct (nth_error (sequence st) i); discriminate]. }
    destruct Hij as [->| ->].
    - destruct (split_at (sequence st) j ltac:(lia)) as (l1 & a & b & l2 & E & Hl).
      destruct (swap_neighbours l1 l2 a b) as (Su & _).
      rewrite E, <- Hl, Su in Hs. injection Hs as <-. rewrite E.
      apply Permutation_app_head, perm_swap.
    - destruct (split_at (sequence st) i ltac:(lia)) as (l1 & a & b & l2 & E & Hl).
      destruct (swap_neighbours l1 l2 a b) as (_ & Sd).
      rewrite E, <- Hl, Sd in Hs. injection Hs as <-. rewrite E.
      apply Permutation_app_head, perm_swap. }
  destruct d.
  - destruct (Nat.ltb_spec 0 index).
    + destruct (swap (sequence st) index (index - 1)) as [s|] eqn:Es; [|discriminate].
      injection H as <-. split; [|reflexivity].
      apply (Hsw index (index - 1)%nat); [left; lia | exact Es].
    + injection H as <-. split; [apply Permutation_refl | reflexivity].
  - destruct (Z.of_nat index <? Z.of_nat (List.length (sequence st)) - 1)%Z.
    + destruct (swap (sequence st) index (index + 1)) as [s|] eqn:Es; [|discriminate].
      injection H as <-. split; [|reflexivity].
      apply (Hsw index (index + 1)%nat); [right; lia | exact Es].
    + injection H as <-. split; [apply Permutation_refl | reflexivity].
Qed.

Lemma rewriteOverlay_folders (o : option OverlayConfig) (st : State) :
  sequence (rewriteOverlay o st) = sequence st /\
  folders (rewriteOverlay o st)
    = match editingFolder st with
      | Some editing =>
          map (fun f => if folder_id f =? folder_id editing
                        then withFiles (map (withOverlay o) (files f)) f
                        else f) (folders st)
      | None => folders st
      end.
Proof.
  unfold rewriteOverlay. destruct (editingFolder st) as [editing|]; [|auto].
  cbv zeta. cbn [activeComposition setResults setShared setFolders].
  destruct (activeComposition st); split; reflexivity.
Qed.

Lemma rewriteOverlay_keeps (o : option OverlayConfig) (st : State) :
  sequence (rewriteOverlay o st) = sequence st /\
  (foldersFilled st = true -> foldersFilled (rewriteOverlay o st) = true) /\
  forall fid, usable (folders (rewriteOverlay o st)) fid = usable (folders st) fid.
Proof.
  destruct (rewriteOverlay_folders o st) as (Hs & Hf).
  split; [exact Hs|]. unfold foldersFilled. rewrite Hf.
  destruct (editingFolder st) as [editing|]; [|auto]. split.
  - rewrite !forallb_forall.
    intros H f Hin. apply in_map_iff in Hin as (f0 & <- & Hf0).
    specialize (H f0 Hf0).
    destruct (folder_id f0 =? folder_id editing); [|exact H].
    cbn [withFiles files]. rewrite length_map. exact H.
  - intros fid. unfold usable.
    rewrite find_map_same_id
      by (intros f; destruct (folder_id f =? folder_id editing); reflexivity).
    destruct (find (fun f => folder_id f =? fid) (folders st)) as [f|];
      [|reflexivity]. cbn [option_map].
    destruct (folder_id f =? folder_id editing); [|reflexivity].
    cbn [withFiles files]. now rewrite length_map.
Qed.

(** X20: whatever is clicked in the editing panel (adding folders to the
    timeline, deleting folders, moving and removing entries, editing,
    saving and removing overlays), if no folder is empty and every
    timeline entry names a folder before, the same holds after: a deleted
    folder takes its timeline entries with it, and nothing else can
    invalidate an entry. *)
Theorem panel_keeps_timeline_usable (st : State) (es : list Edit) :
  foldersFilled st = true ->
  timelineUsable st = true ->
  foldersFilled (clicks st es) = true /\ timelineUsable (clicks st es) = true.
Proof.
  unfold clicks. revert st.
  induction es as [|e es IH]; intros st Hf Ht; [auto|].
  cbn [fold_left]. apply IH; clear IH.
  - (* folders *)
    destruct e; cbn [click]; try exact Hf.
    + destruct (nth_error (folders st) k); exact Hf.
    + destruct (nth_error (folders st) k) as [folder|]; [|exact Hf].
      unfold foldersFilled, removeFolder in *. cbn [setSequence setFolders folders].
      rewrite forallb_forall in *. intros f Hin. apply filter_In in Hin as [Hin _].
      exact (Hf f Hin).
    + destruct (entryRendered index st && negb (arrowDisabled index d st)); [|exact Hf].
      destruct (moveSequenceItem index d st) as [st'|] eqn:E; [|exact Hf].
      apply moveSequenceItem_permutes in E as [_ ->]. exact Hf.
    + destruct (entryRendered index st); exact Hf.
    + destruct (nth_error (folders st) k); exact Hf.
    + destruct (editingFolder st); exact Hf.
    + destruct (editingFolder st); [|exact Hf].
      now apply rewriteOverlay_keeps.
    + destruct (editingFolder st); [|exact Hf].
      now apply rewriteOverlay_keeps.
  - (* timeline *)
    destruct e; cbn [click]; try exact Ht.
    + destruct (nth_error (folders st) k) as [folder|] eqn:E; [|exact Ht].
      unfold timelineUsable, addToSequence in *. cbn [setSequence sequence folders].
      rewrite forallb_app, Ht. cbn [forallb andb]. rewrite andb_true_r.
      apply usable_found; [exact Hf | exact (nth_error_In _ _ E)].
    + destruct (nth_error (folders st) k) as [folder|]; [|exact Ht].
      unfold timelineUsable, removeFolder in *. cbn [setSequence setFolders sequence folders].
      rewrite forallb_forall in *. intros fid Hin. apply filter_In in Hin as [Hin Hne].
      unfold usable. rewrite find_filter_other.
      * exact (Ht fid Hin).
      * intros ->. now rewrite String.eqb_refl in Hne.
    + destruct (entryRendered index st && negb (arrowDisabled index d st)); [|exact Ht].
      destruct (moveSequenceItem index d st) as [st'|] eqn:E; [|exact Ht].
      apply moveSequenceItem_permutes in E as [HP ->].
      unfold timelineUsable in *. cbn [setSequence sequence folders].
      exact (forallb_perm _ _ _ HP Ht).
    + destruct (entryRendered index st); [|exact Ht].
      unfold timelineUsable, removeFromSequence in *. cbn [setSequence sequence folders].
      rewrite forallb_forall in *. intros fid Hin. apply Ht.
      exact (in_spliced _ _ _ Hin).
    + destruct (nth_error (folders st) k); exact Ht.
    + destruct (editingFolder st); exact Ht.
    + destruct (editingFolder st); [|exact Ht].
      destruct (rewriteOverlay_keeps (Some (tempOverlay st)) st) as (Hs & _ & Hu).
      unfold timelineUsable, saveOverlay in *. rewrite Hs.
      rewrite forallb_forall in *. intros fid Hin. rewrite Hu. exact (Ht fid Hin).
    + destruct (editingFolder st); [|exact Ht].
      destruct (rewriteOverlay_keeps None st) as (Hs & _ & Hu).
      unfold timelineUsable, removeOverlayFromFolder in *. rewrite Hs.
      rewrite forallb_forall in *. intros fid Hin. rewrite Hu. exact (Ht fid Hin).
Qed.

Lemma panel_keeps_timeline_usable_witness :
  foldersFilled (clicks sampleWorkspace
                   [MoveEntry 1 up; DeleteFolder 1; AddFolderToTimeline 0;
                    OpenEditor 0; SaveOverlay; RemoveEntry 0]) = true /\
  timelineUsable (clicks sampleWorkspace
                    [MoveEntry 1 up; DeleteFolder 1; AddFolderToTimeline 0;
                     OpenEditor 0; SaveOverlay; RemoveEntry 0]) = true.
Proof.
  apply (panel_keeps_timeline_usable sampleWorkspace
           [MoveEntry 1 up; DeleteFolder 1; AddFolderToTimeline 0;
            OpenEditor 0; SaveOverlay; RemoveEntry 0]); reflexivity.
Defined.

End WorkspaceFacts.

Module GenerationFacts.
Import Main Workspace Panel Samples MoreSamples.
Local Open Scope string_scope.
Local Open Scope list_scope.

(** [Math.random] answers in [0, 1). *)
Lemma floor_pick {A : Type} (l : list A) (r : Q) :
  (0 <= r)%Q -> (r < 1)%Q -> l <> [] ->
  exists x, at_ l (Qfloor (r * inject_Z (Z.of_nat (List.length l)))) = Some x /\ In x l.
Proof.
  intros H0 H1 Hne. unfold at_.
  set (n := List.length l) in *.
  assert (Hn : (0 < n)%nat) by (destruct l; [congruence | cbn; lia]).
  assert (HnQ : (0 < inject_Z (Z.of_nat n))%Q)
    by (change 0%Q with (inject_Z 0); rewrite <- Zlt_Qlt; lia).
  assert (Hlo : (0 <= Qfloor (r * inject_Z (Z.of_nat n)))%Z).
  { change 0%Z with (Qfloor 0). apply Qfloor_resp_le. nra. }
  assert (Hhi : (Qfloor (r * inject_Z (Z.of_nat n)) < Z.of_nat n)%Z).
  { rewrite Zlt_Qlt. apply Qle_lt_trans with (r * inject_Z (Z.of_nat n))%Q;
      [apply Qfloor_le | nra]. }
  destruct (Z.ltb_spec (Qfloor (r * inject_Z (Z.of_nat n))) 0); [lia|].
  destruct (nth_error l (Z.to_nat (Qfloor (r * inject_Z (Z.of_nat n))))) as [x|] eqn:E.
  - exists x. split; [reflexivity | exact (nth_error_In _ _ E)].
  - apply nth_error_None in E. fold n in E. lia.
Qed.

Section Generation.

Variable env : GenEnv.
Variable fs : list SourceFolder.
Hypothesis random_range : forall n, (0 <= random env n)%Q /\ (random env n < 1)%Q.

Lemma pickSegments_usable : forall seq n segs,
  forallb (usable fs) seq = true ->
  exists picked,
    pickSegments env fs seq n segs = Some ((n + List.length seq)%nat, Some (segs ++ picked)) /\
    Forall2 (fun folderId seg =>
               exists folder, find (fun f => folder_id f =? folderId) fs = Some folder /\
                              In seg (files folder)) seq picked.
Proof.
  induction seq as [|folderId seq IH]; intros n segs Hu.
  - exists []. cbn. rewrite Nat.add_0_r, app_nil_r. split; [reflexivity | constructor].
  - cbn [forallb] in Hu. apply andb_prop in Hu as [Hu1 Hu].
    unfold usable in Hu1. cbn [pickSegments].
    destruct (find (fun f => folder_id f =? folderId) fs) as [folder|] eqn:Ef;
      [|discriminate].
    destruct (files folder) as [|f0 rest] eqn:Efiles; [discriminate|].
    destruct (random_range n) as [R0 R1].
    destruct (floor_pick (f0 :: rest) (random env n) R0 R1 ltac:(discriminate))
      as (x & Hx & Hin).
    rewrite Hx.
    destruct (IH (S n) (segs ++ [x]) Hu) as (picked & Hp & HF).
    exists (x :: picked). split.
    + rewrite Hp, <- app_assoc. cbn [List.length app].
      replace (n + S (List.length seq))%nat with (S n + List.length seq)%nat by lia.
      reflexivity.
    + constructor; [|exact HF]. exists folder. rewrite Efiles. auto.
Qed.

Lemma pickSegments_unusable : forall seq n segs,
  forallb (usable fs) seq = false ->
  exists n', pickSegments env fs seq n segs = Some (n', None).
Proof.
  induction seq as [|folderId seq IH]; intros n segs Hu; [discriminate|].
  cbn [forallb] in Hu. cbn [pickSegments]. unfold usable in Hu.
  destruct (find (fun f => folder_id f =? folderId) fs) as [folder|] eqn:Ef;
    [|eauto].
  destruct (files folder) as [|f0 rest] eqn:Efiles; [eauto|].
  cbn [List.length Nat.eqb negb andb] in Hu.
  destruct (random_range n) as [R0 R1].
  destruct (floor_pick (f0 :: rest) (random env n) R0 R1 ltac:(discriminate))
    as (x & Hx & Hin).
  rewrite Hx. apply IH. exact Hu.
Qed.

Lemma generateLoop_usable (seq : list string) (resultsLength : nat) :
  forallb (usable fs) seq = true ->
  forall count i n acc,
  exists new,
    generateLoop env fs seq resultsLength count i n acc = Some (acc ++ new) /\
    List.length new = count /\
    map comp_name new
      = map (fun j => "混剪作品 #" ++ showNat (resultsLength + j + 1))%string
            (List.seq i count) /\
    Forall (fun c =>
              Forall2 (fun folderId seg =>
                         exists folder,
                           find (fun f => folder_id f =? folderId) fs = Some folder /\
                           In seg (files folder)) seq (segments c) /\
              aiTitle c = None /\ aiDescription c = None) new.
Proof.
  intros Hu. induction count as [|count IH]; intros i n acc.
  - exists []. cbn. rewrite app_nil_r. repeat split. constructor.
  - cbn [generateLoop].
    destruct (pickSegments_usable seq n [] Hu) as (picked & Hp & HF).
    rewrite Hp. cbn [List.app].
    match goal with |- context [generateLoop _ _ _ _ _ _ ?n' (acc ++ [?c])] =>
      destruct (IH (S i) n' (acc ++ [c])) as (new & Hg & Hl & Hn & Hs);
      exists (c :: new)
    end.
    split; [rewrite Hg, <- app_assoc; reflexivity|].
    split; [cbn; lia|].
    split; [cbn [map List.seq comp_name]; now rewrite Hn|].
    constructor; [|exact Hs]. cbn [segments aiTitle aiDescription]. auto.
Qed.

Lemma generateLoop_unusable (seq : list string) (resultsLength : nat) :
  forallb (usable fs) seq = false ->
  forall count i n acc,
    generateLoop env fs seq resultsLength count i n acc = Some acc.
Proof.
  intros Hu. induction count as [|count IH]; intros i n acc; [reflexivity|].
  cbn [generateLoop].
  destruct (pickSegments_unusable seq n [] Hu) as (n' & ->). apply IH.
Qed.

End Generation.

(** X21: a generation that was started while every timeline entry names
    a folder with files produces exactly the requested number of
    compositions (none for a count that is not a positive number). Each
    has one segment per timeline entry, in timeline order, taken from the
    folder the entry names, and no title or description yet; they are
    numbered on from the number of results there were when the generation
    was started and put in front of the results of the moment; the first
    of them becomes the composition on show. *)
Theorem generation_fills_every_timeline_entry (env : GenEnv) (armed st : State) :
  (forall n, (0 <= random env n)%Q /\ (random env n < 1)%Q) ->
  timelineUsable armed = true ->
  exists new st',
    generateTimer env armed st = Some st' /\
    results (shared st') = new ++ results (shared st) /\
    List.length new = rounds (generationCount armed) /\
    map comp_name new
      = map (fun j => "混剪作品 #"
                      ++ showNat (List.length (results (shared armed)) + j + 1))%string
            (List.seq 0 (rounds (generationCount armed))) /\
    Forall (fun c =>
              Forall2 (fun folderId seg =>
                         exists folder,
                           getFolderById folderId armed = Some folder /\
                           In seg (files folder))
                      (sequence armed) (segments c) /\
              aiTitle c = None /\ aiDescription c = None) new /\
    isGenerating st' = false /\
    activeComposition st' = match new with
                            | first :: _ => Some first
                            | [] => activeComposition st
                            end /\
    folders st' = folders st /\ sequence st' = sequence st /\
    selectedIds (shared st') = selectedIds (shared st).
Proof.
  intros Hr Hu. unfold generateTimer.
  destruct (generateLoop_usable env (folders armed) Hr (sequence armed)
              (List.length (results (shared armed))) Hu
              (rounds (generationCount armed)) 0 0 [])
    as (new & Hg & Hl & Hn & Hs).
  rewrite Hg. cbn [List.app].
  eexists new, _. split; [reflexivity|].
  destruct new as [|first new]; cbn; repeat split; auto.
Qed.

Lemma generation_fills_every_timeline_entry_witness :
  exists new st',
    generateTimer sampleGen sampleWorkspace sampleWorkspace = Some st' /\
    results (shared st') = new ++ results (shared sampleWorkspace) /\
    List.length new = rounds (generationCount sampleWorkspace) /\
    map comp_name new
      = map (fun j => "混剪作品 #"
                      ++ showNat (List.length (results (shared sampleWorkspace)) + j + 1))%string
            (List.seq 0 (rounds (generationCount sampleWorkspace))) /\
    Forall (fun c =>
              Forall2 (fun folderId seg =>
                         exists folder,
                           getFolderById folderId sampleWorkspace = Some folder /\
                           In seg (files folder))
                      (sequence sampleWorkspace) (segments c) /\
              aiTitle c = None /\ aiDescription c = None) new /\
    isGenerating st' = false /\
    activeComposition st' = match new with
                            | first :: _ => Some first
                            | [] => activeComposition sampleWorkspace
                            end /\
    folders st' = folders sampleWorkspace /\ sequence st' = sequence sampleWorkspace /\
    selectedIds (shared st') = selectedIds (shared sampleWorkspace).
Proof.
  apply (generation_fills_every_timeline_entry sampleGen sampleWorkspace sampleWorkspace).
  - intros n. cbn. split; [discriminate | reflexivity].
  - reflexivity.
Defined.

(** X22: a generation that was started while some timeline entry names
    no folder, or an empty one, produces nothing, silently: the results
    and the composition on show stay as they are, only the busy flag is
    cleared. There is no partial composition. *)
Theorem generation_is_all_or_nothing (env : GenEnv) (armed st : State) :
  (forall n, (0 <= random env n)%Q /\ (random env n < 1)%Q) ->
  timelineUsable armed = false ->
  generateTimer env armed st = Some (setIsGenerating false st).
Proof.
  intros Hr Hu. unfold generateTimer.
  rewrite (generateLoop_unusable env (folders armed) Hr (sequence armed) _ Hu).
  cbn [List.app]. destruct st as [? ? ? ? ? ? ? ? []]. reflexivity.
Qed.

Lemma generation_is_all_or_nothing_witness :
  generateTimer sampleGen (removeFolder "body" (addToSequence "gone" sampleWorkspace))
    sampleWorkspace
  = Some (setIsGenerating false sampleWorkspace).
Proof.
  apply (generation_is_all_or_nothing sampleGen
           (removeFolder "body" (addToSequence "gone" sampleWorkspace)) sampleWorkspace).
  - intros n. cbn. split; [discriminate | reflexivity].
  - reflexivity.
Defined.

End GenerationFacts.

Module OverlayEditFacts.
Import Main Workspace Panel Samples MoreSamples WorkspaceFacts GenerationFacts.
Local Open Scope string_scope.
Local Open Scope list_scope.

Lemma rewriteOverlay_effect (oo : option OverlayConfig) (st : State)
    (editing : SourceFolder) :
  editingFolder st = Some editing ->
  let onSegments := map (fun seg => if has (map video_id (files editing)) (video_id seg)
                                    then withOverlay oo seg else seg) in
  let onComp := fun comp => withSegments (onSegments (segments comp)) comp in
  editingFolder (rewriteOverlay oo st) = None /\
  results (shared (rewriteOverlay oo st)) = map onComp (results (shared st)) /\
  activeComposition (rewriteOverlay oo st) = option_map onComp (activeComposition st) /\
  selectedIds (shared (rewriteOverlay oo st)) = selectedIds (shared st) /\
  tempOverlay (rewriteOverlay oo st) = tempOverlay st.
Proof.
  intros He. unfold rewriteOverlay. rewrite He.
  destruct st as [fs sq gc [c|] ig ia ef tov sh]; repeat split; reflexivity.
Qed.

Lemma Forall2_map_r {A B : Type} (R : A -> B -> Prop) (g : A -> B) (l : list A) :
  (forall x, In x l -> R x (g x)) -> Forall2 R l (map g l).
Proof.
  induction l as [|a l IH]; intros H; [constructor|].
  cbn [map]. constructor; [apply H; now left | apply IH; intros x Hx; apply H; now right].
Qed.

Lemma onSegments_edited (ids : list string) (oo : option OverlayConfig)
    (segs : list VideoFile) :
  segmentsEdited ids oo segs
    (map (fun seg => if has ids (video_id seg) then withOverlay oo seg else seg) segs).
Proof.
  apply Forall2_map_r. intros seg _.
  destruct (has ids (video_id seg)); split; reflexivity.
Qed.

(** X23: opening the editor on a listed folder, editing and saving. The
    editor closes. Every folder with the id of the edited one has the
    edited overlay on all its files, every other folder is untouched, and
    no folder gains, loses or reorders files. In every result, and in the
    composition on show, the segments whose id is one of the edited
    folder's file ids carry the edited overlay and the others are
    untouched. The timeline and the selection are untouched. Opening the
    editor again on the folder, if it has files, brings the saved overlay
    back. *)
Theorem saved_overlay_reaches_folder_and_results (k : nat) (folder : SourceFolder)
    (o : OverlayConfig) (st : State) :
  nth_error (folders st) k = Some folder ->
  let st' := clicks st [OpenEditor k; EditOverlay o; SaveOverlay] in
  let ids := map video_id (files folder) in
  editingFolder st' = None /\
  sequence st' = sequence st /\
  selectedIds (shared st') = selectedIds (shared st) /\
  Forall2 (fun f f' =>
             folder_id f' = folder_id f /\ folder_name f' = folder_name f /\
             folder_color f' = folder_color f /\
             map (withOverlay None) (files f') = map (withOverlay None) (files f) /\
             if folder_id f =? folder_id folder
             then Forall (fun file => overlay file = Some o) (files f')
             else f' = f)
          (folders st) (folders st') /\
  Forall2 (fun c c' =>
             withSegments [] c' = withSegments [] c /\
             segmentsEdited ids (Some o) (segments c) (segments c'))
          (results (shared st)) (results (shared st')) /\
  match activeComposition st, activeComposition st' with
  | Some c, Some c' =>
      withSegments [] c' = withSegments [] c /\
      segmentsEdited ids (Some o) (segments c) (segments c')
  | None, None => True
  | _, _ => False
  end /\
  (files folder <> [] ->
   exists folder',
     nth_error (folders st') k = Some folder' /\
     tempOverlay (clicks st' [OpenEditor k]) = o).
Proof.
  intros Hk. cbv zeta. unfold clicks. cbn [fold_left click]. rewrite Hk.
  set (s1 := openOverlayEditor folder st).
  assert (E1 : editingFolder s1 = Some folder) by reflexivity.
  rewrite E1.
  set (s2 := setTempOverlay o s1).
  assert (E2 : editingFolder s2 = Some folder) by reflexivity.
  rewrite E2. unfold saveOverlay.
  change (tempOverlay s2) with o.
  destruct (rewriteOverlay_effect (Some o) s2 folder E2) as (R1 & R2 & R3 & R4 & R5).
  destruct (rewriteOverlay_folders (Some o) s2) as (F1 & F2). rewrite E2 in F2.
  cbv zeta in R2, R3.
  change (results (shared s2)) with (results (shared st)) in R2.
  change (activeComposition s2) with (activeComposition st) in R3.
  change (folders s2) with (folders st) in F2.
  split; [exact R1|]. split; [exact F1|]. split; [exact R4|].
  split; [|split; [|split]].
  - rewrite F2. apply Forall2_map_r. intros f _.
    destruct (folder_id f =? folder_id folder); [|repeat split].
    cbn [withFiles folder_id folder_name folder_color files].
    repeat (split; [reflexivity|]). split.
    + rewrite map_map. reflexivity.
    + apply Forall_forall. intros file Hin.
      apply in_map_iff in Hin as (f0 & <- & _). reflexivity.
  - rewrite R2. apply Forall2_map_r. intros c _. split; [reflexivity|].
    apply onSegments_edited.
  - rewrite R3. destruct (activeComposition st) as [c|]; cbn [option_map]; [|exact I].
    split; [reflexivity | apply onSegments_edited].
  - intros Hne. rewrite F2, !nth_error_map, Hk. cbn [option_map].
    rewrite String.eqb_refl.
    eexists. split; [reflexivity|].
    destruct (files folder) as [|f0 rest]; [congruence|]. reflexivity.
Qed.

Lemma saved_overlay_reaches_folder_and_results_witness :
  let st := sampleWorkspace in
  let folder := sampleFolder "intro" [sampleSegment "a"; sampleSegment "b"] in
  let o := fullOverlay in
  let st' := clicks st [OpenEditor 0; EditOverlay o; SaveOverlay] in
  let ids := map video_id (files folder) in
  editingFolder st' = None /\
  sequence st' = sequence st /\
  selectedIds (shared st') = selectedIds (shared st) /\
  Forall2 (fun f f' =>
             folder_id f' = folder_id f /\ folder_name f' = folder_name f /\
             folder_color f' = folder_color f /\
             map (withOverlay None) (files f') = map (withOverlay None) (files f) /\
             if folder_id f =? folder_id folder
             then Forall (fun file => overlay file = Some o) (files f')
             else f' = f)
          (folders st) (folders st') /\
  Forall2 (fun c c' =>
             withSegments [] c' = withSegments [] c /\
             segmentsEdited ids (Some o) (segments c) (segments c'))
          (results (shared st)) (results (shared st')) /\
  match activeComposition st, activeComposition st' with
  | Some c, Some c' =>
      withSegments [] c' = withSegments [] c /\
      segmentsEdited ids (Some o) (segments c) (segments c')
  | None, None => True
  | _, _ => False
  end /\
  (files folder <> [] ->
   exists folder',
     nth_error (folders st') 0 = Some folder' /\
     tempOverlay (clicks st' [OpenEditor 0]) = o).
Proof.
  apply (saved_overlay_reaches_folder_and_results 0
           (sampleFolder "intro" [sampleSegment "a"; sampleSegment "b"])
           fullOverlay sampleWorkspace).
  reflexivity.
Defined.

(** X24: removing the overlay of a listed folder through the editor.
    Every folder with its id has no overlay on any file, every other
    folder is untouched; in the results the segments whose id is one of
    the folder's file ids have none either, the others are untouched.
    Opening the editor again starts from the default overlay. *)
Theorem removed_overlay_leaves_folder_and_results (k : nat) (folder : SourceFolder)
    (st : State) :
  nth_error (folders st) k = Some folder ->
  let st' := clicks st [OpenEditor k; RemoveOverlay] in
  let ids := map video_id (files folder) in
  editingFolder st' = None /\
  sequence st' = sequence st /\
  Forall2 (fun f f' =>
             folder_id f' = folder_id f /\
             map (withOverlay None) (files f') = map (withOverlay None) (files f) /\
             if folder_id f =? folder_id folder
             then Forall (fun file => overlay file = None) (files f')
             else f' = f)
          (folders st) (folders st') /\
  Forall2 (fun c c' =>
             withSegments [] c' = withSegments [] c /\
             segmentsEdited ids None (segments c) (segments c'))
          (results (shared st)) (results (shared st')) /\
  tempOverlay (clicks st' [OpenEditor k]) = DEFAULT_OVERLAY.
Proof.
  intros Hk. cbv zeta. unfold clicks. cbn [fold_left click]. rewrite Hk.
  set (s1 := openOverlayEditor folder st).
  assert (E1 : editingFolder s1 = Some folder) by reflexivity.
  rewrite E1. unfold removeOverlayFromFolder.
  destruct (rewriteOverlay_effect None s1 folder E1) as (R1 & R2 & _).
  destruct (rewriteOverlay_folders None s1) as (F1 & F2). rewrite E1 in F2.
  cbv zeta in R2.
  change (results (shared s1)) with (results (shared st)) in R2.
  change (folders s1) with (folders st) in F2.
  split; [exact R1|]. split; [exact F1|]. split; [|split].
  - rewrite F2. apply Forall2_map_r. intros f _.
    destruct (folder_id f =? folder_id folder); [|repeat split].
    cbn [withFiles folder_id files]. split; [reflexivity|]. split.
    + rewrite map_map. reflexivity.
    + apply Forall_forall. intros file Hin.
      apply in_map_iff in Hin as (f0 & <- & _). reflexivity.
  - rewrite R2. apply Forall2_map_r. intros c _. split; [reflexivity|].
    apply onSegments_edited.
  - rewrite F2, nth_error_map, Hk. cbn [option_map]. rewrite String.eqb_refl.
    unfold openOverlayEditor. cbn [setTempOverlay setEditingFolder tempOverlay withFiles files].
    destruct (files folder); reflexivity.
Qed.

Lemma removed_overlay_leaves_folder_and_results_witness :
  let st := clicks sampleWorkspace [OpenEditor 0; EditOverlay fullOverlay; SaveOverlay] in
  let folder := sampleFolder "intro" [withOverlay (Some fullOverlay) (sampleSegment "a");
                                      withOverlay (Some fullOverlay) (sampleSegment "b")] in
  let st' := clicks st [OpenEditor 0; RemoveOverlay] in
  let ids := map video_id (files folder) in
  editingFolder st' = None /\
  sequence st' = sequence st /\
  Forall2 (fun f f' =>
             folder_id f' = folder_id f /\
             map (withOverlay None) (files f') = map (withOverlay None) (files f) /\
             if folder_id f =? folder_id folder
             then Forall (fun file => overlay file = None) (files f')
             else f' = f)
          (folders st) (folders st') /\
  Forall2 (fun c c' =>
             withSegments [] c' = withSegments [] c /\
             segmentsEdited ids None (segments c) (segments c'))
          (results (shared st)) (results (shared st')) /\
  tempOverlay (clicks st' [OpenEditor 0]) = DEFAULT_OVERLAY.
Proof.
  apply (removed_overlay_leaves_folder_and_results 0
           (sampleFolder "intro" [withOverlay (Some fullOverlay) (sampleSegment "a");
                                  withOverlay (Some fullOverlay) (sampleSegment "b")])
           (clicks sampleWorkspace [OpenEditor 0; EditOverlay fullOverlay; SaveOverlay])).
  reflexivity.
Defined.

(** X25: an overlay saved on a folder is on every composition generated
    afterwards: whichever file is drawn for a timeline entry that names
    the folder, the segment carries the saved overlay. *)
Theorem later_compositions_carry_saved_overlay (env : GenEnv) (k : nat)
    (folder : SourceFolder) (o : OverlayConfig) (st st2 : State) :
  (forall n, (0 <= random env n)%Q /\ (random env n < 1)%Q) ->
  nth_error (folders st) k = Some folder ->
  timelineUsable st = true ->
  let armed := clicks st [OpenEditor k; EditOverlay o; SaveOverlay] in
  exists new st',
    generateTimer env armed st2 = Some st' /\
    results (shared st') = new ++ results (shared st2) /\
    List.length new = rounds (generationCount st) /\
    Forall (fun c =>
              Forall2 (fun folderId seg =>
                         folderId = folder_id folder -> overlay seg = Some o)
                      (sequence st) (segments c)) new.
Proof.
  intros Hr Hk Hu. cbv zeta.
  assert (Harmed : clicks st [OpenEditor k; EditOverlay o; SaveOverlay]
                   = rewriteOverlay (Some o) (setTempOverlay o (openOverlayEditor folder st))).
  { unfold clicks. cbn [fold_left click]. rewrite Hk. reflexivity. }
  rewrite Harmed.
  set (s2 := setTempOverlay o (openOverlayEditor folder st)).
  assert (E2 : editingFolder s2 = Some folder) by reflexivity.
  destruct (rewriteOverlay_folders (Some o) s2) as (F1 & F2). rewrite E2 in F2.
  destruct (rewriteOverlay_keeps (Some o) s2) as (_ & _ & Hus).
  change (folders s2) with (folders st) in F2, Hus.
  change (sequence s2) with (sequence st) in F1.
  assert (Hu' : timelineUsable (rewriteOverlay (Some o) s2) = true).
  { unfold timelineUsable in *. rewrite F1. rewrite forallb_forall in *.
    intros fid Hin. rewrite Hus. exact (Hu fid Hin). }
  destruct (generateLoop_usable env (folders (rewriteOverlay (Some o) s2)) Hr
              (sequence (rewriteOverlay (Some o) s2))
              (List.length (results (shared (rewriteOverlay (Some o) s2)))) Hu'
              (rounds (generationCount (rewriteOverlay (Some o) s2))) 0 0 [])
    as (new & Hg & G3 & _ & G5).
  unfold generateTimer. rewrite Hg. cbn [List.app].
  eexists new, _. split; [reflexivity|]. split.
  { destruct new; reflexivity. }
  split.
  - rewrite G3. unfold rewriteOverlay. rewrite E2.
    destruct st as [fs sq gc [c|] ig ia ef tov sh]; reflexivity.
  - apply Forall_forall. intros c Hc. rewrite Forall_forall in G5.
    destruct (G5 c Hc) as (HF & _). rewrite F1 in HF.
    apply (Forall2_impl (R1 := fun folderId seg =>
             exists folder0,
               find (fun f => folder_id f =? folderId)
                    (folders (rewriteOverlay (Some o) s2)) = Some folder0
               /\ In seg (files folder0))); [|exact HF].
    intros folderId seg (folder0 & Hfind & Hin) ->.
    rewrite F2 in Hfind.
    rewrite find_map_same_id in Hfind
      by (intros f; destruct (folder_id f =? folder_id folder); reflexivity).
    destruct (find (fun f => folder_id f =? folder_id folder) (folders st)) as [f|] eqn:Ef;
      [|discriminate].
    apply find_some in Ef as [_ Eid]. cbn [option_map] in Hfind.
    rewrite Eid in Hfind. injection Hfind as <-.
    cbn [withFiles files] in Hin. apply in_map_iff in Hin as (f0 & <- & _).
    reflexivity.
Qed.

Lemma later_compositions_carry_saved_overlay_witness :
  let armed := clicks sampleWorkspace [OpenEditor 0; EditOverlay fullOverlay; SaveOverlay] in
  exists new st',
    generateTimer sampleGen armed sampleWorkspace = Some st' /\
    results (shared st') = new ++ results (shared sampleWorkspace) /\
    List.length new = rounds (generationCount sampleWorkspace) /\
    Forall (fun c =>
              Forall2 (fun folderId seg =>
                         folderId = folder_id (sampleFolder "intro"
                                                 [sampleSegment "a"; sampleSegment "b"]) ->
                         overlay seg = Some fullOverlay)
                      (sequence sampleWorkspace) (segments c)) new.
Proof.
  apply (later_compositions_carry_saved_overlay sampleGen 0
           (sampleFolder "intro" [sampleSegment "a"; sampleSegment "b"])
           fullOverlay sampleWorkspace sampleWorkspace).
  - intros n. cbn. split; [discriminate | reflexivity].
  - reflexivity.
  - reflexivity.
Defined.

End OverlayEditFacts.

Module SelectionFacts.
Import Main Workspace Panel Samples MoreSamples.
Local Open Scope string_scope.
Local Open Scope list_scope.

Lemma has_In (ids : list string) (id : string) : has ids id = true <-> In id ids.
Proof.
  unfold has. rewrite existsb_exists. split.
  - intros (x & Hx & E). apply String.eqb_eq in E. now subst.
  - intros H. exists id. split; [exact H | apply String.eqb_refl].
Qed.

Lemma has_false (ids : list string) (id : string) : has ids id = false <-> ~ In id ids.
Proof.
  rewrite <- has_In. destruct (has ids id); split; intros; congruence.
Qed.

Lemma newSet_acc : forall (a acc : list string),
  NoDup (acc ++ a) -> fold_left add a acc = acc ++ a.
Proof.
  induction a as [|x a IH]; intros acc H; [now rewrite app_nil_r|].
  cbn [fold_left]. unfold add at 2.
  assert (Hx : has acc x = false).
  { apply has_false. intros Hin. apply NoDup_remove_2 in H. apply H.
    apply in_or_app. now left. }
  rewrite Hx, IH; rewrite <- app_assoc; [reflexivity | exact H].
Qed.

Lemma targets_all (rs : list Composition) (sel : list string) :
  incl (map comp_id rs) sel ->
  filter (fun r => existsb (String.eqb (comp_id r)) sel) rs = rs.
Proof.
  intros H. induction rs as [|r rs IH]; [reflexivity|]. cbn [filter].
  assert (Hr : existsb (String.eqb (comp_id r)) sel = true).
  { apply (has_In sel (comp_id r)). apply H. now left. }
  rewrite Hr, IH; [reflexivity|]. intros x Hx. apply H. now right.
Qed.

Lemma targets_none (rs : list Composition) :
  filter (fun r => existsb (String.eqb (comp_id r)) []) rs = [].
Proof. induction rs as [|r rs IH]; [reflexivity | exact IH]. Qed.

(** X26: the check box over the results. With results of distinct ids
    and a selection made of ids of results: if every result is selected
    the box clears the selection, otherwise it selects every result, and
    the batch export then has all the results as its targets, in the
    order of the list. Two clicks in a row always end with nothing
    selected or everything selected, the opposite of the first click's
    outcome. *)
Theorem select_all_toggles_between_all_and_none (st : State) :
  results (shared st) <> [] ->
  NoDup (map comp_id (results (shared st))) ->
  NoDup (selectedIds (shared st)) ->
  incl (selectedIds (shared st)) (map comp_id (results (shared st))) ->
  let st' := toggleSelectAll st in
  (incl (map comp_id (results (shared st))) (selectedIds (shared st)) ->
   selectedIds (shared st') = [] /\ targetsOf (shared st') = []) /\
  (~ incl (map comp_id (results (shared st))) (selectedIds (shared st)) ->
   selectedIds (shared st') = map comp_id (results (shared st)) /\
   targetsOf (shared st') = results (shared st) /\
   selectedIds (shared (toggleSelectAll st')) = []) /\
  results (shared st') = results (shared st) /\
  activeComposition st' = activeComposition st.
Proof.
  intros Hne Hnd Hsel Hincl. cbv zeta. unfold toggleSelectAll.
  assert (Hpos : (0 <? List.length (results (shared st)))%nat = true).
  { apply Nat.ltb_lt. destruct (results (shared st)); [congruence | cbn; lia]. }
  assert (Hlen : List.length (map comp_id (results (shared st)))
                 = List.length (results (shared st))) by apply length_map.
  rewrite Hpos, andb_true_r.
  destruct (Nat.eqb_spec (List.length (selectedIds (shared st)))
              (List.length (results (shared st)))) as [E|E].
  - assert (Hall : incl (map comp_id (results (shared st))) (selectedIds (shared st))).
    { apply NoDup_length_incl; [exact Hsel | lia | exact Hincl]. }
    split; [|split; [|split; reflexivity]].
    + intros _. split; [reflexivity|].
      unfold targetsOf. cbn [setSelectedIds setShared shared selectedIds results].
      apply targets_none.
    + intros H. contradiction.
  - assert (Hnot : ~ incl (map comp_id (results (shared st))) (selectedIds (shared st))).
    { intros Hall. apply E. rewrite <- Hlen. apply Nat.le_antisymm.
      - apply NoDup_incl_length; assumption.
      - apply NoDup_incl_length; assumption. }
    split; [|split; [|split; reflexivity]].
    + intros H. contradiction.
    + intros _. cbn [setSelectedIds setShared shared selectedIds results].
      unfold newSet. rewrite newSet_acc by exact Hnd. cbn [List.app].
      split; [reflexivity|]. split.
      * unfold targetsOf. cbn [selectedIds results]. apply targets_all, incl_refl.
      * cbn [List.app]. rewrite Hlen, Nat.eqb_refl, Hpos. reflexivity.
Qed.

Lemma select_all_toggles_between_all_and_none_witness :
  let st := resultsWorkspace in
  let st' := toggleSelectAll st in
  (incl (map comp_id (results (shared st))) (selectedIds (shared st)) ->
   selectedIds (shared st') = [] /\ targetsOf (shared st') = []) /\
  (~ incl (map comp_id (results (shared st))) (selectedIds (shared st)) ->
   selectedIds (shared st') = map comp_id (results (shared st)) /\
   targetsOf (shared st') = results (shared st) /\
   selectedIds (shared (toggleSelectAll st')) = []) /\
  results (shared st') = results (shared st) /\
  activeComposition st' = activeComposition st.
Proof.
  apply (select_all_toggles_between_all_and_none resultsWorkspace).
  - discriminate.
  - repeat constructor; cbn; intuition discriminate.
  - repeat constructor; cbn; intuition discriminate.
  - intros x [<-|[]]. cbn. auto.
Defined.

Lemma delete_spec (ids : list string) (id x : string) :
  has (delete ids id) x = if x =? id then false else has ids x.
Proof.
  unfold delete. destruct (String.eqb_spec x id) as [->|Hne].
  - apply has_false. intros Hin. apply filter_In in Hin as [_ H].
    now rewrite String.eqb_refl in H.
  - destruct (has ids x) eqn:E.
    + apply has_In. apply has_In in E. apply filter_In. split; [exact E|].
      apply negb_true_iff. now apply String.eqb_neq.
    + apply has_false. apply has_false in E. intros Hin.
      apply filter_In in Hin as [Hin _]. contradiction.
Qed.

Lemma delete_length (ids : list string) (id : string) :
  NoDup ids -> In id ids -> S (List.length (delete ids id)) = List.length ids.
Proof.
  unfold delete. induction ids as [|a ids IH]; intros Hnd Hin; [destruct Hin|].
  inversion Hnd as [|? ? Ha Hnd']; subst. cbn [filter].
  destruct (String.eqb_spec a id) as [->|Hne]; cbn [negb List.length].
  - f_equal. clear IH Hin Hnd. induction ids as [|b ids IH]; [reflexivity|].
    inversion Hnd' as [|? ? Hb Hnd'']; subst. cbn [filter].
    destruct (String.eqb_spec b id) as [->|Hb'].
    + exfalso. apply Ha. now left.
    + cbn [negb List.length]. f_equal. apply IH; [|exact Hnd''].
      intros H. apply Ha. now right.
  - f_equal. apply IH; [exact Hnd'|]. destruct Hin; [congruence | assumption].
Qed.

(** X27: a click on the check box of a result flips that result and no
    other: membership in the selection changes for the clicked id only,
    the selection stays free of repetitions, its size (the number shown on
    the batch button) goes up or down by one, and the targets of the
    batch export are the results the new selection names. *)
Theorem toggle_selection_flips_one_result (id : string) (st : State) :
  NoDup (selectedIds (shared st)) ->
  let sel := selectedIds (shared st) in
  let sel' := selectedIds (shared (toggleSelection id st)) in
  NoDup sel' /\
  (forall x, has sel' x = if x =? id then negb (has sel id) else has sel x) /\
  List.length sel' = (if has sel id then List.length sel - 1 else List.length sel + 1)%nat /\
  targetsOf (shared (toggleSelection id st))
    = filter (fun r => if comp_id r =? id then negb (has sel id) else has sel (comp_id r))
             (results (shared st)) /\
  has (selectedIds (shared (toggleSelection id (toggleSelection id st)))) id = has sel id.
Proof.
  intros Hnd. cbv zeta.
  assert (Hflip : forall sel0, NoDup sel0 ->
            let s1 := if has sel0 id then delete sel0 id else add sel0 id in
            NoDup s1 /\
            (forall x, has s1 x = if x =? id then negb (has sel0 id) else has sel0 x) /\
            List.length s1 = (if has sel0 id then List.length sel0 - 1
                              else List.length sel0 + 1)%nat).
  { intros sel0 H0. cbv zeta. destruct (has sel0 id) eqn:Eh.
    - split; [apply NoDup_filter; exact H0|]. split.
      + intros x. rewrite delete_spec. destruct (x =? id); reflexivity.
      + apply has_In in Eh. pose proof (delete_length sel0 id H0 Eh). lia.
    - unfold add. rewrite Eh. split; [|split].
      + apply NoDup_app; [exact H0 | repeat constructor; intros [] |].
        intros x Hx [<-|[]]. apply has_false in Eh. contradiction.
      + intros x. unfold has at 1. rewrite existsb_app. fold (has sel0 x).
        cbn [existsb]. rewrite orb_false_r.
        destruct (String.eqb_spec x id) as [->|Hne].
        * rewrite Eh. reflexivity.
        * apply orb_false_r.
      + rewrite length_app. reflexivity. }
  destruct (Hflip (selectedIds (shared st)) Hnd) as (H1 & H2 & H3).
  unfold toggleSelection at 1 2 3.
  cbn [setSelectedIds setShared shared selectedIds results].
  split; [exact H1|]. split; [exact H2|]. split; [exact H3|]. split.
  - unfold targetsOf. cbn [selectedIds results]. apply filter_ext. intros r.
    exact (H2 (comp_id r)).
  - unfold toggleSelection. cbn [setSelectedIds setShared shared selectedIds results].
    destruct (Hflip _ H1) as (_ & H2' & _). rewrite H2', String.eqb_refl.
    rewrite H2, String.eqb_refl. apply negb_involutive.
Qed.

Lemma toggle_selection_flips_one_result_witness :
  let st := resultsWorkspace in
  let id := "r3" in
  let sel := selectedIds (shared st) in
  let sel' := selectedIds (shared (toggleSelection id st)) in
  NoDup sel' /\
  (forall x, has sel' x = if x =? id then negb (has sel id) else has sel x) /\
  List.length sel' = (if has sel id then List.length sel - 1 else List.length sel + 1)%nat /\
  targetsOf (shared (toggleSelection id st))
    = filter (fun r => if comp_id r =? id then negb (has sel id) else has sel (comp_id r))
             (results (shared st)) /\
  has (selectedIds (shared (toggleSelection id (toggleSelection id st)))) id = has sel id.
Proof.
  apply (toggle_selection_flips_one_result "r3" resultsWorkspace).
  repeat constructor; cbn; intuition discriminate.
Defined.

(** X28: the answer of the title service. The handler is called with
    the composition on show; when the answer arrives, every result with
    that composition's id gets the title and the description and no other
    result changes, and the composition on show at that moment gets them
    too, whichever it is by then: the test on the composition on show
    reads the value of the render that made the call. The busy flag is
    cleared; folders, timeline and selection are untouched. *)
Theorem title_answer_goes_to_composition_on_show (composition : Composition)
    (title description : string) (called st : State) :
  activeComposition called = Some composition ->
  let st' := handleAiAnalysis_answer composition title description called st in
  isAiProcessing st' = false /\
  activeComposition st' = option_map (withMetadata title description) (activeComposition st) /\
  Forall2 (fun c c' =>
             if comp_id c =? comp_id composition
             then c' = withMetadata title description c
             else c' = c)
          (results (shared st)) (results (shared st')) /\
  folders st' = folders st /\ sequence st' = sequence st /\
  selectedIds (shared st') = selectedIds (shared st).
Proof.
  intros Hc. cbv zeta. unfold handleAiAnalysis_answer. rewrite Hc, String.eqb_refl.
  cbn [setIsAiProcessing setActiveComposition setResults setShared isAiProcessing
       activeComposition shared results folders sequence selectedIds].
  repeat (split; [reflexivity|]). split; [|repeat split].
  induction (results (shared st)) as [|c rs IH]; cbn [map]; constructor; [|exact IH].
  destruct (comp_id c =? comp_id composition); reflexivity.
Qed.

Lemma title_answer_goes_to_composition_on_show_witness :
  let composition := {| comp_id := "r1"; comp_name := "one"; segments := threeSegments;
                        createdAt := 0; aiTitle := None; aiDescription := None |} in
  let st := setActiveComposition (nth_error threeResults 2) resultsWorkspace in
  let st' := handleAiAnalysis_answer composition "t" "d" resultsWorkspace st in
  isAiProcessing st' = false /\
  activeComposition st' = option_map (withMetadata "t" "d") (activeComposition st) /\
  Forall2 (fun c c' =>
             if comp_id c =? comp_id composition
             then c' = withMetadata "t" "d" c
             else c' = c)
          (results (shared st)) (results (shared st')) /\
  folders st' = folders st /\ sequence st' = sequence st /\
  selectedIds (shared st') = selectedIds (shared st).
Proof.
  apply (title_answer_goes_to_composition_on_show
           {| comp_id := "r1"; comp_name := "one"; segments := threeSegments;
              createdAt := 0; aiTitle := None; aiDescription := None |}
           "t" "d" resultsWorkspace
           (setActiveComposition (nth_error threeResults 2) resultsWorkspace)).
  reflexivity.
Defined.

End SelectionFacts.

Module UploadFacts.
Import Main Workspace Panel Samples MoreSamples.
Local Open Scope string_scope.
Local Open Scope list_scope.

Section Grouping.

Variable env : GenEnv.
Variable createObjectURL : nat -> string.

Lemma push_keys (name : string) (v : VideoFile) (m : FolderMap) :
  map fst (push name v m) = map fst m.
Proof.
  unfold push. rewrite map_map. apply map_ext. intros e.
  destruct (fst e =? name); reflexivity.
Qed.

Lemma hasKey_In (m : FolderMap) (name : string) :
  hasKey m name = true <-> In name (map fst m).
Proof.
  unfold hasKey. rewrite existsb_exists, in_map_iff. split.
  - intros (e & He & E). apply String.eqb_eq in E. eauto.
  - intros (e & E & He). exists e. split; [exact He|]. rewrite E. apply String.eqb_refl.
Qed.

(** The map after the videos [done] (in upload order) have been filed. *)
Lemma groupFiles_invariant : forall (fileList done : list FileInput) (n : nat) (m : FolderMap),
  NoDup (map fst m) ->
  (forall name fs, In (name, fs) m ->
     fs <> [] /\
     Forall (fun v => overlay v = None) fs /\
     map video_name fs
       = map file_name (filter (fun f => folderNameOf f =? name) done)) ->
  (forall f, In f done -> In (folderNameOf f) (map fst m)) ->
  let videos := done ++ filter (fun f => prefix "video/" (file_type f)) fileList in
  let m' := snd (groupFiles env createObjectURL fileList n m) in
  NoDup (map fst m') /\
  (forall name fs, In (name, fs) m' ->
     fs <> [] /\
     Forall (fun v => overlay v = None) fs /\
     map video_name fs
       = map file_name (filter (fun f => folderNameOf f =? name) videos)) /\
  (forall f, In f videos -> In (folderNameOf f) (map fst m')).
Proof.
  induction fileList as [|file rest IH]; intros done n m Hnd Hent Hkeys.
  - cbn [filter groupFiles snd]. rewrite app_nil_r. auto.
  - cbn [filter groupFiles].
    destruct (prefix "video/" (file_type file)) eqn:Ev; cbn [negb].
    2: { apply IH; assumption. }
    cbv zeta.
    set (dir := folderNameOf file).
    set (v := {| video_id := idOf env (random env n); video_name := file_name file;
                 video_url := createObjectURL n; video_type := file_type file;
                 overlay := None |}).
    set (m1 := if hasKey m dir then m else m ++ [(dir, [])]).
    replace (done ++ file :: filter (fun f => prefix "video/" (file_type f)) rest)
      with ((done ++ [file]) ++ filter (fun f => prefix "video/" (file_type f)) rest)
      by (rewrite <- app_assoc; reflexivity).
    assert (Hk1 : In dir (map fst m1) /\ incl (map fst m) (map fst m1) /\
                  NoDup (map fst m1)).
    { subst m1. destruct (hasKey m dir) eqn:Eh.
      - split; [now apply hasKey_In|]. split; [apply incl_refl | exact Hnd].
      - rewrite map_app. cbn [map fst]. split; [apply in_or_app; right; now left|].
        split; [apply incl_appl, incl_refl|].
        apply NoDup_app; [exact Hnd | repeat constructor; intros [] |].
        intros x Hx [<-|[]]. apply hasKey_In in Hx. congruence. }
    destruct Hk1 as (Hdir & Hincl & Hnd1).
    assert (Hent1 : forall name fs, In (name, fs) m1 ->
              Forall (fun v => overlay v = None) fs /\
              map video_name fs
                = map file_name (filter (fun f => folderNameOf f =? name) done) /\
              (fs = [] -> name = dir)).
    { intros name fs Hin. subst m1. destruct (hasKey m dir) eqn:Eh.
      - destruct (Hent name fs Hin) as (A & B & C). split; [exact B|].
        split; [exact C | intros; contradiction].
      - apply in_app_or in Hin as [Hin|[Hin|[]]].
        + destruct (Hent name fs Hin) as (A & B & C). split; [exact B|].
          split; [exact C | intros; contradiction].
        + injection Hin as <- <-. split; [constructor|]. split; [|reflexivity].
          assert (Hno : forall f, In f done -> (folderNameOf f =? dir) = false).
          { intros f Hf. apply String.eqb_neq. intros E.
            apply Hkeys in Hf. rewrite E in Hf. apply hasKey_In in Hf. congruence. }
          clear -Hno. induction done as [|f done IH]; [reflexivity|].
          cbn [filter]. rewrite (Hno f) by now left.
          apply IH. intros g Hg. apply Hno. now right. }
    apply IH.
    + rewrite push_keys. exact Hnd1.
    + intros name fs Hin. unfold push in Hin.
      apply in_map_iff in Hin as ([k fs0] & E & Hin0). cbn [fst snd] in E.
      destruct (Hent1 k fs0 Hin0) as (B & C & D).
      rewrite filter_app, map_app. cbn [filter]. fold dir.
      destruct (String.eqb_spec k dir) as [->|Hne].
      * injection E as <- <-. rewrite String.eqb_refl.
        split; [destruct fs0; discriminate|]. split.
        -- apply Forall_app. split; [exact B | repeat constructor].
        -- rewrite map_app, C. reflexivity.
      * injection E as <- <-.
        assert (Ed : (dir =? k) = false) by (apply String.eqb_neq; congruence).
        rewrite Ed. cbn [map]. rewrite app_nil_r.
        split; [intros ->; apply Hne, D; reflexivity|]. split; assumption.
    + intros f Hf. rewrite push_keys. apply in_app_or in Hf as [Hf|[<-|[]]].
      * apply Hincl, Hkeys, Hf.
      * exact Hdir.
Qed.

Lemma buildFolders_filled : forall (m : FolderMap) (c n : nat),
  Forall (fun e => snd e <> []) m ->
  let new := buildFolders env m c n in
  map folder_name new = map fst m /\
  map files new = map snd m /\
  forall j folder, nth_error new j = Some folder ->
    nth_error FOLDER_COLORS ((c + j) mod 6) = Some (folder_color folder).
Proof.
  induction m as [|[name fs] m IH]; intros c n Hm; cbv zeta.
  - cbn. repeat split. intros j folder H. destruct j; discriminate.
  - inversion Hm as [|? ? Hfs Hm']; subst. cbn [snd] in Hfs.
    cbn [buildFolders].
    destruct (Nat.ltb_spec 0 (List.length fs)) as [_|Hz];
      [|destruct fs; [congruence | cbn in Hz; lia]].
    destruct (IH (S c) (S n) Hm') as (A & B & C).
    assert (Hcol : nth_error FOLDER_COLORS (c mod 6)
                   = Some (nth (c mod List.length FOLDER_COLORS) FOLDER_COLORS "")).
    { apply (nth_error_nth' FOLDER_COLORS ""). apply (Nat.mod_upper_bound c 6). lia. }
    set (col := nth (c mod List.length FOLDER_COLORS) FOLDER_COLORS "") in *.
    clearbody col.
    cbn [map folder_name files fst snd]. rewrite A, B.
    split; [reflexivity|]. split; [reflexivity|].
    intros [|j] folder Hj; cbn [nth_error] in Hj.
    + injection Hj as <-. cbn [folder_color]. rewrite Nat.add_0_r. exact Hcol.
    + replace (c + S j)%nat with (S c + j)%nat by lia. exact (C j folder Hj).
Qed.

Lemma buildFolders_pairs : forall (m : FolderMap) (c n : nat),
  Forall (fun e => snd e <> []) m ->
  map (fun f => (folder_name f, files f)) (buildFolders env m c n) = m.
Proof.
  induction m as [|[name fs] m IH]; intros c n Hm; [reflexivity|].
  inversion Hm as [|? ? Hfs Hm']; subst. cbn [snd] in Hfs.
  cbn [buildFolders].
  destruct (Nat.ltb_spec 0 (List.length fs)) as [_|Hz];
    [|destruct fs; [congruence | cbn in Hz; lia]].
  cbn [map folder_name files]. now rewrite IH.
Qed.

End Grouping.

(** X29: the upload of a directory tree. The folders there were stay in
    front, in their order; timeline, results and selection are untouched.
    The video files are grouped by the name of the directory they lie in
    ([Root] for a file with no directory in its path), not by its path:
    there is one new folder per such name, no two with the same name and
    none empty, and directories of the same name in different places of
    the tree share one folder. A folder holds the video files whose
    directory has its name and no others, in the order of the upload,
    under their file names, without overlay. The colour of the j-th new
    folder is the palette entry number (folders before + j) mod 6. *)
Theorem upload_groups_videos_by_directory_name (env : GenEnv) (createObjectURL : nat -> string)
    (fileList : list FileInput) (st : State) :
  let st' := handleFolderUpload env createObjectURL fileList st in
  let videos := filter (fun f => prefix "video/" (file_type f)) fileList in
  exists new,
    folders st' = folders st ++ new /\
    sequence st' = sequence st /\
    shared st' = shared st /\
    NoDup (map folder_name new) /\
    Forall (fun folder =>
              files folder <> [] /\
              Forall (fun v => overlay v = None) (files folder) /\
              map video_name (files folder)
                = map file_name
                    (filter (fun f => folderNameOf f =? folder_name folder) videos)) new /\
    (forall f, In f videos -> In (folderNameOf f) (map folder_name new)) /\
    (forall j folder, nth_error new j = Some folder ->
       nth_error FOLDER_COLORS ((List.length (folders st) + j) mod 6)
         = Some (folder_color folder)).
Proof.
  cbv zeta. unfold handleFolderUpload.
  destruct fileList as [|file rest].
  - exists []. rewrite app_nil_r. cbn [filter map].
    split; [reflexivity|]. split; [reflexivity|]. split; [reflexivity|].
    split; [constructor|]. split; [constructor|]. split.
    + intros f [].
    + intros j folder H. destruct j; discriminate.
  - set (fileList := file :: rest).
    destruct (groupFiles_invariant env createObjectURL fileList [] 0 [])
      as (Hnd & Hent & Hkeys).
    { constructor. }
    { intros name fs []. }
    { intros f []. }
    cbn [List.app] in Hent, Hkeys.
    destruct (groupFiles env createObjectURL fileList 0 []) as [n m] eqn:Eg.
    cbn [snd] in Hnd, Hent, Hkeys.
    assert (Hfilled : Forall (fun e => snd e <> []) m).
    { apply Forall_forall. intros [name fs] Hin. exact (proj1 (Hent name fs Hin)). }
    destruct (buildFolders_filled env m
                (List.length (folders st) mod List.length FOLDER_COLORS) n Hfilled)
      as (A & B & C).
    exists (buildFolders env m (List.length (folders st) mod List.length FOLDER_COLORS) n).
    cbn [setFolders folders sequence shared].
    split; [reflexivity|]. split; [reflexivity|]. split; [reflexivity|].
    split; [rewrite A; exact Hnd|]. split; [|split].
    + apply Forall_forall. intros folder Hin.
      assert (Hpair : In (folder_name folder, files folder) m).
      { apply (in_map (fun f => (folder_name f, files f))) in Hin.
        rewrite (buildFolders_pairs env m _ n Hfilled) in Hin. exact Hin. }
      exact (Hent _ _ Hpair).
    + intros f Hf. rewrite A. exact (Hkeys f Hf).
    + intros j folder Hj. rewrite <- (C j folder Hj).
      change (List.length FOLDER_COLORS) with 6%nat.
      f_equal. rewrite Nat.Div0.add_mod_idemp_l. reflexivity.
Qed.

(** Two directories called intro, one under clips and one under spare,
    end in one folder. *)
Remark same_named_directories_share_a_folder :
  map (fun folder => (folder_name folder, map video_name (files folder)))
      (skipn 2 (folders (handleFolderUpload sampleGen sampleURL sampleUpload
                           sampleWorkspace)))
  = [("intro", ["a.mp4"; "b.mp4"; "e.mp4"]); ("body", ["c.mp4"]); ("Root", ["d.mp4"])].
Proof. vm_compute. reflexivity. Qed.

Lemma upload_groups_videos_by_directory_name_witness :
  let st := sampleWorkspace in
  let st' := handleFolderUpload sampleGen sampleURL sampleUpload st in
  let videos := filter (fun f => prefix "video/" (file_type f)) sampleUpload in
  exists new,
    folders st' = folders st ++ new /\
    sequence st' = sequence st /\
    shared st' = shared st /\
    NoDup (map folder_name new) /\
    Forall (fun folder =>
              files folder <> [] /\
              Forall (fun v => overlay v = None) (files folder) /\
              map video_name (files folder)
                = map file_name
                    (filter (fun f => folderNameOf f =? folder_name folder) videos)) new /\
    (forall f, In f videos -> In (folderNameOf f) (map folder_name new)) /\
    (forall j folder, nth_error new j = Some folder ->
       nth_error FOLDER_COLORS ((List.length (folders st) + j) mod 6)
         = Some (folder_color folder)).
Proof.
  exact (upload_groups_videos_by_directory_name sampleGen sampleURL sampleUpload sampleWorkspace).
Defined.

End UploadFacts.
